(** * Ford-Fulkerson engine and flow verifier of [app.py]

    A shallow embedding of the [Graph] class of [src/app.py] (capacity and
    flow tables, breadth-first search, augmentation loop, verifier) and of
    the [/api/verify] handler that drives it, followed by the properties
    proved about them.

    Python containers are modelled with their iteration order: a [dict] is
    an association list in insertion order, a [defaultdict] inserts its
    default when a missing key is read, a [set] is used through membership
    only.  Python integers are [Z]. *)

From Stdlib Require Import ZArith List Bool Lia String.
From Stdlib Require Import Permutation Ascii.
Import ListNotations.
Local Open Scope Z_scope.

(* ================================================================= *)
(** ** Errors and results *)

(** What can stop a run of the modelled code.  [KeyError] is Python's
    exception on [parent[s]] for a missing key; [FloatInfinity] marks
    [path_flow] still being [float('inf')] when it is added to the integer
    total; [OutOfFuel] is the model's own bound on a [while] loop. *)
Inductive error : Type :=
| KeyError
| FloatInfinity
| OutOfFuel.

Inductive result (A : Type) : Type :=
| Ok (a : A)
| Err (e : error).
Arguments Ok {A} a.
Arguments Err {A} e.

Definition bind {A B : Type} (r : result A) (k : A -> result B) : result B :=
  match r with
  | Ok a => k a
  | Err e => Err e
  end.

Notation "x <- r ;; k" := (bind r (fun x => k))
  (at level 61, r at next level, right associativity).
Notation "' p <- r ;; k" := (bind r (fun x => let p := x in k))
  (at level 61, p pattern, r at next level, right associativity).

(* ================================================================= *)
(** ** Dictionaries *)

(** [dict A]: a Python [dict] with integer keys, in insertion order. *)
Definition dict (A : Type) : Type := list (Z * A).

Section DictOps.
Context {A : Type}.

(** [d.get(k)] *)
Fixpoint get (d : dict A) (k : Z) : option A :=
  match d with
  | [] => None
  | (k', a) :: d' => if k =? k' then Some a else get d' k
  end.

(** [d[k] = a]: an existing key keeps its place, a new key goes last. *)
Fixpoint set (d : dict A) (k : Z) (a : A) : dict A :=
  match d with
  | [] => [(k, a)]
  | (k', a') :: d' =>
      if k =? k' then (k', a) :: d' else (k', a') :: set d' k a
  end.

(** [for k in d] *)
Definition keys (d : dict A) : list Z := map fst d.

(** [d.get(k, default)] *)
Definition get_default (d : dict A) (k : Z) (default : A) : A :=
  match get d k with
  | Some a => a
  | None => default
  end.
End DictOps.

(** [k in s] for a Python [set] of integers. *)
Definition mem (k : Z) (s : list Z) : bool := existsb (Z.eqb k) s.

(** [range(n)] *)
Definition range (n : Z) : list Z := map Z.of_nat (seq 0 (Z.to_nat n)).

(** [sum(...)] *)
Definition sum (l : list Z) : Z := fold_right Z.add 0 l.

(** [defaultdict(lambda: defaultdict(int))]: a table of rows.  Reading
    [m[u]] or [m[u][v]] never fails; a missing row reads as empty and is
    inserted, a missing cell reads as 0 and is inserted. *)
Definition matrix : Type := dict (dict Z).

(** The value of [m[u]]. *)
Definition row (m : matrix) (u : Z) : dict Z := get_default m u [].

(** The value of [m[u][v]]. *)
Definition cell (m : matrix) (u v : Z) : Z := get_default (row m u) v 0.

(** The table after [m[u]] has been evaluated. *)
Definition touch_row (m : matrix) (u : Z) : matrix := set m u (row m u).

(** The table after [m[u][v] = x]. *)
Definition store (m : matrix) (u v x : Z) : matrix :=
  set m u (set (row m u) v x).

(** The table after [m[u][v]] has been evaluated. *)
Definition touch (m : matrix) (u v : Z) : matrix := store m u v (cell m u v).

(* ================================================================= *)
(** ** class Graph *)

Record Graph : Type := mkGraph {
  V : Z;             (* self.V *)
  graph : matrix;    (* self.graph: capacities *)
  flow : matrix      (* self.flow *)
}.

(** [Graph(vertices)] *)
Definition new_graph (vertices : Z) : Graph := mkGraph vertices [] [].

Definition with_graph (g : Graph) (m : matrix) : Graph :=
  mkGraph (V g) m (flow g).
Definition with_flow (g : Graph) (m : matrix) : Graph :=
  mkGraph (V g) (graph g) m.

(** [self.graph[u][v] += capacity] *)
Definition add_edge (g : Graph) (u v capacity : Z) : Graph :=
  with_graph g (store (graph g) u v (cell (graph g) u v + capacity)).

(** [self.flow[u][v] = flow_value] *)
Definition set_flow (g : Graph) (u v flow_value : Z) : Graph :=
  with_flow g (store (flow g) u v flow_value).

(** [return self.flow[u][v]] *)
Definition get_flow (g : Graph) (u v : Z) : Z * Graph :=
  (cell (flow g) u v, with_flow g (touch (flow g) u v)).

(** [can_send_flow] *)
Definition can_send_flow (g : Graph) (u v flow_value : Z) : bool * Graph :=
  let capacity := cell (graph g) u v in
  let current_flow := cell (flow g) u v in
  (current_flow + flow_value <=? capacity,
   mkGraph (V g) (touch (graph g) u v) (touch (flow g) u v)).

(** [self.graph[u][v] - self.flow[u][v]], the quantity the search and the
    bottleneck computation both use. *)
Definition residual (g : Graph) (u v : Z) : Z :=
  cell (graph g) u v - cell (flow g) u v.

(* ----------------------------------------------------------------- *)
(** *** bfs_path_exists *)

(** The local state of the search together with the object it mutates. *)
Record bfs_state : Type := mkBfs {
  bfs_g : Graph;
  visited : list Z;
  queue : list Z;
  parent : dict Z
}.

(** The body of [for v in self.graph[u]], over the keys [vs] still to be
    seen.  [v] is a key of [self.graph[u]], so reading [self.graph[u][v]]
    inserts nothing; reading [self.flow[u][v]] may insert a zero.  The
    boolean is [true] when the loop left through [return True]. *)
Fixpoint bfs_scan (u sink : Z) (vs : list Z) (st : bfs_state)
  : bool * bfs_state :=
  match vs with
  | [] => (false, st)
  | v :: vs' =>
      let g := bfs_g st in
      let residual_capacity := residual g u v in
      let g' := with_flow g (touch (flow g) u v) in
      if negb (mem v (visited st)) && (0 <? residual_capacity) then
        let st' := mkBfs g' (v :: visited st) (queue st ++ [v])
                         (set (parent st) v u) in
        if v =? sink then (true, st') else bfs_scan u sink vs' st'
      else
        bfs_scan u sink vs' (mkBfs g' (visited st) (queue st) (parent st))
  end.

(** [while queue: ...] *)
Fixpoint bfs_loop (fuel : nat) (sink : Z) (st : bfs_state)
  : result (bool * bfs_state) :=
  match fuel with
  | O => Err OutOfFuel
  | S fuel' =>
      match queue st with
      | [] => Ok (false, st)
      | u :: rest =>
          let g := bfs_g st in
          let g' := with_graph g (touch_row (graph g) u) in
          let st1 := mkBfs g' (visited st) rest (parent st) in
          let '(found, st2) :=
            bfs_scan u sink (keys (row (graph g') u)) st1 in
          if found then Ok (true, st2) else bfs_loop fuel' sink st2
      end
  end.

(** Number of cells of a table. *)
Definition cells (m : matrix) : nat :=
  fold_right (fun ur n => (List.length (snd ur) + n)%nat) O m.

(** Every pass of the [while] loop removes one queue element, and a node
    enters the queue once, when it is first seen as a key of some row: the
    loop body runs at most once per cell, plus once for the source. *)
Definition bfs_fuel (g : Graph) : nat := S (S (cells (graph g))).

(** [bfs_path_exists(source, sink, parent)]: the answer, the graph object
    after the reads, and the caller's [parent] dictionary after the
    writes. *)
Definition bfs_path_exists (g : Graph) (source sink : Z) (parent0 : dict Z)
  : result (bool * Graph * dict Z) :=
  '(found, st) <- bfs_loop (bfs_fuel g) sink
                    (mkBfs g [source] [source] parent0) ;;
  Ok (found, bfs_g st, parent st).

(* ----------------------------------------------------------------- *)
(** *** ford_fulkerson_max_flow *)

(** [path_flow], which starts as [float('inf')]. *)
Inductive num : Type :=
| Inf
| Fin (z : Z).

(** [min(path_flow, r)] for an integer [r]. *)
Definition num_min (path_flow : num) (r : Z) : num :=
  match path_flow with
  | Inf => Fin r
  | Fin p => Fin (Z.min p r)
  end.

(** First inner loop: [while s != source: path_flow = min(...); s = parent[s]]. *)
Fixpoint path_min (fuel : nat) (g : Graph) (parent : dict Z)
    (source s : Z) (path_flow : num) : result (num * Graph) :=
  match fuel with
  | O => Err OutOfFuel
  | S fuel' =>
      if s =? source then Ok (path_flow, g)
      else
        match get parent s with
        | None => Err KeyError
        | Some p =>
            let r := residual g p s in
            let g' := mkGraph (V g) (touch (graph g) p s)
                              (touch (flow g) p s) in
            path_min fuel' g' parent source p (num_min path_flow r)
        end
  end.

(** [self.flow[u][v] += path_flow; self.flow[v][u] -= path_flow] *)
Definition push_flow (g : Graph) (u v path_flow : Z) : Graph :=
  let f1 := store (flow g) u v (cell (flow g) u v + path_flow) in
  let f2 := store f1 v u (cell f1 v u - path_flow) in
  with_flow g f2.

(** Second inner loop: the antisymmetric update along the path. *)
Fixpoint path_push (fuel : nat) (g : Graph) (parent : dict Z)
    (source v : Z) (path_flow : Z) : result Graph :=
  match fuel with
  | O => Err OutOfFuel
  | S fuel' =>
      if v =? source then Ok g
      else
        match get parent v with
        | None => Err KeyError
        | Some u =>
            path_push fuel' (push_flow g u v path_flow) parent source u path_flow
        end
  end.

(** A walk up the parent pointers visits every key at most once. *)
Definition path_fuel (parent : dict Z) : nat := S (List.length parent).

(** One pass of the outer [while]: the search with a fresh [parent], and
    when it succeeds the bottleneck and the update.  [inl g'] when the
    search failed (the loop ends), [inr (path_flow, g')] after an
    augmentation. *)
Definition augment (g : Graph) (source sink : Z)
  : result (Graph + Z * Graph) :=
  '(found, g1, parent) <- bfs_path_exists g source sink [] ;;
  if (found : bool) then
    '(path_flow, g2) <- path_min (path_fuel parent) g1 parent source sink Inf ;;
    match path_flow with
    | Inf => Err FloatInfinity
    | Fin pf =>
        g3 <- path_push (path_fuel parent) g2 parent source sink pf ;;
        Ok (inr (pf, g3))
    end
  else Ok (inl g1).

(** The outer [while], with [max_flow_value] as accumulator. *)
Fixpoint ff_loop (fuel : nat) (g : Graph) (source sink : Z)
    (max_flow_value : Z) : result (Z * Graph) :=
  match fuel with
  | O => Err OutOfFuel
  | S fuel' =>
      step <- augment g source sink ;;
      match step with
      | inl g' => Ok (max_flow_value, g')
      | inr (path_flow, g') =>
          ff_loop fuel' g' source sink (max_flow_value + path_flow)
      end
  end.

(** Total positive residual capacity on the cells of the source's row:
    every augmentation lowers it by the amount it pushes. *)
Definition source_slack (g : Graph) (source : Z) : Z :=
  sum (map (fun v => Z.max 0 (residual g source v))
           (keys (row (graph g) source))).

Definition ff_fuel (g : Graph) (source : Z) : nat :=
  S (Z.to_nat (source_slack g source)).

(** [ford_fulkerson_max_flow(source, sink)]: the returned value and the
    graph object as the call leaves it. *)
Definition ford_fulkerson_max_flow (g : Graph) (source sink : Z)
  : result (Z * Graph) :=
  ff_loop (ff_fuel g source) g source sink 0.

(* ----------------------------------------------------------------- *)
(** *** verify_maximum_flow *)

(** [for u in src: for v in src[u]: target.add_edge(u, v, src[u][v])] *)
Definition copy_structure (src : matrix) (target : Graph) : Graph :=
  fold_left
    (fun tg u =>
       fold_left (fun tg' v => add_edge tg' u v (cell src u v))
                 (keys (row src u)) tg)
    (keys src) target.

(** [for u in user_flow: for v in user_flow[u]: target.set_flow(u, v, ...)] *)
Definition copy_user_flow (user_flow : matrix) (target : Graph) : Graph :=
  fold_left
    (fun tg u =>
       fold_left (fun tg' v => set_flow tg' u v (cell user_flow u v))
                 (keys (row user_flow u)) tg)
    (keys user_flow) target.

(** The loop that computes [user_flow_value]. *)
Definition source_outflow (source : Z) (user_flow : matrix) : Z :=
  fold_left
    (fun acc u =>
       fold_left
         (fun acc' v =>
            if 0 <? cell user_flow u v then
              if u =? source then acc' + cell user_flow u v else acc'
            else acc')
         (keys (row user_flow u)) acc)
    (keys user_flow) 0.

(** [sum(user_flow[u].get(node, 0) for u in user_flow)] *)
Definition inflow (user_flow : matrix) (node : Z) : Z :=
  sum (map (fun u => get_default (row user_flow u) node 0) (keys user_flow)).

(** [sum(user_flow[node].get(v, 0) for v in range(self.V))]; the caller's
    table is a [defaultdict], so [user_flow[node]] inserts an empty row for
    a node that has none. *)
Definition outflow (vertices : Z) (user_flow : matrix) (node : Z) : Z :=
  sum (map (fun v => get_default (row user_flow node) v 0) (range vertices)).

(** The conservation loop over [nodes], the part of [range(self.V)] still
    to be checked: [false] when it leaves through the early return. *)
Fixpoint conservation_loop (vertices source sink : Z) (nodes : list Z)
    (user_flow : matrix) : bool :=
  match nodes with
  | [] => true
  | node :: rest =>
      if negb (node =? source) && negb (node =? sink) then
        let inflow_ := inflow user_flow node in
        let outflow_ := outflow vertices user_flow node in
        let user_flow' := touch_row user_flow node in
        if inflow_ =? outflow_
        then conservation_loop vertices source sink rest user_flow'
        else false
      else conservation_loop vertices source sink rest user_flow
  end.

(** The graph the reference answer is computed on. *)
Definition test_graph_flow_only (self : Graph) : Graph :=
  copy_structure (graph self) (new_graph (V self)).

(** [verify_maximum_flow(source, sink, user_flow)] returns
    [(is_valid, user_flow_value, actual_max_flow)]. *)
Definition verify_maximum_flow (self : Graph) (source sink : Z)
    (user_flow : matrix) : result (bool * Z * Z) :=
  let test_graph :=
    copy_user_flow user_flow (copy_structure (graph self) (new_graph (V self))) in
  '(actual_max_flow, _) <-
     ford_fulkerson_max_flow (test_graph_flow_only self) source sink ;;
  let user_flow_value := source_outflow source user_flow in
  if conservation_loop (V self) source sink (range (V self)) user_flow
  then Ok (user_flow_value =? actual_max_flow, user_flow_value, actual_max_flow)
  else Ok (false, 0, actual_max_flow).

(* ================================================================= *)
(** ** The request layer around the verifier *)

Record Edge : Type := mkEdge {
  e_from : Z;
  e_to : Z;
  e_capacity : Z
}.

Record Level : Type := mkLevel {
  l_id : Z;
  l_nodes : Z;
  l_edges : list Edge;
  l_source : Z;
  l_sink : Z
}.

(** The table [LEVELS] (names and descriptions left out). *)
Definition LEVELS : list Level :=
  [ mkLevel 1 4
      [mkEdge 0 1 10; mkEdge 1 2 5; mkEdge 2 3 15] 0 3;
    mkLevel 2 4
      [mkEdge 0 1 10; mkEdge 0 2 10; mkEdge 1 3 10; mkEdge 2 3 10] 0 3;
    mkLevel 3 5
      [mkEdge 0 1 16; mkEdge 0 2 12; mkEdge 1 2 9; mkEdge 1 3 12;
       mkEdge 2 1 3; mkEdge 2 4 20; mkEdge 3 2 7; mkEdge 3 4 7;
       mkEdge 4 3 4] 0 4;
    mkLevel 4 6
      [mkEdge 0 1 10; mkEdge 0 2 10; mkEdge 1 3 4; mkEdge 1 4 8;
       mkEdge 2 4 9; mkEdge 3 5 10; mkEdge 4 3 6; mkEdge 4 5 10;
       mkEdge 5 2 2] 0 5;
    mkLevel 5 7
      [mkEdge 0 1 9; mkEdge 0 2 5; mkEdge 1 3 4; mkEdge 1 4 8;
       mkEdge 2 1 4; mkEdge 2 5 8; mkEdge 3 6 10; mkEdge 4 3 3;
       mkEdge 4 5 4; mkEdge 5 4 2; mkEdge 5 6 10; mkEdge 6 4 2] 0 6 ].

(** [graph = Graph(nodes); for edge in edges: graph.add_edge(...)] *)
Definition build_graph (nodes : Z) (edges : list Edge) : Graph :=
  fold_left (fun g e => add_edge g (e_from e) (e_to e) (e_capacity e))
            edges (new_graph nodes).

(** [user_flow_dict[u][v] = flow_value] for every supplied flow, given
    as the pairs that the keys ["u-v"] of the request convert to. *)
Definition build_user_flow (flows : list (Z * Z * Z)) : matrix :=
  fold_left (fun m f => let '(u, v, x) := f in store m u v x) flows [].

(** [data.get('level_id')]: the string ['custom'], a value equal to the
    integer [n], or anything else (a missing key, [null], another string,
    a number equal to no integer). *)
Inductive level_ref : Type :=
| Custom
| Numbered (n : Z)
| Unmatched.

(** A level as the handler reads it, a JSON object seen through the keys
    the handler looks up: each of them may be missing.  The values are
    taken with the types the handler expects, integers and a list of
    edge objects. *)
Record json_edge : Type := mkJsonEdge {
  j_from : option Z;       (* edge['from'] *)
  j_to : option Z;         (* edge['to'] *)
  j_capacity : option Z    (* edge['capacity'] *)
}.

Record json_level : Type := mkJsonLevel {
  j_nodes : option Z;                  (* level['nodes'] *)
  j_edges : option (list json_edge);   (* level['edges'] *)
  j_source : option Z;                 (* level['source'] *)
  j_sink : option Z                    (* level['sink'] *)
}.

(** The dictionaries of [LEVELS], which carry every key. *)
Definition json_of_edge (e : Edge) : json_edge :=
  mkJsonEdge (Some (e_from e)) (Some (e_to e)) (Some (e_capacity e)).
Definition json_of_level (l : Level) : json_level :=
  mkJsonLevel (Some (l_nodes l)) (Some (map json_of_edge (l_edges l)))
              (Some (l_source l)) (Some (l_sink l)).

(** The JSON body of a request to [/api/verify]: [flows] are the items of
    [data.get('flows', {})], keys as sent, in order; [level_data] is
    [None] when [data.get('level_data')] is missing, [null] or empty, and
    otherwise the non-empty object that was sent. *)
Record request : Type := mkRequest {
  level_id : level_ref;
  flows : list (string * Z);
  level_data : option json_level
}.

(** The exceptions that can escape the handler. *)
Inductive exception : Type :=
| RaisedKeyError
| RaisedValueError
| RaisedByEngine (e : error).

Inductive outcome (A : Type) : Type :=
| Done (a : A)
| Raised (x : exception).
Arguments Done {A} a.
Arguments Raised {A} x.

(** What [/api/verify] answers: an error with its HTTP status, or the
    verdict (the message text is derived from it).  [Failure] stands for
    an exception escaping the handler. *)
Inductive response : Type :=
| ErrorResponse (status : Z) (message : string)
| Verdict (is_valid : bool) (user_flow : Z) (max_flow : Z)
| Failure (x : exception).

(** [next((l for l in LEVELS if l['id'] == level_id), None)] *)
Definition find_level (n : Z) : option Level :=
  find (fun l => l_id l =? n) LEVELS.

(** [s.split(sep)] for a one-character separator: the pieces between the
    occurrences of [sep], at least one piece. *)
Fixpoint str_split (sep : ascii) (s : string) : list string :=
  match s with
  | EmptyString => [EmptyString]
  | String c rest =>
      if Ascii.eqb c sep then EmptyString :: str_split sep rest
      else
        match str_split sep rest with
        | part :: parts => String c part :: parts
        | [] => [String c EmptyString]
        end
  end.

(** [for edge in level['edges']: graph.add_edge(edge['from'], edge['to'],
    edge['capacity'])]: a missing key raises [KeyError]. *)
Fixpoint add_json_edges (g : Graph) (edges : list json_edge) : outcome Graph :=
  match edges with
  | [] => Done g
  | edge :: rest =>
      match j_from edge, j_to edge, j_capacity edge with
      | Some u, Some v, Some capacity =>
          add_json_edges (add_edge g u v capacity) rest
      | _, _, _ => Raised RaisedKeyError
      end
  end.

(** The loop that fills [user_flow_dict].  [py_int] stands for Python's
    built-in [int] on strings, [None] when it raises [ValueError]; nothing
    is assumed about it.  A key that does not split into exactly two parts
    is skipped. *)
Fixpoint convert_flows (py_int : string -> option Z)
    (user_flows : list (string * Z)) (user_flow_dict : matrix)
  : outcome matrix :=
  match user_flows with
  | [] => Done user_flow_dict
  | (flow_id, flow_value) :: rest =>
      match str_split "-" flow_id with
      | [part0; part1] =>
          match py_int part0 with
          | None => Raised RaisedValueError
          | Some u =>
              match py_int part1 with
              | None => Raised RaisedValueError
              | Some v =>
                  convert_flows py_int rest (store user_flow_dict u v flow_value)
              end
          end
      | _ => convert_flows py_int rest user_flow_dict
      end
  end.

(** The handler from "Build the graph" on, for the level it has found. *)
Definition verify_level (py_int : string -> option Z) (level : json_level)
    (user_flows : list (string * Z)) : response :=
  match j_nodes level with
  | None => Failure RaisedKeyError
  | Some nodes =>
      match j_edges level with
      | None => Failure RaisedKeyError
      | Some edges =>
          match add_json_edges (new_graph nodes) edges with
          | Raised x => Failure x
          | Done g =>
              match convert_flows py_int user_flows [] with
              | Raised x => Failure x
              | Done user_flow_dict =>
                  match j_source level, j_sink level with
                  | Some source, Some sink =>
                      match verify_maximum_flow g source sink user_flow_dict with
                      | Ok (is_valid, user_flow_value, actual_max_flow) =>
                          Verdict is_valid user_flow_value actual_max_flow
                      | Err e => Failure (RaisedByEngine e)
                      end
                  | _, _ => Failure RaisedKeyError
                  end
              end
          end
      end
  end.

(** [verify_flow()], the handler of [/api/verify]. *)
Definition verify_flow (py_int : string -> option Z) (data : request)
  : response :=
  match level_id data with
  | Custom =>
      match level_data data with
      | None => ErrorResponse 400 "Custom level data required"
      | Some custom_level => verify_level py_int custom_level (flows data)
      end
  | Numbered n =>
      match find_level n with
      | None => ErrorResponse 404 "Level not found"
      | Some level => verify_level py_int (json_of_level level) (flows data)
      end
  | Unmatched => ErrorResponse 404 "Level not found"
  end.

(** A reader of plain decimal numerals, the strings of ASCII digits, on
    which [int] returns the number they write.  It is used where a
    concrete reader is needed to run the handler. *)
Definition digit (c : ascii) : option Z :=
  let n := Z.of_nat (nat_of_ascii c) in
  if (48 <=? n) && (n <=? 57) then Some (n - 48) else None.

Fixpoint decimal_from (acc : Z) (s : string) : option Z :=
  match s with
  | EmptyString => Some acc
  | String c rest =>
      match digit c with
      | Some d => decimal_from (10 * acc + d) rest
      | None => None
      end
  end.

Definition decimal (s : string) : option Z :=
  match s with
  | EmptyString => None
  | _ => decimal_from 0 s
  end.

(* ================================================================= *)
(** ** Vocabulary of the specification *)

(** The definitions of this part follow the words of the specification
    (its sections 3, 4.3 and its glossary), not the code; the theorems
    compare them with the code above. *)

(** The flow matrix as a mapping from ordered pairs to values, absent
    pairs reading 0 and nothing being inserted. *)
Definition flow_value (g : Graph) (u v : Z) : Z := cell (flow g) u v.

(** Antisymmetry of the flow matrix on every ordered pair. *)
Definition antisymmetric (g : Graph) : Prop :=
  forall u v, flow_value g v u = - flow_value g u v.

(** The states the engine goes through: [augments source sink g g'] when
    [g'] is [g] after some number of augmentations. *)
Inductive augments (source sink : Z) : Graph -> Graph -> Prop :=
| augments_refl g : augments source sink g g
| augments_step g g1 g2 path_flow :
    augments source sink g g1 ->
    augment g1 source sink = Ok (inr (path_flow, g2)) ->
    augments source sink g g2.

(** An augmenting path: a path from [source] to [sink] with strictly
    positive residual capacity on every edge. *)
Fixpoint positive_residuals (g : Graph) (path : list Z) : bool :=
  match path with
  | u :: (v :: _) as rest => (0 <? residual g u v) && positive_residuals g rest
  | _ => true
  end.

Definition spec_augmenting_path (g : Graph) (source sink : Z) (path : list Z)
  : bool :=
  match path with
  | [] => false
  | first :: _ =>
      (first =? source) && (last path first =? sink) && positive_residuals g path
  end.

(** Cuts of a network given by its edge list: a side [S] of the nodes
    holding the source and not the sink, and the total capacity of the
    edges that leave it. *)
Fixpoint subsets (l : list Z) : list (list Z) :=
  match l with
  | [] => [[]]
  | x :: l' => map (cons x) (subsets l') ++ subsets l'
  end.

Definition cut_capacity (edges : list Edge) (side : list Z) : Z :=
  sum (map e_capacity
           (filter (fun e => mem (e_from e) side && negb (mem (e_to e) side))
                   edges)).

Definition cuts (nodes source sink : Z) : list (list Z) :=
  filter (fun side => mem source side && negb (mem sink side))
         (subsets (range nodes)).

(** [spec_is_min_cut nodes edges source sink c]: [c] is the capacity of a
    minimum cut separating [source] from [sink]. *)
Definition spec_is_min_cut (nodes : Z) (edges : list Edge) (source sink c : Z)
  : Prop :=
  (exists side, In side (cuts nodes source sink) /\ cut_capacity edges side = c)
  /\ (forall side, In side (cuts nodes source sink) ->
                   c <= cut_capacity edges side).

(** A flow assignment [f] on the edge list that respects capacities and
    conserves flow, and the value that leaves the source. *)
Definition edge_flow := list (Edge * Z).

Definition flow_into (f : edge_flow) (node : Z) : Z :=
  sum (map snd (filter (fun ex => e_to (fst ex) =? node) f)).
Definition flow_out_of (f : edge_flow) (node : Z) : Z :=
  sum (map snd (filter (fun ex => e_from (fst ex) =? node) f)).

Definition spec_feasible (nodes source sink : Z) (f : edge_flow) : bool :=
  forallb (fun ex => (0 <=? snd ex) && (snd ex <=? e_capacity (fst ex))) f
  && forallb (fun node => (node =? source) || (node =? sink)
                          || (flow_into f node =? flow_out_of f node))
             (range nodes).

Definition spec_flow_value_of (source : Z) (f : edge_flow) : Z :=
  flow_out_of f source - flow_into f source.

(** The entries present in a caller-supplied flow mapping. *)
Definition entries (m : matrix) : list (Z * Z * Z) :=
  flat_map (fun ur => map (fun vx => (fst ur, fst vx, snd vx)) (snd ur)) m.

Definition entry_tail (e : Z * Z * Z) : Z := fst (fst e).
Definition entry_head (e : Z * Z * Z) : Z := snd (fst e).
Definition entry_value (e : Z * Z * Z) : Z := snd e.

(** Inflow: the sum of supplied flow values on entries ending at the node;
    outflow: on entries starting at the node. *)
Definition spec_inflow (m : matrix) (node : Z) : Z :=
  sum (map entry_value (filter (fun e => entry_head e =? node) (entries m))).
Definition spec_outflow (m : matrix) (node : Z) : Z :=
  sum (map entry_value (filter (fun e => entry_tail e =? node) (entries m))).

(** Conservation at every node other than source and sink. *)
Definition spec_conserved (vertices source sink : Z) (m : matrix) : Prop :=
  forall node, 0 <= node < vertices -> node <> source -> node <> sink ->
               spec_inflow m node = spec_outflow m node.

(** Outflow towards the nodes of the graph: the sum of the supplied values
    on the entries that start at the node and end at a node of
    [[0, vertices)]. *)
Definition spec_outflow_within (vertices : Z) (m : matrix) (node : Z) : Z :=
  sum (map entry_value
           (filter (fun e => (entry_tail e =? node)
                             && ((0 <=? entry_head e) && (entry_head e <? vertices)))
                   (entries m))).

(** Conservation as the code checks it: at every node other than source
    and sink, inflow equals the outflow towards the nodes of the graph. *)
Definition conserved_within (vertices source sink : Z) (m : matrix) : Prop :=
  forall node, 0 <= node < vertices -> node <> source -> node <> sink ->
               spec_inflow m node = spec_outflow_within vertices m node.

(** The user's flow value: the sum of all positive supplied entries whose
    tail is the source. *)
Definition spec_user_flow_value (source : Z) (m : matrix) : Z :=
  sum (map entry_value
           (filter (fun e => (entry_tail e =? source) && (0 <? entry_value e))
                   (entries m))).

(** A table is a well-formed dictionary of dictionaries when no key occurs
    twice, at either level. *)
Fixpoint distinct (l : list Z) : bool :=
  match l with
  | [] => true
  | x :: l' => negb (mem x l') && distinct l'
  end.

Definition well_formed (m : matrix) : bool :=
  distinct (keys m) && forallb (fun ur => distinct (keys (snd ur))) m.

(** Every supplied entry ends at a node of the graph. *)
Definition heads_in_range (vertices : Z) (m : matrix) : bool :=
  forallb (fun e => (0 <=? entry_head e) && (entry_head e <? vertices))
          (entries m).

(** Sum of the capacities of the edges that leave the source. *)
Definition source_capacity (edges : list Edge) (source : Z) : Z :=
  sum (map e_capacity (filter (fun e => e_from e =? source) edges)).

(** Whether the handler answered with an input error. *)
Definition rejected (r : response) : bool :=
  match r with
  | ErrorResponse _ _ => true
  | _ => false
  end.

(** An edge the graph construction is not meant to accept. *)
Definition malformed_edge (nodes : Z) (e : Edge) : bool :=
  negb ((0 <=? e_from e) && (e_from e <? nodes)
        && (0 <=? e_to e) && (e_to e <? nodes))
  || (e_capacity e <? 0).

(* ================================================================= *)
(** ** Concrete networks *)

(** Level 1 of [LEVELS]: the chain 0 -> 1 -> 2 -> 3. *)
Definition chain_edges : list Edge :=
  [mkEdge 0 1 10; mkEdge 1 2 5; mkEdge 2 3 15].
Definition chain : Graph := build_graph 4 chain_edges.

(** Level 2 of [LEVELS]: the diamond. *)
Definition diamond_edges : list Edge :=
  [mkEdge 0 1 10; mkEdge 0 2 10; mkEdge 1 3 10; mkEdge 2 3 10].
Definition diamond : Graph := build_graph 4 diamond_edges.

(** A flow on the diamond that sends 20 units through node 1 alone, twice
    the capacity of the edges it uses. *)
Definition overloaded_flow : matrix := build_user_flow [(0, 1, 20); (1, 3, 20)].

(** Three units along the chain, and two more on the pair (0, 3), which is
    not an edge of the chain. *)
Definition phantom_flow : matrix :=
  build_user_flow [(0, 1, 3); (1, 2, 3); (2, 3, 3); (0, 3, 2)].
Definition chain_flow_3 : matrix :=
  build_user_flow [(0, 1, 3); (1, 2, 3); (2, 3, 3)].

(** Five units enter node 1 of the chain and three leave it. *)
Definition leaking_flow : matrix :=
  build_user_flow [(0, 1, 5); (1, 2, 3); (2, 3, 5)].

(** Five conserved units along the chain, and seven more on the pair
    (1, 9), whose head is no node of the four-node chain. *)
Definition stray_flow : matrix :=
  build_user_flow [(0, 1, 5); (1, 2, 5); (2, 3, 5); (1, 9, 7)].

(** Six nodes, unit capacities.  The shortest path 0 -> 1 -> 2 -> 5 uses
    the edge 1 -> 2; the two disjoint paths 0 -> 1 -> 3 -> 5 and
    0 -> 4 -> 2 -> 5 do not. *)
Definition detour_edges : list Edge :=
  [mkEdge 0 1 1; mkEdge 1 2 1; mkEdge 2 5 1; mkEdge 1 3 1; mkEdge 3 5 1;
   mkEdge 0 4 1; mkEdge 4 2 1].
Definition detour : Graph := build_graph 6 detour_edges.

(** The detour network after the first augmentation of the engine. *)
Definition detour_after_first_push : Graph :=
  Eval vm_compute in
    match augment detour 0 5 with
    | Ok (inr (_, g)) => g
    | _ => detour
    end.

(** One unit on each of the two disjoint paths of the detour network. *)
Definition detour_two_units : edge_flow :=
  [(mkEdge 0 1 1, 1); (mkEdge 1 2 1, 0); (mkEdge 2 5 1, 1); (mkEdge 1 3 1, 1);
   (mkEdge 3 5 1, 1); (mkEdge 0 4 1, 1); (mkEdge 4 2 1, 1)].

(** A custom level whose only edge has both endpoints outside [0, 2) and a
    negative capacity. *)
Definition malformed_level : Level := mkLevel 0 2 [mkEdge 5 7 (-3)] 0 1.
Definition malformed_request : request :=
  mkRequest Custom [] (Some (json_of_level malformed_level)).

(** A supplied flow whose key splits at its one ["-"] into two parts that
    [py_int] reads as the tail and the head of the triple. *)
Definition reads_as (py_int : string -> option Z) (supplied : string * Z)
    (f : Z * Z * Z) : Prop :=
  exists part0 part1,
    str_split "-" (fst supplied) = [part0; part1]
    /\ py_int part0 = Some (entry_tail f)
    /\ py_int part1 = Some (entry_head f)
    /\ snd supplied = entry_value f.

(* ================================================================= *)
(** ** Notions used in the proofs *)

(** Two graph objects that differ only by entries a [defaultdict] read
    inserted: same node count, same rows of capacities, same flow on every
    pair. *)
Definition same_tables (g g0 : Graph) : Prop :=
  V g = V g0
  /\ (forall u, row (graph g) u = row (graph g0) u)
  /\ (forall u v, cell (flow g) u v = cell (flow g0) u v).

(** [climbs p source v es]: following the parent pointers [p] from [v]
    reaches [source] along the edges [es], listed from [v] backwards. *)
Inductive climbs (p : dict Z) (source : Z) : Z -> list (Z * Z) -> Prop :=
| climbs_source : climbs p source source []
| climbs_parent v u es :
    v <> source -> get p v = Some u -> climbs p source u es ->
    climbs p source v ((u, v) :: es).

(** What the search maintains, relative to the graph [g0] it started on. *)
Record bfs_inv (g0 : Graph) (source : Z) (st : bfs_state) : Prop := {
  inv_tables : same_tables (bfs_g st) g0;
  inv_source : In source (visited st);
  inv_queue : forall w, In w (queue st) -> In w (visited st);
  inv_climbs : forall w, In w (visited st) ->
      exists es, climbs (parent st) source w es
                 /\ (List.length es <= List.length (parent st))%nat;
  inv_parent : forall v u, get (parent st) v = Some u ->
      v <> source /\ In v (visited st)
      /\ In v (keys (row (graph g0) u)) /\ 0 < residual g0 u v
}.

(** Cells whose column has not been visited yet, and the quantity that
    decreases at every pass of the search loop. *)
Definition unseen (m : matrix) (vis : list Z) : nat :=
  fold_right
    (fun ur n =>
       (List.length (filter (fun v => negb (mem v vis)) (keys (snd ur))) + n)%nat)
    O m.

Definition potential (st : bfs_state) : nat :=
  (List.length (queue st) + unseen (graph (bfs_g st)) (visited st))%nat.

(** The bottleneck and the update along a list of edges. *)
Definition min_along (g : Graph) (es : list (Z * Z)) (acc : num) : num :=
  fold_left (fun a e => num_min a (residual g (fst e) (snd e))) es acc.

Definition push_along (g : Graph) (es : list (Z * Z)) (pf : Z) : Graph :=
  fold_left (fun g' e => push_flow g' (fst e) (snd e) pf) es g.

(** What the construction loop maintains on the row of [s]: no flow, no
    repeated key, no negative capacity, and the capacities seen so far. *)
Definition built_row (s c : Z) (g : Graph) : Prop :=
  flow g = []
  /\ NoDup (keys (row (graph g) s))
  /\ Forall (fun kv => 0 <= snd kv) (row (graph g) s)
  /\ sum (map snd (row (graph g) s)) = c.

(** The entries of a table in the order the nested [for] loops of the
    verifier meet them. *)
Definition items (m : matrix) : list (Z * Z * Z) :=
  flat_map (fun u => map (fun v => (u, v, cell m u v)) (keys (row m u)))
           (keys m).

(** The conservation test of the verifier at one node. *)
Definition balanced (vertices source sink : Z) (m : matrix) (node : Z) : bool :=
  (node =? source) || (node =? sink)
  || (inflow m node =? outflow vertices m node).

(* ================================================================= *)
(** ** The rest of the request layer *)

(** What [/api/level/<id>] answers: the level, or an error with its HTTP
    status. *)
Inductive level_response : Type :=
| LevelFound (level : Level)
| LevelError (status : Z) (message : string).

(** [get_level(level_id)] *)
Definition get_level (n : Z) : level_response :=
  match find_level n with
  | None => LevelError 404 "Level not found"
  | Some level => LevelFound level
  end.

(* ================================================================= *)
(** ** Notions used for the further properties *)

(** The graph the search really explores: from [u] it looks at the keys of
    [self.graph[u]] only, and follows those of positive residual capacity.
    [keyed_path g source v]: [v] can be reached from [source] that way. *)
Inductive keyed_path (g : Graph) (source : Z) : Z -> Prop :=
| keyed_here : keyed_path g source source
| keyed_step u v :
    keyed_path g source u ->
    In v (keys (row (graph g) u)) -> 0 < residual g u v ->
    keyed_path g source v.

(** Every edge out of [w] that the search would follow leads into [vis]. *)
Definition closed_at (g0 : Graph) (vis : list Z) (w : Z) : Prop :=
  forall v, In v (keys (row (graph g0) w)) -> 0 < residual g0 w v -> In v vis.

(** What holds between two passes of the search loop while the sink has
    not been reached. *)
Definition bfs_front (g0 : Graph) (source sink : Z) (st : bfs_state) : Prop :=
  (In sink (visited st) -> sink = source)
  /\ forall w, In w (visited st) ->
                In w (queue st) \/ closed_at g0 (visited st) w.

(** What holds inside the scan of the row of [u], after the keys [done]. *)
Definition scan_front (g0 : Graph) (source sink u : Z) (done : list Z)
    (st : bfs_state) : Prop :=
  (In sink (visited st) -> sink = source)
  /\ (forall w, In w (visited st) ->
                 w = u \/ In w (queue st) \/ closed_at g0 (visited st) w)
  /\ (forall v, In v done -> 0 < residual g0 u v -> In v (visited st)).

(** Number of times the edge [(a, b)] occurs in a list of edges. *)
Definition occ (a b : Z) (es : list (Z * Z)) : Z :=
  sum (map (fun e => if (fst e =? a) && (snd e =? b) then 1 else 0) es).

(** Number of edges of a list that leave, and that enter, the node [n]. *)
Definition leaving (n : Z) (es : list (Z * Z)) : Z :=
  sum (map (fun e => if fst e =? n then 1 else 0) es).
Definition entering (n : Z) (es : list (Z * Z)) : Z :=
  sum (map (fun e => if snd e =? n then 1 else 0) es).

(** The flow on every ordered pair is at most the capacity of the pair. *)
Definition within_capacity (g : Graph) : Prop :=
  forall u v, flow_value g u v <= cell (graph g) u v.

(** Net flow out of [n], summed over the nodes of a list. *)
Definition net_out (g : Graph) (nodes : list Z) (n : Z) : Z :=
  sum (map (fun v => flow_value g n v) nodes).

(** A list of nodes without repetition that holds the source and every
    node that occurs as a key of a row of capacities. *)
Definition covers (nodes : list Z) (g : Graph) (source : Z) : Prop :=
  NoDup nodes /\ In source nodes
  /\ forall u v, In v (keys (row (graph g) u)) -> In v nodes.

(** Sum of [h u v] over all ordered pairs of nodes of a list. *)
Definition dsum (h : Z -> Z -> Z) (nodes : list Z) : Z :=
  sum (map (fun u => sum (map (fun v => h u v) nodes)) nodes).

(** 1 on the nodes of a side, 0 elsewhere. *)
Definition on_side (side : list Z) (u : Z) : Z := if mem u side then 1 else 0.

(** Whether [c] is the capacity of a minimum cut, by enumeration. *)
Definition min_cutb (nodes : Z) (edges : list Edge) (source sink c : Z) : bool :=
  existsb (fun side => cut_capacity edges side =? c) (cuts nodes source sink)
  && forallb (fun side => c <=? cut_capacity edges side) (cuts nodes source sink).

(** The edges of the detour network with the two edges out of node 1 added
    in the other order. *)
Definition detour_edges_reordered : list Edge :=
  [mkEdge 0 1 1; mkEdge 1 3 1; mkEdge 2 5 1; mkEdge 1 2 1; mkEdge 3 5 1;
   mkEdge 0 4 1; mkEdge 4 2 1].

(** Every key of a capacity row has its reverse as a key too. *)
Definition symmetric_keys (g : Graph) : Prop :=
  forall u v, In v (keys (row (graph g) u)) -> In u (keys (row (graph g) v)).

(** The flow is zero on every pair that is a key in neither direction. *)
Definition flow_on_keys (g : Graph) : Prop :=
  forall u v,
    ~ In v (keys (row (graph g) u)) -> ~ In u (keys (row (graph g) v)) ->
    flow_value g u v = 0.

(** Every edge of the list comes with an edge on the reverse pair. *)
Definition reverse_edges (edges : list Edge) : Prop :=
  forall e, In e edges ->
            exists e', In e' edges /\ e_from e' = e_to e /\ e_to e' = e_from e.

(** A set of nodes the failed search leaves behind: it holds the source,
    not the sink, and no edge the search would follow leaves it. *)
Definition search_closed (g : Graph) (source sink : Z) (vis : list Z) : Prop :=
  In source vis /\ (In sink vis -> sink = source)
  /\ forall w, In w vis -> closed_at g vis w.

(** The chain with a zero-capacity edge added on the reverse of each. *)
Definition chain_both_ways : list Edge :=
  [mkEdge 0 1 10; mkEdge 1 0 0; mkEdge 1 2 5; mkEdge 2 1 0;
   mkEdge 2 3 15; mkEdge 3 2 0].

(* ================================================================= *)
(** * Properties *)

(** ** Dictionaries *)

Section DictFacts.
Context {A : Type}.
Implicit Types (d : dict A) (k : Z) (a : A).

Lemma get_set_same d k a : get (set d k a) k = Some a.
Proof.
  induction d as [|[k' a'] d IH]; simpl.
  - now rewrite Z.eqb_refl.
  - destruct (k =? k') eqn:E; simpl; rewrite E; auto.
Qed.

Lemma get_set_other d k k' a : k' <> k -> get (set d k a) k' = get d k'.
Proof.
  intros Hne. induction d as [|[k0 a0] d IH]; simpl.
  - destruct (k' =? k) eqn:E; auto. apply Z.eqb_eq in E. contradiction.
  - destruct (k =? k0) eqn:E; simpl.
    + apply Z.eqb_eq in E. subst k0.
      destruct (k' =? k) eqn:E'; auto. apply Z.eqb_eq in E'. contradiction.
    + now rewrite IH.
Qed.

Lemma set_present d k a : get d k = Some a -> set d k a = d.
Proof.
  induction d as [|[k' a'] d IH]; simpl; [discriminate|].
  destruct (k =? k') eqn:E; intros H.
  - now inversion H.
  - now rewrite IH.
Qed.

Lemma set_absent d k a : get d k = None -> set d k a = d ++ [(k, a)].
Proof.
  induction d as [|[k' a'] d IH]; simpl; auto.
  destruct (k =? k'); [discriminate|]. intros H. now rewrite IH.
Qed.

Lemma get_in d k a : get d k = Some a -> In (k, a) d.
Proof.
  induction d as [|[k' a'] d IH]; simpl; [discriminate|].
  destruct (k =? k') eqn:E; intros H.
  - apply Z.eqb_eq in E. inversion H. subst. now left.
  - right. auto.
Qed.

Lemma get_none_keys d k : get d k = None <-> ~ In k (keys d).
Proof.
  induction d as [|[k' a'] d IH]; simpl.
  - tauto.
  - destruct (k =? k') eqn:E.
    + apply Z.eqb_eq in E. subst. split; [discriminate|]. intros H. exfalso. auto.
    + apply Z.eqb_neq in E. rewrite IH. split; intros H.
      * intros [H'|H']; [congruence | contradiction].
      * intros H'. apply H. now right.
Qed.

Lemma keys_get d k : In k (keys d) -> exists a, get d k = Some a.
Proof.
  intros H. destruct (get d k) eqn:E; eauto.
  apply get_none_keys in E. contradiction.
Qed.

Lemma keys_set_present d k a a' :
  get d k = Some a' -> keys (set d k a) = keys d.
Proof.
  induction d as [|[k0 a0] d IH]; simpl; [discriminate|].
  destruct (k =? k0) eqn:E; simpl; auto.
  intros H. now rewrite IH.
Qed.

Lemma length_set_absent d k a :
  get d k = None -> List.length (set d k a) = S (List.length d).
Proof.
  intros H. rewrite set_absent by assumption.
  rewrite length_app. simpl. lia.
Qed.
End DictFacts.

Lemma mem_in k s : mem k s = true <-> In k s.
Proof.
  unfold mem. rewrite existsb_exists. split.
  - intros (x & Hx & E). apply Z.eqb_eq in E. now subst.
  - intros H. exists k. split; auto. apply Z.eqb_refl.
Qed.

Lemma mem_not_in k s : mem k s = false <-> ~ In k s.
Proof.
  rewrite <- mem_in. destruct (mem k s); split; congruence.
Qed.

Lemma in_range n k : In k (range n) <-> 0 <= k < n.
Proof.
  unfold range. rewrite in_map_iff. split.
  - intros (i & <- & Hi). apply in_seq in Hi. lia.
  - intros H. exists (Z.to_nat k). split; [lia|]. apply in_seq. lia.
Qed.

Lemma sum_app l1 l2 : sum (l1 ++ l2) = sum l1 + sum l2.
Proof.
  unfold sum. induction l1; simpl; lia.
Qed.

(** ** Tables *)

Lemma row_store_same m u v x : row (store m u v x) u = set (row m u) v x.
Proof.
  unfold row, store, get_default. now rewrite get_set_same.
Qed.

Lemma row_store_other m u v x u' : u' <> u -> row (store m u v x) u' = row m u'.
Proof.
  intros H. unfold row, store, get_default. now rewrite get_set_other.
Qed.

Lemma cell_store m u v x a b :
  cell (store m u v x) a b = if (a =? u) && (b =? v) then x else cell m a b.
Proof.
  unfold cell. destruct (a =? u) eqn:Ea; simpl.
  - apply Z.eqb_eq in Ea. subst a. rewrite row_store_same.
    unfold get_default. destruct (b =? v) eqn:Eb.
    + apply Z.eqb_eq in Eb. subst b. now rewrite get_set_same.
    + apply Z.eqb_neq in Eb. now rewrite get_set_other.
  - apply Z.eqb_neq in Ea. now rewrite row_store_other.
Qed.

Lemma cell_touch m u v a b : cell (touch m u v) a b = cell m a b.
Proof.
  unfold touch. rewrite cell_store.
  destruct (a =? u) eqn:Ea; destruct (b =? v) eqn:Eb; simpl; auto.
  apply Z.eqb_eq in Ea, Eb. now subst.
Qed.

Lemma row_touch_row m u a : row (touch_row m u) a = row m a.
Proof.
  unfold touch_row. destruct (Z.eq_dec a u) as [->|Hne].
  - unfold row at 1. unfold get_default. now rewrite get_set_same.
  - unfold row at 1 3. unfold get_default. now rewrite get_set_other.
Qed.

Lemma touch_row_cases m u :
  touch_row m u = m \/ (get m u = None /\ touch_row m u = m ++ [(u, [])]).
Proof.
  unfold touch_row, row, get_default. destruct (get m u) eqn:E.
  - left. now apply set_present.
  - right. split; [reflexivity|]. now apply set_absent.
Qed.

Lemma touch_present m u v :
  In v (keys (row m u)) -> touch m u v = m.
Proof.
  intros H. unfold touch, store, cell, get_default.
  destruct (keys_get _ _ H) as [x Hx]. rewrite Hx.
  rewrite (set_present _ _ _ Hx).
  unfold row, get_default in *. destruct (get m u) eqn:E.
  - now apply set_present.
  - simpl in H. contradiction.
Qed.

(** ** Graph objects up to inserted defaults *)

Lemma same_tables_refl g : same_tables g g.
Proof. repeat split. Qed.

Lemma same_tables_trans g1 g2 g3 :
  same_tables g1 g2 -> same_tables g2 g3 -> same_tables g1 g3.
Proof.
  intros (HV & Hr & Hc) (HV' & Hr' & Hc'). repeat split.
  - congruence.
  - intros u. now rewrite Hr.
  - intros u v. now rewrite Hc.
Qed.

Lemma same_tables_sym g1 g2 : same_tables g1 g2 -> same_tables g2 g1.
Proof.
  intros (HV & Hr & Hc). repeat split; auto.
Qed.

Lemma same_tables_cell_graph g g0 u v :
  same_tables g g0 -> cell (graph g) u v = cell (graph g0) u v.
Proof.
  intros (_ & Hr & _). unfold cell. now rewrite Hr.
Qed.

Lemma same_tables_residual g g0 u v :
  same_tables g g0 -> residual g u v = residual g0 u v.
Proof.
  intros H. unfold residual. rewrite (same_tables_cell_graph _ _ _ _ H).
  destruct H as (_ & _ & Hc). now rewrite Hc.
Qed.

Lemma same_tables_touch_flow g u v :
  same_tables (with_flow g (touch (flow g) u v)) g.
Proof.
  repeat split. intros a b. simpl. apply cell_touch.
Qed.

Lemma same_tables_touch_row g u :
  same_tables (with_graph g (touch_row (graph g) u)) g.
Proof.
  repeat split. intros a. simpl. apply row_touch_row.
Qed.

Lemma same_tables_source_slack g g0 s :
  same_tables g g0 -> source_slack g s = source_slack g0 s.
Proof.
  intros H. unfold source_slack.
  destruct H as (HV & Hr & Hc) eqn:E. rewrite Hr. f_equal.
  apply map_ext. intros v. f_equal. now apply same_tables_residual.
Qed.

(** ** The search: what it maintains *)

Lemma climbs_set p source v u w es :
  get p v = None -> climbs p source w es -> climbs (set p v u) source w es.
Proof.
  intros Hv H. induction H as [|x y es Hx Hget H IH].
  - constructor.
  - constructor; auto. rewrite get_set_other; auto.
    intros ->. congruence.
Qed.

Lemma climbs_from_source p source es : climbs p source source es -> es = [].
Proof.
  intros H. inversion H; subst; auto. contradiction.
Qed.

Lemma bfs_inv_unvisited g0 source st v :
  bfs_inv g0 source st -> ~ In v (visited st) ->
  get (parent st) v = None /\ v <> source.
Proof.
  intros Hinv Hv. split.
  - destruct (get (parent st) v) eqn:E; auto.
    destruct (inv_parent _ _ _ Hinv _ _ E) as (_ & Hin & _). contradiction.
  - intros ->. apply Hv. apply (inv_source _ _ _ Hinv).
Qed.

Lemma bfs_inv_visit g0 source st u v :
  bfs_inv g0 source st ->
  In u (visited st) -> ~ In v (visited st) ->
  In v (keys (row (graph g0) u)) -> 0 < residual g0 u v ->
  bfs_inv g0 source
    (mkBfs (with_flow (bfs_g st) (touch (flow (bfs_g st)) u v))
           (v :: visited st) (queue st ++ [v]) (set (parent st) v u)).
Proof.
  intros Hinv Hu Hv Hkey Hres.
  destruct (bfs_inv_unvisited _ _ _ _ Hinv Hv) as [Hnone Hsrc].
  constructor; simpl.
  - eapply same_tables_trans; [apply same_tables_touch_flow|].
    apply (inv_tables _ _ _ Hinv).
  - right. apply (inv_source _ _ _ Hinv).
  - intros w Hw. apply in_app_or in Hw. destruct Hw as [Hw|[->|[]]].
    + right. now apply (inv_queue _ _ _ Hinv).
    + now left.
  - intros w [<-|Hw].
    + destruct (inv_climbs _ _ _ Hinv _ Hu) as (es & Hes & Hlen).
      exists ((u, v) :: es). split.
      * constructor; auto.
        -- apply get_set_same.
        -- now apply climbs_set.
      * rewrite length_set_absent by assumption. simpl. lia.
    + destruct (inv_climbs _ _ _ Hinv _ Hw) as (es & Hes & Hlen).
      exists es. split.
      * now apply climbs_set.
      * rewrite length_set_absent by assumption. lia.
  - intros x y Hget. destruct (Z.eq_dec x v) as [->|Hne].
    + rewrite get_set_same in Hget. inversion Hget. subst y.
      repeat split; auto.
    + rewrite get_set_other in Hget by assumption.
      destruct (inv_parent _ _ _ Hinv _ _ Hget) as (H1 & H2 & H3 & H4).
      repeat split; auto.
Qed.

Lemma bfs_inv_skip g0 source st u v :
  bfs_inv g0 source st ->
  bfs_inv g0 source
    (mkBfs (with_flow (bfs_g st) (touch (flow (bfs_g st)) u v))
           (visited st) (queue st) (parent st)).
Proof.
  intros Hinv. constructor; simpl.
  - eapply same_tables_trans; [apply same_tables_touch_flow|].
    apply (inv_tables _ _ _ Hinv).
  - apply (inv_source _ _ _ Hinv).
  - apply (inv_queue _ _ _ Hinv).
  - apply (inv_climbs _ _ _ Hinv).
  - apply (inv_parent _ _ _ Hinv).
Qed.

Lemma bfs_scan_inv g0 source u sink vs :
  forall st found st',
    bfs_inv g0 source st ->
    In u (visited st) ->
    (forall v, In v vs -> In v (keys (row (graph g0) u))) ->
    bfs_scan u sink vs st = (found, st') ->
    bfs_inv g0 source st'
    /\ (found = true -> exists p, get (parent st') sink = Some p).
Proof.
  induction vs as [|v vs IH]; intros st found st' Hinv Hu Hkeys Hscan.
  - simpl in Hscan. inversion Hscan. subst. split; auto. discriminate.
  - simpl in Hscan.
    destruct (negb (mem v (visited st)) && (0 <? residual (bfs_g st) u v)) eqn:Etest.
    + apply andb_true_iff in Etest. destruct Etest as [Hmem Hres].
      apply negb_true_iff in Hmem. apply mem_not_in in Hmem.
      apply Z.ltb_lt in Hres.
      rewrite (same_tables_residual _ g0) in Hres by apply (inv_tables _ _ _ Hinv).
      assert (Hinv' := bfs_inv_visit _ _ _ u v Hinv Hu Hmem
                         (Hkeys v (or_introl eq_refl)) Hres).
      destruct (v =? sink) eqn:Esink.
      * inversion Hscan. subst. split; auto.
        intros _. apply Z.eqb_eq in Esink. subst v. simpl.
        exists u. apply get_set_same.
      * eapply IH; [exact Hinv' | | | exact Hscan].
        -- simpl. now right.
        -- intros w Hw. apply Hkeys. now right.
    + eapply IH; [apply (bfs_inv_skip _ _ _ u v Hinv) | | | exact Hscan].
      * exact Hu.
      * intros w Hw. apply Hkeys. now right.
Qed.

Lemma bfs_loop_inv g0 source sink fuel :
  forall st found st',
    bfs_inv g0 source st ->
    bfs_loop fuel sink st = Ok (found, st') ->
    bfs_inv g0 source st'
    /\ (found = true -> exists p, get (parent st') sink = Some p).
Proof.
  induction fuel as [|fuel IH]; intros st found st' Hinv Hloop;
    simpl in Hloop; [discriminate|].
  destruct (queue st) as [|u rest] eqn:Eq.
  - inversion Hloop. subst. split; auto. discriminate.
  - set (st1 := mkBfs (with_graph (bfs_g st) (touch_row (graph (bfs_g st)) u))
                      (visited st) rest (parent st)) in *.
    assert (Hinv1 : bfs_inv g0 source st1).
    { constructor; simpl.
      - eapply same_tables_trans; [apply same_tables_touch_row|].
        apply (inv_tables _ _ _ Hinv).
      - apply (inv_source _ _ _ Hinv).
      - intros w Hw. apply (inv_queue _ _ _ Hinv). rewrite Eq. now right.
      - apply (inv_climbs _ _ _ Hinv).
      - apply (inv_parent _ _ _ Hinv). }
    assert (Hu : In u (visited st1)).
    { simpl. apply (inv_queue _ _ _ Hinv). rewrite Eq. now left. }
    destruct (bfs_scan u sink _ st1) as [found2 st2] eqn:Escan.
    assert (Hrow : row (touch_row (graph (bfs_g st)) u) u = row (graph g0) u).
    { rewrite row_touch_row.
      destruct (inv_tables _ _ _ Hinv) as (_ & Hr & _). apply Hr. }
    rewrite Hrow in Escan.
    destruct (bfs_scan_inv g0 source u sink _ st1 found2 st2 Hinv1 Hu
                (fun v H => H) Escan) as [Hinv2 Hfound].
    destruct found2.
    + inversion Hloop. subst. auto.
    + eapply IH; eauto.
Qed.

(** ** The search: it ends *)

Lemma unseen_app m m' vis :
  unseen (m ++ m') vis = (unseen m vis + unseen m' vis)%nat.
Proof.
  unfold unseen. induction m as [|ur m IH]; simpl; auto.
  rewrite IH. lia.
Qed.

Lemma unseen_touch_row m u vis : unseen (touch_row m u) vis = unseen m vis.
Proof.
  destruct (touch_row_cases m u) as [->|[_ ->]]; auto.
  rewrite unseen_app. simpl. lia.
Qed.

Lemma unseen_le_cells m vis : (unseen m vis <= cells m)%nat.
Proof.
  unfold unseen, cells. induction m as [|[u r] m IH]; simpl; auto.
  pose proof (filter_length_le (fun v => negb (mem v vis)) (keys r)) as H.
  unfold keys in *. rewrite length_map in H. lia.
Qed.

Lemma filter_length_mono (f h : Z -> bool) l :
  (forall v, f v = true -> h v = true) ->
  (List.length (filter f l) <= List.length (filter h l))%nat.
Proof.
  intros Hfh. induction l as [|y l IH]; simpl; auto.
  destruct (f y) eqn:Ef.
  - rewrite (Hfh y Ef). simpl. lia.
  - destruct (h y); simpl; lia.
Qed.

Lemma filter_length_strict (f h : Z -> bool) l x :
  (forall v, f v = true -> h v = true) ->
  In x l -> f x = false -> h x = true ->
  (List.length (filter f l) < List.length (filter h l))%nat.
Proof.
  intros Hfh Hin Hf Hh. induction l as [|y l IH]; simpl; [contradiction|].
  destruct Hin as [->|Hin].
  - rewrite Hf, Hh. simpl. pose proof (filter_length_mono f h l Hfh). lia.
  - specialize (IH Hin). destruct (f y) eqn:Ef.
    + rewrite (Hfh y Ef). simpl. lia.
    + destruct (h y); simpl; lia.
Qed.

Lemma mem_cons k x s : mem k (x :: s) = (k =? x) || mem k s.
Proof. reflexivity. Qed.

Lemma fresh_le (x : Z) vis l :
  (List.length (filter (fun v => negb (mem v (x :: vis))) l)
   <= List.length (filter (fun v => negb (mem v vis)) l))%nat.
Proof.
  apply filter_length_mono. intros v. rewrite mem_cons.
  destruct (v =? x), (mem v vis); simpl; auto.
Qed.

Lemma fresh_lt (x : Z) vis l :
  In x l -> ~ In x vis ->
  (List.length (filter (fun v => negb (mem v (x :: vis))) l)
   < List.length (filter (fun v => negb (mem v vis)) l))%nat.
Proof.
  intros Hin Hvis. apply mem_not_in in Hvis.
  apply filter_length_strict with (x := x); auto.
  - intros v. rewrite mem_cons. destruct (v =? x), (mem v vis); simpl; auto.
  - rewrite mem_cons, Z.eqb_refl. reflexivity.
  - now rewrite Hvis.
Qed.

Lemma unseen_cons u r m vis :
  unseen ((u, r) :: m) vis
  = (List.length (filter (fun v => negb (mem v vis)) (keys r)) + unseen m vis)%nat.
Proof. reflexivity. Qed.

Lemma unseen_visit_le m x vis : (unseen m (x :: vis) <= unseen m vis)%nat.
Proof.
  induction m as [|[u r] m IH]; [apply Nat.le_refl|].
  rewrite !unseen_cons. pose proof (fresh_le x vis (keys r)). lia.
Qed.

Lemma unseen_visit_lt m u r x vis :
  In (u, r) m -> In x (keys r) -> ~ In x vis ->
  (unseen m (x :: vis) < unseen m vis)%nat.
Proof.
  intros Hin Hx Hvis. induction m as [|[u' r'] m IH]; [contradiction|].
  rewrite !unseen_cons. destruct Hin as [E|Hin].
  - inversion E. subst.
    pose proof (fresh_lt x vis (keys r) Hx Hvis).
    pose proof (unseen_visit_le m x vis). lia.
  - specialize (IH Hin).
    pose proof (fresh_le x vis (keys r')). lia.
Qed.

Lemma row_key_in m u v :
  In v (keys (row m u)) -> exists r, In (u, r) m /\ In v (keys r).
Proof.
  unfold row, get_default. destruct (get m u) eqn:E.
  - intros H. exists d. split; auto. now apply get_in.
  - simpl. contradiction.
Qed.

Lemma bfs_scan_potential u sink vs :
  forall st found st',
    (forall v, In v vs ->
               exists r, In (u, r) (graph (bfs_g st)) /\ In v (keys r)) ->
    bfs_scan u sink vs st = (found, st') ->
    (potential st' <= potential st)%nat
    /\ graph (bfs_g st') = graph (bfs_g st).
Proof.
  induction vs as [|v vs IH]; intros st found st' Hkeys Hscan; simpl in Hscan.
  - inversion Hscan. subst. auto.
  - destruct (negb (mem v (visited st)) && (0 <? residual (bfs_g st) u v)) eqn:Etest.
    + apply andb_true_iff in Etest. destruct Etest as [Hmem _].
      apply negb_true_iff in Hmem. apply mem_not_in in Hmem.
      destruct (Hkeys v (or_introl eq_refl)) as (r & Hr & Hv).
      pose proof (unseen_visit_lt _ _ _ _ _ Hr Hv Hmem) as Hlt.
      destruct (v =? sink).
      * inversion Hscan. subst. unfold potential. simpl.
        rewrite length_app. simpl. split; auto. lia.
      * apply IH in Hscan.
        -- destruct Hscan as [Hle Hg]. simpl in Hg. split; auto.
           unfold potential in *. simpl in Hle.
           rewrite length_app in Hle. simpl in Hle. lia.
        -- simpl. intros w Hw. apply Hkeys. now right.
    + apply IH in Hscan.
      * destruct Hscan as [Hle Hg]. simpl in Hg. split; auto.
      * simpl. intros w Hw. apply Hkeys. now right.
Qed.

Lemma bfs_loop_total sink fuel :
  forall st, (potential st < fuel)%nat ->
             exists found st', bfs_loop fuel sink st = Ok (found, st').
Proof.
  induction fuel as [|fuel IH]; intros st Hpot; [lia|]. simpl.
  destruct (queue st) as [|u rest] eqn:Eq; [eauto|].
  set (st1 := mkBfs (with_graph (bfs_g st) (touch_row (graph (bfs_g st)) u))
                    (visited st) rest (parent st)).
  destruct (bfs_scan u sink _ st1) as [found2 st2] eqn:Escan.
  apply bfs_scan_potential in Escan.
  - destruct Escan as [Hle _]. destruct found2; [eauto|].
    apply IH. unfold potential in *. simpl in Hle.
    rewrite unseen_touch_row in Hle. rewrite Eq in Hpot. simpl in Hpot. lia.
  - simpl. intros v Hv. now apply row_key_in.
Qed.

Lemma bfs_inv_init g source : bfs_inv g source (mkBfs g [source] [source] []).
Proof.
  constructor; simpl.
  - apply same_tables_refl.
  - now left.
  - auto.
  - intros w [<-|[]]. exists []. split; [constructor | auto].
  - discriminate.
Qed.

(** [bfs_path_exists] called with an empty [parent]: it returns; the graph
    object is the same up to inserted defaults; every parent pointer is an
    edge of positive residual capacity taken from a row of the capacity
    table; and when the answer is [True] the pointers lead from the sink
    back to the source. *)
Lemma bfs_path_exists_spec g source sink :
  exists found g' p,
    bfs_path_exists g source sink [] = Ok (found, g', p)
    /\ same_tables g' g
    /\ (forall v u, get p v = Some u ->
          v <> source /\ In v (keys (row (graph g) u)) /\ 0 < residual g u v)
    /\ (found = true ->
          sink <> source
          /\ exists es, climbs p source sink es
                        /\ (List.length es <= List.length p)%nat).
Proof.
  unfold bfs_path_exists.
  destruct (bfs_loop_total sink (bfs_fuel g) (mkBfs g [source] [source] []))
    as (found & st & Hloop).
  { unfold potential, bfs_fuel. simpl.
    pose proof (unseen_le_cells (graph g) [source]). lia. }
  rewrite Hloop. simpl.
  destruct (bfs_loop_inv g source sink _ _ _ _ (bfs_inv_init g source) Hloop)
    as [Hinv Hfound].
  exists found, (bfs_g st), (parent st). split; [reflexivity|].
  split; [apply (inv_tables _ _ _ Hinv)|]. split.
  - intros v u Hget.
    destruct (inv_parent _ _ _ Hinv _ _ Hget) as (H1 & _ & H3 & H4). auto.
  - intros Hf. destruct (Hfound Hf) as [p Hp].
    destruct (inv_parent _ _ _ Hinv _ _ Hp) as (H1 & H2 & _). split; auto.
    apply (inv_climbs _ _ _ Hinv _ H2).
Qed.

(** ** The walks up the parent pointers *)

Section Walks.
Variables (p : dict Z) (source : Z) (g0 : Graph).
Hypothesis parent_edges :
  forall v u, get p v = Some u ->
              v <> source /\ In v (keys (row (graph g0) u))
              /\ 0 < residual g0 u v.

Lemma path_min_climbs v es :
  climbs p source v es ->
  forall fuel g acc,
    (List.length es < fuel)%nat -> same_tables g g0 ->
    exists g', path_min fuel g p source v acc = Ok (min_along g0 es acc, g')
               /\ same_tables g' g0.
Proof.
  induction 1 as [|v u es Hv Hget Hclimb IH]; intros fuel g acc Hfuel Hsame.
  - destruct fuel; [simpl in Hfuel; lia|]. simpl. rewrite Z.eqb_refl. eauto.
  - destruct fuel; [simpl in Hfuel; lia|]. simpl in *.
    apply Z.eqb_neq in Hv. rewrite Hv, Hget.
    destruct (parent_edges _ _ Hget) as (_ & Hkey & _).
    rewrite (same_tables_residual _ _ _ _ Hsame).
    apply IH; [lia|].
    destruct Hsame as (HV & Hr & Hc).
    rewrite touch_present by (now rewrite Hr).
    repeat split; simpl; auto.
    intros a b. now rewrite cell_touch.
Qed.

Lemma path_push_climbs v es :
  climbs p source v es ->
  forall fuel g pf,
    (List.length es < fuel)%nat ->
    path_push fuel g p source v pf = Ok (push_along g es pf).
Proof.
  induction 1 as [|v u es Hv Hget Hclimb IH]; intros fuel g pf Hfuel.
  - destruct fuel; [simpl in Hfuel; lia|]. simpl. now rewrite Z.eqb_refl.
  - destruct fuel; [simpl in Hfuel; lia|]. simpl in *.
    apply Z.eqb_neq in Hv. rewrite Hv, Hget. apply IH. lia.
Qed.

Lemma climbs_edges v es :
  climbs p source v es ->
  forall a b, In (a, b) es -> get p b = Some a.
Proof.
  induction 1 as [|v u es Hv Hget Hclimb IH]; intros a b Hin.
  - contradiction.
  - destruct Hin as [E|Hin]; [inversion E; subst; assumption | auto].
Qed.

Lemma climbs_last v es :
  climbs p source v es -> v <> source ->
  exists es' x, es = es' ++ [(source, x)]
                /\ forall a b, In (a, b) es' -> a <> source.
Proof.
  induction 1 as [|v u es Hv Hget Hclimb IH]; intros Hne; [contradiction|].
  destruct (Z.eq_dec u source) as [->|Hu].
  - apply climbs_from_source in Hclimb. subst es.
    exists [], v. split; [reflexivity|]. intros a b [].
  - destruct (IH Hu) as (es' & x & -> & Hes').
    exists ((u, v) :: es'), x. split; [reflexivity|].
    intros a b [E|Hin]; [inversion E; now subst | eauto].
Qed.
End Walks.

(** ** The bottleneck *)

Lemma min_along_fin g es :
  forall a, exists pf,
    min_along g es (Fin a) = Fin pf
    /\ pf <= a
    /\ (forall e, In e es -> pf <= residual g (fst e) (snd e))
    /\ (0 < a -> (forall e, In e es -> 0 < residual g (fst e) (snd e)) -> 0 < pf).
Proof.
  induction es as [|e es IH]; intros a.
  - exists a. simpl. split; [reflexivity|]. split; [lia|]. split; auto.
    intros e [].
  - destruct (IH (Z.min a (residual g (fst e) (snd e))))
      as (pf & Hpf & Hle & Hall & Hpos).
    exists pf. simpl. split; [exact Hpf|]. split; [lia|]. split.
    + intros e' [<-|Hin]; [lia | auto].
    + intros Ha Hres. apply Hpos.
      * specialize (Hres e (or_introl eq_refl)). lia.
      * intros e' Hin. apply Hres. now right.
Qed.

Lemma min_along_inf g es :
  es <> [] ->
  (forall e, In e es -> 0 < residual g (fst e) (snd e)) ->
  exists pf, min_along g es Inf = Fin pf /\ 0 < pf
             /\ forall e, In e es -> pf <= residual g (fst e) (snd e).
Proof.
  destruct es as [|e es]; [congruence|]. intros _ Hres. simpl.
  destruct (min_along_fin g es (residual g (fst e) (snd e)))
    as (pf & Hpf & Hle & Hall & Hpos).
  exists pf. split; [exact Hpf|]. split.
  - apply Hpos.
    + apply Hres. now left.
    + intros e' Hin. apply Hres. now right.
  - intros e' [<-|Hin]; auto.
Qed.

(** ** The update *)

Lemma push_flow_cell g u v pf a b :
  cell (flow (push_flow g u v pf)) a b
  = cell (flow g) a b
    + (if (a =? u) && (b =? v) then pf else 0)
    - (if (a =? v) && (b =? u) then pf else 0).
Proof.
  unfold push_flow. simpl. rewrite !cell_store.
  destruct (Z.eqb_spec a u), (Z.eqb_spec b v),
           (Z.eqb_spec a v), (Z.eqb_spec b u); subst; simpl;
    repeat match goal with
           | |- context [?x =? ?y] =>
               destruct (Z.eqb_spec x y); simpl; try congruence
           end; lia.
Qed.

Lemma push_flow_graph g u v pf : graph (push_flow g u v pf) = graph g.
Proof. reflexivity. Qed.

Lemma push_flow_V g u v pf : V (push_flow g u v pf) = V g.
Proof. reflexivity. Qed.

Lemma push_along_cons g e es pf :
  push_along g (e :: es) pf = push_along (push_flow g (fst e) (snd e) pf) es pf.
Proof. reflexivity. Qed.

Lemma push_along_graph es : forall g pf, graph (push_along g es pf) = graph g.
Proof.
  induction es as [|e es IH]; intros g pf; [reflexivity|].
  rewrite push_along_cons, IH. reflexivity.
Qed.

Lemma push_along_app g es1 es2 pf :
  push_along g (es1 ++ es2) pf = push_along (push_along g es1 pf) es2 pf.
Proof. unfold push_along. apply fold_left_app. Qed.

Lemma push_along_snoc g es e pf :
  push_along g (es ++ [e]) pf = push_flow (push_along g es pf) (fst e) (snd e) pf.
Proof. rewrite push_along_app. reflexivity. Qed.

Lemma push_flow_antisymmetric g u v pf :
  antisymmetric g -> antisymmetric (push_flow g u v pf).
Proof.
  unfold antisymmetric, flow_value. intros H a b.
  rewrite !push_flow_cell, (H a b).
  destruct (a =? u), (b =? v), (a =? v), (b =? u); simpl; lia.
Qed.

Lemma push_along_antisymmetric es :
  forall g pf, antisymmetric g -> antisymmetric (push_along g es pf).
Proof.
  induction es as [|e es IH]; intros g pf H; [exact H|].
  rewrite push_along_cons. apply IH. now apply push_flow_antisymmetric.
Qed.

Lemma same_tables_antisymmetric g g0 :
  same_tables g g0 -> antisymmetric g0 -> antisymmetric g.
Proof.
  intros (_ & _ & Hc) H u v. unfold flow_value. rewrite !Hc. apply H.
Qed.

(** Pushes on edges that do not touch [s] leave the row of [s] alone. *)
Lemma push_along_away s es :
  forall g pf y,
    (forall a b, In (a, b) es -> a <> s /\ b <> s) ->
    cell (flow (push_along g es pf)) s y = cell (flow g) s y.
Proof.
  induction es as [|[a b] es IH]; intros g pf y Hes; [reflexivity|].
  rewrite push_along_cons, IH.
  - rewrite push_flow_cell. simpl.
    destruct (Hes a b (or_introl eq_refl)) as [Ha Hb].
    apply not_eq_sym in Ha, Hb.
    apply Z.eqb_neq in Ha, Hb. rewrite Ha, Hb. simpl. lia.
  - intros a' b' Hin. apply Hes. now right.
Qed.

(** ** One augmentation *)

Lemma sum_map_le (f f' : Z -> Z) l :
  (forall y, f' y <= f y) -> sum (map f' l) <= sum (map f l).
Proof.
  intros H. induction l as [|y l IH]; simpl; [lia|].
  specialize (H y). lia.
Qed.

Lemma sum_map_decrease (f f' : Z -> Z) l x pf :
  (forall y, f' y <= f y) -> In x l -> f' x + pf <= f x ->
  sum (map f' l) + pf <= sum (map f l).
Proof.
  intros H Hin Hx. induction l as [|y l IH]; simpl; [contradiction|].
  destruct Hin as [->|Hin].
  - pose proof (sum_map_le f f' l H). lia.
  - specialize (IH Hin). specialize (H y). lia.
Qed.

Lemma source_slack_nonneg g s : 0 <= source_slack g s.
Proof.
  unfold source_slack. induction (keys (row (graph g) s)); simpl; lia.
Qed.

Lemma slack_after_push g s es' x pf :
  (forall a b, In (a, b) es' -> a <> s /\ b <> s) ->
  x <> s -> In x (keys (row (graph g) s)) ->
  0 < pf <= residual g s x ->
  source_slack (push_along g (es' ++ [(s, x)]) pf) s + pf <= source_slack g s.
Proof.
  intros Hes Hx Hkey Hpf. unfold source_slack.
  rewrite push_along_graph.
  apply sum_map_decrease with (x := x); auto.
  - intros y. unfold residual. rewrite push_along_graph.
    rewrite push_along_snoc, push_flow_cell.
    rewrite push_along_away by assumption.
    cbn [fst snd]. rewrite Z.eqb_refl.
    destruct (Z.eqb_spec y x), (Z.eqb_spec s x), (Z.eqb_spec y s);
      simpl; try congruence; lia.
  - unfold residual in *. rewrite push_along_graph.
    rewrite push_along_snoc, push_flow_cell.
    rewrite push_along_away by assumption.
    cbn [fst snd]. rewrite !Z.eqb_refl.
    destruct (Z.eqb_spec s x); simpl; try congruence. lia.
Qed.

(** What one pass of the outer loop does: either the search fails and the
    graph object is unchanged up to inserted defaults, or a strictly
    positive amount is pushed along a list of edges and the slack of the
    source's row drops by at least that amount. *)
Lemma augment_spec g s t :
  (exists g1, augment g s t = Ok (inl g1) /\ same_tables g1 g)
  \/ (exists pf g2 es,
        augment g s t = Ok (inr (pf, push_along g2 es pf))
        /\ same_tables g2 g /\ 0 < pf /\ t <> s
        /\ source_slack (push_along g2 es pf) s + pf <= source_slack g s).
Proof.
  destruct (bfs_path_exists_spec g s t)
    as (found & g1 & p & Hbfs & Hsame & Hedges & Hfound).
  unfold augment. rewrite Hbfs. cbn [bind]. destruct found.
  - right. destruct (Hfound eq_refl) as (Hne & es & Hclimb & Hlen).
    destruct (path_min_climbs p s g Hedges t es Hclimb (path_fuel p) g1 Inf)
      as (g2 & Hmin & Hsame2); [unfold path_fuel; lia | assumption |].
    rewrite Hmin. cbn [bind].
    destruct (climbs_last p s t es Hclimb Hne) as (es' & x & Hes & Hes').
    assert (Hall : forall e, In e es ->
                     snd e <> s /\ In (snd e) (keys (row (graph g) (fst e)))
                     /\ 0 < residual g (fst e) (snd e)).
    { intros [a b] Hin. simpl.
      apply (Hedges b a). eapply climbs_edges; eauto. }
    destruct (min_along_inf g es) as (pf & Hpf & Hpos & Hle).
    { subst es. destruct es'; discriminate. }
    { intros e Hin. apply (Hall e Hin). }
    rewrite Hpf.
    rewrite (path_push_climbs p s t es Hclimb) by (unfold path_fuel; lia).
    cbn [bind]. exists pf, g2, es. split; [reflexivity|].
    split; [assumption|]. split; [assumption|]. split; [assumption|].
    rewrite <- (same_tables_source_slack g2 g s Hsame2).
    assert (Hlast : In (s, x) es) by (subst es; apply in_or_app; right; now left).
    destruct (Hall _ Hlast) as (Hx & Hkey & _). simpl in *.
    subst es. apply slack_after_push; auto.
    + intros a b Hin. split; [eauto|].
      assert (Hin' : In (a, b) (es' ++ [(s, x)])) by (apply in_or_app; now left).
      apply (Hall _ Hin').
    + destruct Hsame2 as (_ & Hr & _). now rewrite Hr.
    + rewrite (same_tables_residual _ _ _ _ Hsame2).
      split; [assumption|]. apply (Hle _ Hlast).
  - left. eauto.
Qed.

(** ** The augmentation loop *)

Lemma ff_loop_total s t fuel :
  forall g acc,
    (Z.to_nat (source_slack g s) < fuel)%nat ->
    exists value g',
      ff_loop fuel g s t acc = Ok (value, g')
      /\ acc <= value <= acc + source_slack g s.
Proof.
  induction fuel as [|fuel IH]; intros g acc Hfuel; [lia|]. simpl.
  pose proof (source_slack_nonneg g s) as Hnn.
  destruct (augment_spec g s t)
    as [(g1 & Haug & _) | (pf & g2 & es & Haug & _ & Hpf & _ & Hslack)];
    rewrite Haug; simpl.
  - exists acc, g1. split; [reflexivity | lia].
  - pose proof (source_slack_nonneg (push_along g2 es pf) s) as Hnn'.
    destruct (IH (push_along g2 es pf) (acc + pf)) as (value & g' & Hloop & Hb);
      [lia|].
    exists value, g'. split; [assumption | lia].
Qed.

Lemma ford_fulkerson_max_flow_total g s t :
  exists value g',
    ford_fulkerson_max_flow g s t = Ok (value, g')
    /\ 0 <= value <= source_slack g s.
Proof.
  unfold ford_fulkerson_max_flow.
  destruct (ff_loop_total s t (ff_fuel g s) g 0) as (value & g' & H & Hb).
  - unfold ff_fuel. lia.
  - exists value, g'. split; [assumption | lia].
Qed.

(** A property of graph objects kept by both outcomes of a pass is kept by
    the whole loop. *)
Lemma ff_loop_preserves (P : Graph -> Prop) s t :
  (forall g g1, P g -> augment g s t = Ok (inl g1) -> P g1) ->
  (forall g pf g3, P g -> augment g s t = Ok (inr (pf, g3)) -> P g3) ->
  forall fuel g acc value g',
    P g -> ff_loop fuel g s t acc = Ok (value, g') -> P g'.
Proof.
  intros Hstop Hstep. induction fuel as [|fuel IH];
    intros g acc value g' HP Hloop; simpl in Hloop; [discriminate|].
  destruct (augment g s t) as [[g1|[pf g3]]|e] eqn:Haug; simpl in Hloop.
  - inversion Hloop. subst. eapply Hstop; eauto.
  - eapply IH; [|exact Hloop]. eapply Hstep; eauto.
  - discriminate.
Qed.

Lemma augment_antisymmetric g s t :
  antisymmetric g ->
  match augment g s t with
  | Ok (inl g') => antisymmetric g'
  | Ok (inr (_, g')) => antisymmetric g'
  | Err _ => True
  end.
Proof.
  intros H.
  destruct (augment_spec g s t)
    as [(g1 & Haug & Hsame) | (pf & g2 & es & Haug & Hsame & _)];
    rewrite Haug.
  - eapply same_tables_antisymmetric; eauto.
  - apply push_along_antisymmetric. eapply same_tables_antisymmetric; eauto.
Qed.

(** ** Sink equal to source *)

(** C10.  For every graph object, [ford_fulkerson_max_flow] called with
    the sink equal to the source returns 0, and the flow on every ordered
    pair is what it was before the call: the source is in [visited] before
    the search starts, so the search never answers [True]. *)
Theorem ford_fulkerson_source_is_sink :
  forall g s,
    exists g',
      ford_fulkerson_max_flow g s s = Ok (0, g')
      /\ forall u v, flow_value g' u v = flow_value g u v.
Proof.
  intros g s. unfold ford_fulkerson_max_flow, ff_fuel.
  cbn [ff_loop].
  destruct (augment_spec g s s)
    as [(g1 & Haug & Hsame) | (pf & g2 & es & _ & _ & _ & Hne & _)].
  - rewrite Haug. cbn [bind]. exists g1. split; [reflexivity|].
    destruct Hsame as (_ & _ & Hc). exact Hc.
  - contradiction.
Qed.

(** ** Antisymmetry *)

Lemma zero_flow_antisymmetric g :
  (forall u v, flow_value g u v = 0) -> antisymmetric g.
Proof.
  intros H u v. rewrite !H. reflexivity.
Qed.

Lemma augments_antisymmetric s t g g' :
  antisymmetric g -> augments s t g g' -> antisymmetric g'.
Proof.
  intros H Haug. induction Haug as [|g g1 g2 pf Hto IH Hstep]; auto.
  pose proof (augment_antisymmetric g1 s t (IH H)) as Hnext.
  now rewrite Hstep in Hnext.
Qed.

Lemma ford_fulkerson_antisymmetric g s t value g' :
  antisymmetric g ->
  ford_fulkerson_max_flow g s t = Ok (value, g') -> antisymmetric g'.
Proof.
  intros H Hrun. unfold ford_fulkerson_max_flow in Hrun.
  eapply (ff_loop_preserves antisymmetric s t); [| |exact H|exact Hrun].
  - intros g0 g1 H0 Haug.
    pose proof (augment_antisymmetric g0 s t H0) as Hnext.
    now rewrite Haug in Hnext.
  - intros g0 pf g3 H0 Haug.
    pose proof (augment_antisymmetric g0 s t H0) as Hnext.
    now rewrite Haug in Hnext.
Qed.

(** C8.  Starting from a flow matrix that is zero on every pair, the flow
    matrix is antisymmetric on every ordered pair after every augmentation
    of [ford_fulkerson_max_flow], and the call returns with an
    antisymmetric flow matrix. *)
Theorem engine_preserves_antisymmetry :
  forall g s t,
    (forall u v, flow_value g u v = 0) ->
    (forall g', augments s t g g' -> antisymmetric g')
    /\ exists value g',
         ford_fulkerson_max_flow g s t = Ok (value, g') /\ antisymmetric g'.
Proof.
  intros g s t Hzero.
  pose proof (zero_flow_antisymmetric g Hzero) as Hanti. split.
  - intros g' Haug. eapply augments_antisymmetric; eauto.
  - destruct (ford_fulkerson_max_flow_total g s t) as (value & g' & Hrun & _).
    exists value, g'. split; [assumption|].
    eapply ford_fulkerson_antisymmetric; eauto.
Qed.

(** ** Dictionaries without repeated keys *)

Lemma distinct_NoDup l : distinct l = true <-> NoDup l.
Proof.
  induction l as [|x l IH]; simpl.
  - split; [constructor | reflexivity].
  - rewrite andb_true_iff, negb_true_iff, mem_not_in, IH. split.
    + intros [H1 H2]. now constructor.
    + intros H. inversion H. auto.
Qed.

Lemma keys_set {A} (d : dict A) k a :
  keys (set d k a) = keys d \/ (~ In k (keys d) /\ keys (set d k a) = keys d ++ [k]).
Proof.
  destruct (get d k) eqn:E.
  - left. eapply keys_set_present; eauto.
  - right. split; [now apply get_none_keys|].
    rewrite set_absent by assumption. unfold keys. now rewrite map_app.
Qed.

Lemma NoDup_keys_set {A} (d : dict A) k a :
  NoDup (keys d) -> NoDup (keys (set d k a)).
Proof.
  intros H. destruct (keys_set d k a) as [->|[Hk ->]]; auto.
  apply NoDup_app; auto.
  - repeat constructor. intros [].
  - intros x Hx [<-|[]]. contradiction.
Qed.

Lemma Forall_set {A} (P : Z * A -> Prop) (d : dict A) k a :
  Forall P d -> (forall k', P (k', a)) -> Forall P (set d k a).
Proof.
  intros Hd Ha. induction d as [|[k' a'] d IH]; simpl.
  - constructor; auto.
  - inversion Hd. subst. destruct (k =? k'); constructor; auto.
Qed.

Lemma sum_set_add (d : dict Z) k c :
  sum (map snd (set d k (get_default d k 0 + c))) = sum (map snd d) + c.
Proof.
  unfold get_default. induction d as [|[k' x] d IH]; simpl; [lia|].
  destruct (k =? k'); simpl; lia.
Qed.

(** Looking every key up gives back the entries. *)
Lemma lookup_map {A B} (d : dict A) (dflt : A) (F : Z -> A -> B) :
  NoDup (keys d) ->
  map (fun k => F k (get_default d k dflt)) (keys d)
  = map (fun kv => F (fst kv) (snd kv)) d.
Proof.
  induction d as [|[k a] d IH]; intros Hnd; [reflexivity|].
  simpl in Hnd. inversion Hnd as [|? ? Hk Hd]. subst. simpl.
  unfold get_default at 1. simpl. rewrite Z.eqb_refl. f_equal.
  rewrite <- IH by assumption. apply map_ext_in.
  intros k' Hk'. unfold get_default. simpl.
  destruct (Z.eqb_spec k' k) as [->|_]; [contradiction | reflexivity].
Qed.

(** ** The graph built from an edge list *)

Lemma built_row_add_edge s c g e :
  0 <= e_capacity e -> built_row s c g ->
  built_row s (c + (if e_from e =? s then e_capacity e else 0))
            (add_edge g (e_from e) (e_to e) (e_capacity e)).
Proof.
  intros Hcap (Hflow & Hnd & Hpos & Hsum). unfold built_row. simpl.
  split; [assumption|].
  destruct (Z.eqb_spec (e_from e) s) as [E|Hne].
  - rewrite E, row_store_same. split; [now apply NoDup_keys_set|]. split.
    + apply Forall_set; auto. intros k'. simpl.
      unfold cell, get_default.
      destruct (get (row (graph g) s) (e_to e)) eqn:E'; [|lia].
      apply get_in in E'. rewrite Forall_forall in Hpos.
      specialize (Hpos _ E'). simpl in Hpos. lia.
    + unfold cell. rewrite sum_set_add. lia.
  - rewrite row_store_other by auto. repeat split; auto. lia.
Qed.

Lemma built_row_fold s edges :
  (forall e, In e edges -> 0 <= e_capacity e) ->
  forall g c,
    built_row s c g ->
    built_row s (c + source_capacity edges s)
      (fold_left (fun g e => add_edge g (e_from e) (e_to e) (e_capacity e))
                 edges g).
Proof.
  induction edges as [|e edges IH]; intros Hcap g c Hg; simpl.
  - unfold source_capacity. simpl. now rewrite Z.add_0_r.
  - assert (Hrest : forall e', In e' edges -> 0 <= e_capacity e')
      by (intros e' H; apply Hcap; now right).
    specialize (IH Hrest _ _
                  (built_row_add_edge s c g e (Hcap e (or_introl eq_refl)) Hg)).
    unfold source_capacity in *. simpl.
    destruct (e_from e =? s); simpl; simpl in IH.
    + now replace (c + (e_capacity e + sum (map e_capacity
                     (filter (fun e0 => e_from e0 =? s) edges))))
        with (c + e_capacity e + sum (map e_capacity
                     (filter (fun e0 => e_from e0 =? s) edges))) by lia.
    + now rewrite Z.add_0_r in IH.
Qed.

Lemma built_row_slack s c g : built_row s c g -> source_slack g s = c.
Proof.
  intros (Hflow & Hnd & Hpos & Hsum). unfold source_slack.
  rewrite (map_ext _ (fun v => Z.max 0 (get_default (row (graph g) s) v 0))).
  - rewrite (lookup_map (row (graph g) s) 0 (fun _ x => Z.max 0 x) Hnd).
    rewrite <- Hsum. f_equal. apply map_ext_in. intros kv Hin.
    rewrite Forall_forall in Hpos. specialize (Hpos _ Hin). simpl in *. lia.
  - intros v. unfold residual. rewrite Hflow.
    change (cell [] s v) with 0. unfold cell. f_equal. lia.
Qed.

Lemma build_graph_slack nodes edges s :
  (forall e, In e edges -> 0 <= e_capacity e) ->
  source_slack (build_graph nodes edges) s = source_capacity edges s.
Proof.
  intros Hcap. apply built_row_slack. unfold build_graph.
  apply (built_row_fold s edges Hcap (new_graph nodes) 0).
  unfold built_row. simpl. repeat split; constructor.
Qed.

(** ** Termination and the source bound *)

(** C6.  For every graph built from edges with non-negative integer
    capacities and every source different from the sink,
    [ford_fulkerson_max_flow] returns, and the value it returns is at most
    the sum of the capacities of the edges leaving the source; every
    augmentation pushes a strictly positive amount. *)
Theorem ford_fulkerson_terminates_within_source_capacity :
  forall nodes edges s t,
    (forall e, In e edges -> 0 <= e_capacity e) ->
    s <> t ->
    (exists value g',
        ford_fulkerson_max_flow (build_graph nodes edges) s t = Ok (value, g')
        /\ 0 <= value <= source_capacity edges s)
    /\ (forall g path_flow g',
           augment g s t = Ok (inr (path_flow, g')) -> 0 < path_flow).
Proof.
  intros nodes edges s t Hcap _. split.
  - destruct (ford_fulkerson_max_flow_total (build_graph nodes edges) s t)
      as (value & g' & Hrun & Hb).
    rewrite build_graph_slack in Hb by assumption. eauto.
  - intros g pf g' Haug.
    destruct (augment_spec g s t)
      as [(g1 & Haug' & _) | (pf' & g2 & es & Haug' & _ & Hpos & _)];
      rewrite Haug' in Haug; inversion Haug; subst; assumption.
Qed.

(** ** The verifier: what it computes *)

Lemma verify_maximum_flow_spec self s t uf :
  exists m g',
    ford_fulkerson_max_flow (test_graph_flow_only self) s t = Ok (m, g')
    /\ verify_maximum_flow self s t uf
       = Ok (if conservation_loop (V self) s t (range (V self)) uf
             then (source_outflow s uf =? m, source_outflow s uf, m)
             else (false, 0, m)).
Proof.
  destruct (ford_fulkerson_max_flow_total (test_graph_flow_only self) s t)
    as (m & g' & Hrun & _).
  exists m, g'. split; [assumption|].
  unfold verify_maximum_flow. rewrite Hrun. cbn [bind].
  destruct (conservation_loop _ _ _ _ _); reflexivity.
Qed.

Lemma inflow_touch_row m n node : inflow (touch_row m n) node = inflow m node.
Proof.
  unfold inflow.
  rewrite (map_ext _ (fun u => get_default (row m u) node 0))
    by (intros u; now rewrite row_touch_row).
  destruct (touch_row_cases m n) as [->|[Hnone ->]]; auto.
  unfold keys. rewrite !map_app, sum_app. simpl.
  unfold row at 2. unfold get_default at 3. rewrite Hnone. simpl. lia.
Qed.

Lemma outflow_touch_row vertices m n node :
  outflow vertices (touch_row m n) node = outflow vertices m node.
Proof.
  unfold outflow. now rewrite row_touch_row.
Qed.

Lemma conservation_loop_balanced vertices s t m0 nodes :
  forall m,
    (forall node, inflow m node = inflow m0 node) ->
    (forall node, outflow vertices m node = outflow vertices m0 node) ->
    conservation_loop vertices s t nodes m
    = forallb (balanced vertices s t m0) nodes.
Proof.
  induction nodes as [|node nodes IH]; intros m Hin Hout; [reflexivity|].
  simpl. unfold balanced at 1.
  destruct (node =? s) eqn:Es; simpl; [now apply IH|].
  destruct (node =? t) eqn:Et; simpl; [now apply IH|].
  rewrite Hin, Hout.
  destruct (inflow m0 node =? outflow vertices m0 node); simpl; auto.
  apply IH.
  - intros n. now rewrite inflow_touch_row.
  - intros n. now rewrite outflow_touch_row.
Qed.

Lemma sum_filter {A} (f : A -> Z) (P : A -> bool) l :
  sum (map f (filter P l)) = sum (map (fun x => if P x then f x else 0) l).
Proof.
  induction l as [|x l IH]; simpl; auto.
  destruct (P x); simpl; lia.
Qed.

Lemma sum_flat_map {A B} (F : A -> list B) (f : B -> Z) l :
  sum (map f (flat_map F l)) = sum (map (fun a => sum (map f (F a))) l).
Proof.
  induction l as [|a l IH]; simpl; auto.
  rewrite map_app, sum_app. lia.
Qed.

Lemma fold_left_add_sum {A} (f : A -> Z) l :
  forall acc, fold_left (fun a x => a + f x) l acc = acc + sum (map f l).
Proof.
  induction l as [|x l IH]; intros acc; simpl; [lia|].
  rewrite IH. lia.
Qed.

Lemma fold_left_ext {A B} (f h : A -> B -> A) l :
  (forall a x, f a x = h a x) ->
  forall acc, fold_left f l acc = fold_left h l acc.
Proof.
  intros H. induction l as [|x l IH]; intros acc; simpl; auto.
  now rewrite H, IH.
Qed.

(** The loop that computes [user_flow_value], as a sum over the entries
    the loop meets. *)
Lemma source_outflow_items s m :
  source_outflow s m
  = sum (map entry_value
             (filter (fun e => (entry_tail e =? s) && (0 <? entry_value e))
                     (items m))).
Proof.
  unfold source_outflow, items.
  rewrite sum_filter, sum_flat_map.
  rewrite (fold_left_ext
             _ (fun acc u =>
                  acc + sum (map (fun e => if (entry_tail e =? s) && (0 <? entry_value e)
                                           then entry_value e else 0)
                                 (map (fun v => (u, v, cell m u v))
                                      (keys (row m u)))))).
  - rewrite fold_left_add_sum. lia.
  - intros acc u. rewrite map_map.
    rewrite (fold_left_ext
               _ (fun a v => a + (if (u =? s) && (0 <? cell m u v)
                                  then cell m u v else 0))).
    + rewrite fold_left_add_sum. reflexivity.
    + intros a v. destruct (0 <? cell m u v), (u =? s); simpl; lia.
Qed.

(** ** Well-formed tables: the loops of the code meet exactly the entries *)

Lemma in_get {A} (d : dict A) k a :
  NoDup (keys d) -> In (k, a) d -> get d k = Some a.
Proof.
  induction d as [|[k' a'] d IH]; intros Hnd Hin; [contradiction|].
  simpl in Hnd. inversion Hnd as [|? ? Hk Hd]. subst. simpl.
  destruct Hin as [E|Hin].
  - inversion E. subst. now rewrite Z.eqb_refl.
  - destruct (Z.eqb_spec k k') as [->|_]; auto.
    exfalso. apply Hk. unfold keys. apply in_map_iff. now exists (k', a).
Qed.

Lemma well_formed_NoDup m :
  well_formed m = true ->
  NoDup (keys m) /\ forall u r, In (u, r) m -> NoDup (keys r).
Proof.
  unfold well_formed. rewrite andb_true_iff, distinct_NoDup, forallb_forall.
  intros [H1 H2]. split; auto.
  intros u r Hin. apply distinct_NoDup. apply (H2 _ Hin).
Qed.

Lemma row_cases m u : In (u, row m u) m \/ row m u = [].
Proof.
  unfold row, get_default. destruct (get m u) eqn:E; auto.
  left. now apply get_in.
Qed.

Lemma well_formed_row m u : well_formed m = true -> NoDup (keys (row m u)).
Proof.
  intros H. destruct (well_formed_NoDup m H) as [_ Hrows].
  destruct (row_cases m u) as [Hin| ->]; [eauto | constructor].
Qed.

Lemma flat_map_ext_in {A B} (f h : A -> list B) l :
  (forall a, In a l -> f a = h a) -> flat_map f l = flat_map h l.
Proof.
  induction l as [|a l IH]; intros H; simpl; auto.
  rewrite (H a (or_introl eq_refl)), IH; auto.
  intros a' Ha'. apply H. now right.
Qed.

Lemma flat_map_keys {A B} (F : Z -> list B) (d : dict A) :
  flat_map F (keys d) = flat_map (fun kv => F (fst kv)) d.
Proof.
  induction d as [|kv d IH]; simpl; auto. now rewrite IH.
Qed.

Lemma items_entries m : well_formed m = true -> items m = entries m.
Proof.
  intros Hwf. destruct (well_formed_NoDup m Hwf) as [Hnd Hrows].
  unfold items, entries. rewrite flat_map_keys.
  apply flat_map_ext_in. intros [u r] Hin. simpl.
  unfold cell, row, get_default at 2 3. rewrite (in_get m u r Hnd Hin).
  apply (lookup_map r 0 (fun v x => (u, v, x))). eauto.
Qed.

Lemma lookup_sum {A} (d : dict A) k (G : A -> Z) dflt :
  NoDup (keys d) -> G dflt = 0 ->
  sum (map (fun kv => if fst kv =? k then G (snd kv) else 0) d)
  = G (get_default d k dflt).
Proof.
  intros Hnd Hdflt. induction d as [|[k' a] d IH]; simpl; auto.
  simpl in Hnd. inversion Hnd as [|? ? Hk Hd]. subst.
  rewrite (IH Hd). unfold get_default. simpl. rewrite (Z.eqb_sym k k').
  destruct (Z.eqb_spec k' k) as [->|_]; [|lia].
  apply get_none_keys in Hk. rewrite Hk. lia.
Qed.

Lemma inflow_spec m node :
  well_formed m = true -> inflow m node = spec_inflow m node.
Proof.
  intros Hwf. destruct (well_formed_NoDup m Hwf) as [Hnd Hrows].
  unfold inflow, spec_inflow, row.
  rewrite (lookup_map m [] (fun _ r => get_default r node 0) Hnd).
  unfold entries. rewrite sum_filter, sum_flat_map. f_equal.
  apply map_ext_in. intros [u r] Hin. simpl. rewrite map_map. simpl.
  symmetry. apply (lookup_sum r node (fun x => x) 0); eauto.
Qed.

Lemma range_NoDup n : NoDup (range n).
Proof.
  unfold range. generalize (seq_NoDup (Z.to_nat n) 0).
  induction (seq 0 (Z.to_nat n)) as [|i l IH]; intros Hnd; simpl.
  - constructor.
  - inversion Hnd as [|? ? Hi Hl]. subst. constructor; auto.
    rewrite in_map_iff. intros (j & Hj & Hin).
    apply Nat2Z.inj in Hj. subst. contradiction.
Qed.

Lemma sum_point_absent (h : Z -> Z) k x l :
  ~ In k l -> sum (map (fun v => if v =? k then x else h v) l) = sum (map h l).
Proof.
  induction l as [|y l IH]; intros Hk; simpl; auto.
  destruct (Z.eqb_spec y k) as [->|_].
  - exfalso. apply Hk. now left.
  - rewrite IH; auto. intros H. apply Hk. now right.
Qed.

Lemma sum_point (h : Z -> Z) k x l :
  NoDup l -> In k l ->
  sum (map (fun v => if v =? k then x else h v) l) = x + sum (map h l) - h k.
Proof.
  induction l as [|y l IH]; intros Hnd Hin; [contradiction|].
  inversion Hnd as [|? ? Hy Hl]. subst. simpl.
  destruct (Z.eqb_spec y k) as [->|Hne].
  - rewrite sum_point_absent by assumption. lia.
  - destruct Hin as [->|Hin]; [contradiction|]. rewrite IH by assumption. lia.
Qed.

Lemma range_lookup_sum (r : dict Z) n :
  NoDup (keys r) -> (forall v, In v (keys r) -> 0 <= v < n) ->
  sum (map (fun v => get_default r v 0) (range n)) = sum (map snd r).
Proof.
  induction r as [|[k x] r IH]; intros Hnd Hrange.
  - simpl. unfold get_default. simpl. induction (range n); simpl; lia.
  - simpl in Hnd. inversion Hnd as [|? ? Hk Hr]. subst. simpl.
    rewrite (map_ext _ (fun v => if v =? k then x else get_default r v 0)).
    + rewrite sum_point.
      * rewrite IH; auto.
        -- unfold get_default. apply get_none_keys in Hk. rewrite Hk. lia.
        -- intros v Hv. apply Hrange. now right.
      * apply range_NoDup.
      * apply in_range. apply Hrange. now left.
    + intros v. unfold get_default. simpl. now destruct (v =? k).
Qed.

Lemma heads_in_range_row vertices m u v :
  heads_in_range vertices m = true ->
  In v (keys (row m u)) -> 0 <= v < vertices.
Proof.
  unfold heads_in_range. rewrite forallb_forall. intros H Hv.
  destruct (row_cases m u) as [Hin|E]; [|rewrite E in Hv; contradiction].
  unfold keys in Hv. apply in_map_iff in Hv. destruct Hv as ([v' x] & <- & Hvx).
  assert (He : In (u, v', x) (entries m)).
  { unfold entries. apply in_flat_map. exists (u, row m u). split; auto.
    simpl. apply in_map_iff. now exists (v', x). }
  specialize (H _ He). unfold entry_head in H. simpl in *. lia.
Qed.

Lemma outflow_spec vertices m node :
  well_formed m = true -> heads_in_range vertices m = true ->
  outflow vertices m node = spec_outflow m node.
Proof.
  intros Hwf Hrange. destruct (well_formed_NoDup m Hwf) as [Hnd Hrows].
  unfold outflow. rewrite range_lookup_sum.
  - unfold spec_outflow, entries. rewrite sum_filter, sum_flat_map.
    unfold row.
    rewrite <- (lookup_sum m node (fun r => sum (map snd r)) [] Hnd eq_refl).
    f_equal. apply map_ext. intros [u r]. simpl. rewrite map_map.
    unfold entry_tail, entry_value. simpl.
    destruct (u =? node); auto.
    induction r; simpl; lia.
  - now apply well_formed_row.
  - intros v Hv. eapply heads_in_range_row; eauto.
Qed.

Lemma source_outflow_spec s m :
  well_formed m = true -> source_outflow s m = spec_user_flow_value s m.
Proof.
  intros Hwf. rewrite source_outflow_items, items_entries by assumption.
  reflexivity.
Qed.

Lemma conservation_loop_spec vertices s t m :
  well_formed m = true -> heads_in_range vertices m = true ->
  (conservation_loop vertices s t (range vertices) m = true
   <-> spec_conserved vertices s t m).
Proof.
  intros Hwf Hrange.
  rewrite (conservation_loop_balanced vertices s t m) by auto.
  rewrite forallb_forall. unfold spec_conserved, balanced. split.
  - intros H node Hnode Hs Ht. specialize (H node (proj2 (in_range _ _) Hnode)).
    apply Z.eqb_neq in Hs, Ht. rewrite Hs, Ht in H. simpl in H.
    apply Z.eqb_eq in H.
    now rewrite <- inflow_spec, <- (outflow_spec vertices) by assumption.
  - intros H node Hnode. apply in_range in Hnode.
    destruct (Z.eqb_spec node s); simpl; auto.
    destruct (Z.eqb_spec node t); simpl; auto.
    apply Z.eqb_eq.
    rewrite inflow_spec, (outflow_spec vertices) by assumption. auto.
Qed.

(** ** The verifier: validity *)

(** The overloaded flow puts 20 units on edges of capacity 10 and is
    reported valid. *)
Example overloaded_flow_reported_valid :
  cell (graph diamond) 0 1 = 10 /\ cell overloaded_flow 0 1 = 20
  /\ verify_maximum_flow diamond 0 3 overloaded_flow = Ok (true, 20, 20).
Proof. vm_compute. auto. Qed.

(** An entry whose head is not in [range(self.V)] is counted by no
    outflow sum of the code. *)
Example stray_head_not_counted :
  heads_in_range (V chain) stray_flow = false
  /\ spec_inflow stray_flow 1 = 5 /\ spec_outflow stray_flow 1 = 12
  /\ inflow stray_flow 1 = 5 /\ outflow (V chain) stray_flow 1 = 5
  /\ verify_maximum_flow chain 0 3 stray_flow = Ok (true, 5, 5).
Proof. vm_compute. repeat split; reflexivity. Qed.

(** ** The verifier: the reference maximum *)

Lemma copy_structure_flow src target :
  flow (copy_structure src target) = flow target.
Proof.
  unfold copy_structure. generalize (keys src) as us. intros us.
  revert target. induction us as [|u us IH]; intros target; simpl; auto.
  rewrite IH. generalize (keys (row src u)) as vs. intros vs.
  revert target. induction vs as [|v vs IHv]; intros target; simpl; auto.
  now rewrite IHv.
Qed.

(** ** The verifier: the user's flow value *)

(** C9.  For a supplied flow mapping that is a well-formed table, the
    [user_flow_value] computed by [verify_maximum_flow] is the sum of all
    positive supplied entries whose tail is the source.  The sum is taken
    over the supplied mapping alone: an entry counts whatever the capacity
    of its pair, also when the pair is no edge of the graph.  When the
    conservation loop passes, that sum is the value reported and the
    assignment is reported valid exactly when the sum equals the reference
    maximum. *)
Theorem user_flow_value_counts_every_positive_source_entry :
  forall self s t uf,
    well_formed uf = true ->
    source_outflow s uf = spec_user_flow_value s uf
    /\ exists m,
         verify_maximum_flow self s t uf
         = Ok (if conservation_loop (V self) s t (range (V self)) uf
               then (spec_user_flow_value s uf =? m,
                     spec_user_flow_value s uf, m)
               else (false, 0, m)).
Proof.
  intros self s t uf Hwf. split; [now apply source_outflow_spec|].
  destruct (verify_maximum_flow_spec self s t uf) as (m & g' & Hrun & Hver).
  rewrite (source_outflow_spec s uf Hwf) in Hver. eauto.
Qed.

Lemma user_flow_value_counts_every_positive_source_entry_witness :
  well_formed phantom_flow = true
  /\ source_outflow 0 phantom_flow = spec_user_flow_value 0 phantom_flow
  /\ exists m,
       verify_maximum_flow chain 0 3 phantom_flow
       = Ok (if conservation_loop (V chain) 0 3 (range (V chain)) phantom_flow
             then (spec_user_flow_value 0 phantom_flow =? m,
                   spec_user_flow_value 0 phantom_flow, m)
             else (false, 0, m)).
Proof.
  split; [reflexivity|].
  apply (user_flow_value_counts_every_positive_source_entry chain 0 3 phantom_flow).
  reflexivity.
Defined.

(** Two units on the pair (0, 3), which has no capacity, turn an
    assignment of value 3 into one reported valid with value 5. *)
Example phantom_entry_reported_valid :
  cell (graph chain) 0 3 = 0
  /\ verify_maximum_flow chain 0 3 chain_flow_3 = Ok (false, 3, 5)
  /\ verify_maximum_flow chain 0 3 phantom_flow = Ok (true, 5, 5).
Proof. vm_compute. auto. Qed.

(** ** Witnesses for the engine properties *)

Lemma engine_preserves_antisymmetry_witness :
  (forall u v, flow_value detour u v = 0)
  /\ (forall g', augments 0 5 detour g' -> antisymmetric g')
  /\ exists value g',
       ford_fulkerson_max_flow detour 0 5 = Ok (value, g') /\ antisymmetric g'.
Proof.
  split; [intros u v; reflexivity|].
  apply (engine_preserves_antisymmetry detour 0 5). intros u v. reflexivity.
Defined.

Lemma chain_capacities_nonneg : forall e, In e chain_edges -> 0 <= e_capacity e.
Proof.
  intros e [<-|[<-|[<-|[]]]]; simpl; lia.
Defined.

Lemma ford_fulkerson_terminates_within_source_capacity_witness :
  (forall e, In e chain_edges -> 0 <= e_capacity e)
  /\ 0 <> 3
  /\ (exists value g',
         ford_fulkerson_max_flow (build_graph 4 chain_edges) 0 3 = Ok (value, g')
         /\ 0 <= value <= source_capacity chain_edges 0)
  /\ (forall g path_flow g',
         augment g 0 3 = Ok (inr (path_flow, g')) -> 0 < path_flow).
Proof.
  split; [exact chain_capacities_nonneg|]. split; [discriminate|].
  apply (ford_fulkerson_terminates_within_source_capacity 4 chain_edges 0 3);
    [exact chain_capacities_nonneg | discriminate].
Defined.

(** The reference scenarios and the built-in levels. *)
Example scenario_chain :
  exists g', ford_fulkerson_max_flow chain 0 3 = Ok (5, g').
Proof. eexists. vm_compute. reflexivity. Qed.

Example scenario_diamond :
  exists g', ford_fulkerson_max_flow diamond 0 3 = Ok (20, g').
Proof. eexists. vm_compute. reflexivity. Qed.

Example scenario_verify :
  verify_maximum_flow chain 0 3 (build_user_flow [(0, 1, 5); (1, 2, 5); (2, 3, 5)])
  = Ok (true, 5, 5)
  /\ verify_maximum_flow chain 0 3 chain_flow_3 = Ok (false, 3, 5)
  /\ verify_maximum_flow chain 0 3 leaking_flow = Ok (false, 0, 5).
Proof. vm_compute. auto. Qed.

(** ** Reverse residual arcs *)

(** C1 at the detour network.  The engine pushes one unit along
    0 -> 1 -> 2 -> 5 and then stops with value 1, although every cut
    separating 0 from 5 has capacity at least 2, some cut has capacity
    exactly 2, and a feasible flow of value 2 exists. *)
Theorem detour_value_below_min_cut :
  (exists g', ford_fulkerson_max_flow detour 0 5 = Ok (1, g'))
  /\ spec_is_min_cut 6 detour_edges 0 5 2
  /\ spec_feasible 6 0 5 detour_two_units = true
  /\ map fst detour_two_units = detour_edges
  /\ spec_flow_value_of 0 detour_two_units = 2.
Proof.
  split; [eexists; vm_compute; reflexivity|].
  split; [|vm_compute; auto].
  split.
  - exists [0]. split; [vm_compute; tauto | reflexivity].
  - assert (H : forallb (fun side => 2 <=? cut_capacity detour_edges side)
                        (cuts 6 0 5) = true) by (vm_compute; reflexivity).
    rewrite forallb_forall in H. intros side Hin.
    apply Z.leb_le. now apply H.
Qed.

(** C2 at the detour network.  After the first augmentation the pair
    (2, 1) has no capacity and residual capacity 1, left by the push on
    (1, 2); the path 0, 4, 2, 1, 3, 5 has positive residual capacity on
    every edge; and the search of the engine answers [False]: it looks at
    the keys of [self.graph[2]] only, where 1 does not occur. *)
Theorem reverse_arc_not_traversed :
  augment detour 0 5 = Ok (inr (1, detour_after_first_push))
  /\ cell (graph detour_after_first_push) 2 1 = 0
  /\ flow_value detour_after_first_push 2 1 = -1
  /\ residual detour_after_first_push 2 1 = 1
  /\ keys (row (graph detour_after_first_push) 2) = [5]
  /\ spec_augmenting_path detour_after_first_push 0 5 [0; 4; 2; 1; 3; 5] = true
  /\ exists g' parent,
       bfs_path_exists detour_after_first_push 0 5 [] = Ok (false, g', parent)
       /\ get parent 2 = Some 4 /\ get parent 1 = None.
Proof.
  split; [vm_compute; reflexivity|].
  split; [reflexivity|]. split; [reflexivity|]. split; [reflexivity|].
  split; [reflexivity|]. split; [reflexivity|].
  eexists. eexists. split; [vm_compute; reflexivity|]. split; reflexivity.
Qed.

(** ** The fresh copy holds the capacities *)

Lemma fold_left_flat_map {A B C} (f : A -> C -> A) (F : B -> list C) l :
  forall acc,
    fold_left f (flat_map F l) acc
    = fold_left (fun a x => fold_left f (F x) a) l acc.
Proof.
  induction l as [|x l IH]; intros acc; simpl; auto.
  now rewrite fold_left_app, IH.
Qed.

Lemma fold_left_map {A B C} (f : A -> C -> A) (h : B -> C) l :
  forall acc, fold_left f (map h l) acc = fold_left (fun a x => f a (h x)) l acc.
Proof.
  induction l as [|x l IH]; intros acc; simpl; auto.
Qed.

Lemma sum_map_zero {A} (l : list A) : sum (map (fun _ => 0) l) = 0.
Proof.
  induction l as [|x l IH]; simpl; auto.
Qed.

Lemma copy_structure_items src target :
  copy_structure src target
  = fold_left (fun g e => add_edge g (entry_tail e) (entry_head e) (entry_value e))
              (items src) target.
Proof.
  unfold copy_structure, items. rewrite fold_left_flat_map.
  apply fold_left_ext. intros g u. now rewrite fold_left_map.
Qed.

Lemma add_edges_cell es u v :
  forall g,
    cell (graph (fold_left
                   (fun g e => add_edge g (entry_tail e) (entry_head e) (entry_value e))
                   es g)) u v
    = cell (graph g) u v
      + sum (map entry_value
                 (filter (fun e => (entry_tail e =? u) && (entry_head e =? v)) es)).
Proof.
  induction es as [|e es IH]; intros g; simpl; [lia|].
  rewrite IH. unfold add_edge. simpl. rewrite cell_store.
  rewrite (Z.eqb_sym u), (Z.eqb_sym v).
  destruct ((entry_tail e =? u) && (entry_head e =? v)) eqn:E; simpl; [|lia].
  apply andb_true_iff in E. destruct E as [E1 E2].
  apply Z.eqb_eq in E1, E2. subst. lia.
Qed.

(** [test_graph_flow_only] reads, on every pair, the capacity of the
    graph it was copied from. *)
Lemma test_graph_flow_only_capacities self u v :
  well_formed (graph self) = true ->
  cell (graph (test_graph_flow_only self)) u v = cell (graph self) u v.
Proof.
  intros Hwf. destruct (well_formed_NoDup _ Hwf) as [Hnd Hrows].
  unfold test_graph_flow_only.
  rewrite copy_structure_items, add_edges_cell, items_entries by assumption.
  change (cell (graph (new_graph (V self))) u v) with 0.
  unfold entries. rewrite sum_filter, sum_flat_map.
  unfold cell, row.
  rewrite <- (lookup_sum (graph self) u (fun r => get_default r v 0) []
                Hnd eq_refl).
  rewrite Z.add_0_l. f_equal. apply map_ext_in. intros [u' r] Hin. simpl.
  rewrite map_map. unfold entry_tail, entry_head, entry_value. simpl.
  destruct (u' =? u); simpl.
  - apply (lookup_sum r v (fun x => x) 0); eauto.
  - apply sum_map_zero.
Qed.

(* ================================================================= *)
(** * Further properties of the code *)

(** ** The search: exactly the keyed residual graph *)

Lemma closed_at_mono g0 vis vis' w :
  (forall x, In x vis -> In x vis') -> closed_at g0 vis w -> closed_at g0 vis' w.
Proof.
  intros Hsub Hc v Hv Hres. apply Hsub. now apply Hc.
Qed.

Lemma bfs_scan_found_false g0 source u sink vs :
  forall done st st',
    bfs_inv g0 source st ->
    In u (visited st) ->
    (forall v, In v vs -> In v (keys (row (graph g0) u))) ->
    scan_front g0 source sink u done st ->
    bfs_scan u sink vs st = (false, st') ->
    scan_front g0 source sink u (done ++ vs) st'.
Proof.
  induction vs as [|v vs IH]; intros done st st' Hinv Hu Hkeys Hfront Hscan.
  - simpl in Hscan. inversion Hscan. subst. now rewrite app_nil_r.
  - simpl in Hscan.
    replace (done ++ v :: vs) with ((done ++ [v]) ++ vs)
      by (rewrite <- app_assoc; reflexivity).
    destruct Hfront as (Hsink & Hclosed & Hdone).
    pose proof (same_tables_residual _ _ u v (inv_tables _ _ _ Hinv)) as Hres.
    assert (Hrest : forall w, In w vs -> In w (keys (row (graph g0) u)))
      by (intros w Hw; apply Hkeys; now right).
    destruct (negb (mem v (visited st)) && (0 <? residual (bfs_g st) u v)) eqn:Etest.
    + apply andb_true_iff in Etest. destruct Etest as [Hmem Hpos].
      apply negb_true_iff in Hmem. apply mem_not_in in Hmem.
      apply Z.ltb_lt in Hpos. rewrite Hres in Hpos.
      destruct (Z.eqb_spec v sink) as [->|Hvs]; [discriminate|].
      eapply IH; [| | exact Hrest | | exact Hscan].
      * apply bfs_inv_visit; auto. apply Hkeys. now left.
      * simpl. now right.
      * repeat split; simpl.
        -- intros [E|Hin]; [congruence | auto].
        -- intros w [<-|Hw].
           ++ right. left. apply in_or_app. right. now left.
           ++ destruct (Hclosed w Hw) as [E|[Hq|Hc]]; auto.
              ** right. left. apply in_or_app. now left.
              ** right. right. eapply closed_at_mono; [|exact Hc].
                 intros x Hx. now right.
        -- intros x Hx Hxpos. apply in_app_or in Hx.
           destruct Hx as [Hx|[<-|[]]]; [right; auto | now left].
    + eapply IH; [| | exact Hrest | | exact Hscan].
      * now apply bfs_inv_skip.
      * exact Hu.
      * repeat split; simpl; auto.
        intros x Hx Hxpos. apply in_app_or in Hx.
        destruct Hx as [Hx|[<-|[]]]; auto.
        apply andb_false_iff in Etest. destruct Etest as [Hmem|Hpos].
        -- apply negb_false_iff in Hmem. now apply mem_in.
        -- apply Z.ltb_ge in Hpos. lia.
Qed.

Lemma bfs_inv_pop g0 source st u rest :
  bfs_inv g0 source st -> queue st = u :: rest ->
  bfs_inv g0 source
    (mkBfs (with_graph (bfs_g st) (touch_row (graph (bfs_g st)) u))
           (visited st) rest (parent st)).
Proof.
  intros Hinv Eq. constructor; simpl.
  - eapply same_tables_trans; [apply same_tables_touch_row|].
    apply (inv_tables _ _ _ Hinv).
  - apply (inv_source _ _ _ Hinv).
  - intros w Hw. apply (inv_queue _ _ _ Hinv). rewrite Eq. now right.
  - apply (inv_climbs _ _ _ Hinv).
  - apply (inv_parent _ _ _ Hinv).
Qed.

Lemma bfs_loop_found_false g0 source sink fuel :
  forall st st',
    bfs_inv g0 source st ->
    bfs_front g0 source sink st ->
    bfs_loop fuel sink st = Ok (false, st') ->
    bfs_front g0 source sink st' /\ queue st' = [] /\ bfs_inv g0 source st'.
Proof.
  induction fuel as [|fuel IH]; intros st st' Hinv Hfront Hloop;
    simpl in Hloop; [discriminate|].
  destruct (queue st) as [|u rest] eqn:Eq.
  - inversion Hloop. subst. auto.
  - pose proof (bfs_inv_pop _ _ _ _ _ Hinv Eq) as Hinv1.
    set (st1 := mkBfs (with_graph (bfs_g st) (touch_row (graph (bfs_g st)) u))
                      (visited st) rest (parent st)) in *.
    assert (Hu : In u (visited st1)).
    { simpl. apply (inv_queue _ _ _ Hinv). rewrite Eq. now left. }
    assert (Hrow : row (touch_row (graph (bfs_g st)) u) u = row (graph g0) u).
    { rewrite row_touch_row.
      destruct (inv_tables _ _ _ Hinv) as (_ & Hr & _). apply Hr. }
    rewrite Hrow in Hloop.
    destruct (bfs_scan u sink _ st1) as [found2 st2] eqn:Escan.
    destruct (bfs_scan_inv g0 source u sink _ st1 found2 st2 Hinv1 Hu
                (fun v H => H) Escan) as [Hinv2 _].
    destruct found2; [discriminate|].
    assert (Hscanfront : scan_front g0 source sink u [] st1).
    { destruct Hfront as [Hsink Hclosed]. repeat split; simpl; auto.
      - intros w Hw. destruct (Hclosed w Hw) as [Hq|Hc]; auto.
        rewrite Eq in Hq. destruct Hq as [<-|Hq]; auto.
      - intros v []. }
    pose proof (bfs_scan_found_false g0 source u sink _ [] st1 st2 Hinv1 Hu
                  (fun v H => H) Hscanfront Escan) as (Hsink2 & Hclosed2 & Hdone2).
    apply (IH st2 st' Hinv2); [|exact Hloop].
    split; [exact Hsink2|].
    intros w Hw.
    destruct (Hclosed2 w Hw) as [->|[Hq|Hc]];
      [right | left; exact Hq | right; exact Hc].
    intros v Hv Hpos. apply Hdone2; auto.
Qed.

Lemma bfs_front_init g source sink :
  bfs_front g source sink (mkBfs g [source] [source] []).
Proof.
  split; simpl.
  - intros [E|[]]. now symmetry.
  - intros w Hw. now left.
Qed.

Lemma keyed_path_visited g0 source st v :
  bfs_inv g0 source st ->
  (forall w, In w (visited st) -> closed_at g0 (visited st) w) ->
  keyed_path g0 source v -> In v (visited st).
Proof.
  intros Hinv Hclosed Hpath. induction Hpath as [|u v Hpath IH Hkey Hres].
  - apply (inv_source _ _ _ Hinv).
  - apply (Hclosed u IH v Hkey Hres).
Qed.

Lemma climbs_keyed_path g p source v es :
  (forall x y, get p x = Some y ->
               x <> source /\ In x (keys (row (graph g) y)) /\ 0 < residual g y x) ->
  climbs p source v es -> keyed_path g source v.
Proof.
  intros Hedges H. induction H as [|v u es Hv Hget Hclimb IH].
  - constructor.
  - destruct (Hedges _ _ Hget) as (_ & Hkey & Hres).
    eapply keyed_step; eauto.
Qed.

Lemma keyed_path_same_tables g g0 source v :
  same_tables g g0 -> keyed_path g0 source v -> keyed_path g source v.
Proof.
  intros Hsame H. induction H as [|u v Hpath IH Hkey Hres].
  - constructor.
  - eapply keyed_step; [exact IH | |].
    + destruct Hsame as (_ & Hr & _). now rewrite Hr.
    + now rewrite (same_tables_residual _ _ _ _ Hsame).
Qed.

(** When the search answers [False], the sink is the source or is out of
    reach in the keyed residual graph. *)
Lemma bfs_path_exists_complete g source sink g' p :
  bfs_path_exists g source sink [] = Ok (false, g', p) ->
  keyed_path g source sink -> sink = source.
Proof.
  intros Hbfs Hpath. unfold bfs_path_exists in Hbfs.
  destruct (bfs_loop (bfs_fuel g) sink (mkBfs g [source] [source] []))
    as [[found' st]|e] eqn:Hloop; simpl in Hbfs; [|discriminate].
  inversion Hbfs. subst found' g' p.
  destruct (bfs_loop_found_false g source sink _ _ _
              (bfs_inv_init g source) (bfs_front_init g source sink) Hloop)
    as ((Hsink & Hclosed) & Hq & Hinv).
  apply Hsink. eapply keyed_path_visited; eauto.
  intros w Hw. destruct (Hclosed w Hw) as [Hin|Hc]; auto.
  rewrite Hq in Hin. contradiction.
Qed.

(** X1.  [bfs_path_exists] called with an empty [parent] answers [True]
    exactly when the sink differs from the source and can be reached from
    it by edges [(u, v)] such that [v] is a key of [self.graph[u]] and the
    residual capacity of [(u, v)] is positive. *)
Theorem bfs_path_exists_iff_keyed_path :
  forall g source sink,
    exists found g' parent,
      bfs_path_exists g source sink [] = Ok (found, g', parent)
      /\ (found = true <-> sink <> source /\ keyed_path g source sink).
Proof.
  intros g source sink.
  destruct (bfs_path_exists_spec g source sink)
    as (found & g' & p & Hbfs & Hsame & Hedges & Hfound).
  exists found, g', p. split; [exact Hbfs|]. split.
  - intros Hf. destruct (Hfound Hf) as (Hne & es & Hclimb & _).
    split; [exact Hne|]. eapply climbs_keyed_path; eauto.
  - intros [Hne Hpath]. destruct found; [reflexivity|]. exfalso.
    apply Hne. eapply bfs_path_exists_complete; eauto.
Qed.

(** ** One augmentation, in detail *)

Lemma augment_full g s t :
  (exists g1, augment g s t = Ok (inl g1) /\ same_tables g1 g
              /\ (t = s \/ ~ keyed_path g s t))
  \/ (exists pf g2 es p,
        augment g s t = Ok (inr (pf, push_along g2 es pf))
        /\ same_tables g2 g /\ 0 < pf /\ t <> s
        /\ climbs p s t es
        /\ (forall x y, get p x = Some y ->
              x <> s /\ In x (keys (row (graph g) y)) /\ 0 < residual g y x)
        /\ (forall e, In e es -> pf <= residual g (fst e) (snd e))
        /\ min_along g es Inf = Fin pf).
Proof.
  destruct (bfs_path_exists_spec g s t)
    as (found & g1 & p & Hbfs & Hsame & Hedges & Hfound).
  unfold augment. rewrite Hbfs. cbn [bind]. destruct found.
  - right. destruct (Hfound eq_refl) as (Hne & es & Hclimb & Hlen).
    destruct (path_min_climbs p s g Hedges t es Hclimb (path_fuel p) g1 Inf)
      as (g2 & Hmin & Hsame2); [unfold path_fuel; lia | assumption |].
    rewrite Hmin. cbn [bind].
    destruct (climbs_last p s t es Hclimb Hne) as (es' & x & Hes & _).
    destruct (min_along_inf g es) as (pf & Hpf & Hpos & Hle).
    { subst es. destruct es'; discriminate. }
    { intros [a b] Hin. simpl.
      apply (Hedges b a). eapply climbs_edges; eauto. }
    rewrite Hpf.
    rewrite (path_push_climbs p s t es Hclimb) by (unfold path_fuel; lia).
    cbn [bind]. exists pf, g2, es, p.
    split; [reflexivity|]. split; [assumption|]. split; [assumption|].
    split; [assumption|]. split; [assumption|]. split; [assumption|].
    split; assumption.
  - left. exists g1. split; [reflexivity|]. split; [assumption|].
    destruct (Z.eq_dec t s) as [E|Hne]; [now left | right].
    intros Hpath. apply Hne. eapply bfs_path_exists_complete; eauto.
Qed.

Lemma augment_detail g s t :
  (exists g1, augment g s t = Ok (inl g1) /\ same_tables g1 g
              /\ (t = s \/ ~ keyed_path g s t))
  \/ (exists pf g2 es p,
        augment g s t = Ok (inr (pf, push_along g2 es pf))
        /\ same_tables g2 g /\ 0 < pf /\ t <> s
        /\ climbs p s t es
        /\ (forall x y, get p x = Some y ->
              x <> s /\ In x (keys (row (graph g) y)) /\ 0 < residual g y x)
        /\ (forall e, In e es -> pf <= residual g (fst e) (snd e))).
Proof.
  destruct (augment_full g s t)
    as [H | (pf & g2 & es & p & H1 & H2 & H3 & H4 & H5 & H6 & H7 & _)].
  - left. exact H.
  - right. exists pf, g2, es, p. repeat (split; [assumption|]). assumption.
Qed.

(** The state the loop returns comes from a pass whose search failed. *)
Lemma ff_loop_final (Q : Graph -> Prop) s t :
  (forall g g1, augment g s t = Ok (inl g1) -> Q g1) ->
  forall fuel g acc value g',
    ff_loop fuel g s t acc = Ok (value, g') -> Q g'.
Proof.
  intros Hstop. induction fuel as [|fuel IH];
    intros g acc value g' Hloop; simpl in Hloop; [discriminate|].
  destruct (augment g s t) as [[g1|[pf g3]]|e] eqn:Haug; simpl in Hloop.
  - inversion Hloop. subst. eapply Hstop; eauto.
  - eapply IH; eauto.
  - discriminate.
Qed.

(** X2.  [ford_fulkerson_max_flow] returns, and when it does the sink is
    the source or no path of positive residual capacity through the keys
    of the capacity rows leads from the source to the sink any more. *)
Theorem ford_fulkerson_stops_without_keyed_path :
  forall g s t,
    exists value g',
      ford_fulkerson_max_flow g s t = Ok (value, g')
      /\ (t = s \/ ~ keyed_path g' s t).
Proof.
  intros g s t.
  destruct (ford_fulkerson_max_flow_total g s t) as (value & g' & Hrun & _).
  exists value, g'. split; [exact Hrun|].
  unfold ford_fulkerson_max_flow in Hrun.
  eapply (ff_loop_final (fun g' => t = s \/ ~ keyed_path g' s t) s t);
    [|exact Hrun].
  intros g0 g1 Haug.
  destruct (augment_detail g0 s t)
    as [(g1' & Haug' & Hsame & Hno) | (pf & g2 & es & p & Haug' & _)];
    rewrite Haug' in Haug; inversion Haug; subst.
  destruct Hno as [E|Hno]; [now left | right].
  intros Hpath. apply Hno.
  eapply keyed_path_same_tables; [apply same_tables_sym; exact Hsame | exact Hpath].
Qed.

(** ** The update along a path, pair by pair *)

Lemma occ_cons a b e es :
  occ a b (e :: es)
  = (if (fst e =? a) && (snd e =? b) then 1 else 0) + occ a b es.
Proof. reflexivity. Qed.

Lemma occ_nonneg a b es : 0 <= occ a b es.
Proof.
  induction es as [|e es IH]; [unfold occ; simpl; lia|].
  rewrite occ_cons. destruct ((fst e =? a) && (snd e =? b)); lia.
Qed.

Lemma occ_absent a b es : ~ In b (map snd es) -> occ a b es = 0.
Proof.
  induction es as [|e es IH]; intros Hb; [reflexivity|].
  rewrite occ_cons, IH by (intros H; apply Hb; now right).
  destruct (Z.eqb_spec (snd e) b) as [E|_].
  - exfalso. apply Hb. now left.
  - rewrite andb_false_r. lia.
Qed.

Lemma occ_le_1 a b es : NoDup (map snd es) -> occ a b es <= 1.
Proof.
  induction es as [|e es IH]; intros Hnd; [unfold occ; simpl; lia|].
  simpl in Hnd. inversion Hnd as [|? ? He Hes]. subst.
  rewrite occ_cons. specialize (IH Hes).
  destruct (Z.eqb_spec (snd e) b) as [E|_].
  - subst b. rewrite (occ_absent a (snd e) es He).
    destruct (fst e =? a); simpl; lia.
  - rewrite andb_false_r. lia.
Qed.

Lemma occ_pos_in a b es : 0 < occ a b es -> In (a, b) es.
Proof.
  induction es as [|[x y] es IH]; [unfold occ; simpl; lia|].
  rewrite occ_cons. simpl.
  destruct (Z.eqb_spec x a) as [->|_], (Z.eqb_spec y b) as [->|_]; simpl;
    intros H; auto.
Qed.

Lemma push_along_cell es :
  forall g pf a b,
    cell (flow (push_along g es pf)) a b
    = cell (flow g) a b + pf * occ a b es - pf * occ b a es.
Proof.
  induction es as [|e es IH]; intros g pf a b.
  - unfold occ. simpl. lia.
  - rewrite push_along_cons, IH, push_flow_cell, !occ_cons.
    rewrite (Z.eqb_sym a (fst e)), (Z.eqb_sym b (snd e)),
            (Z.eqb_sym a (snd e)), (Z.eqb_sym b (fst e)).
    destruct (fst e =? a), (snd e =? b), (fst e =? b), (snd e =? a);
      cbn [andb]; lia.
Qed.

Lemma climbs_unique p s v es1 :
  climbs p s v es1 -> forall es2, climbs p s v es2 -> es1 = es2.
Proof.
  induction 1 as [|v u es Hv Hget Hclimb IH]; intros es2 H2.
  - now apply climbs_from_source in H2.
  - inversion H2 as [|v' u' es' Hv' Hget' Hclimb']; subst; [contradiction|].
    rewrite Hget in Hget'. inversion Hget'. subst u'.
    f_equal. now apply IH.
Qed.

Lemma climbs_suffix p s v es :
  climbs p s v es ->
  forall a b, In (a, b) es ->
    exists es2, climbs p s b ((a, b) :: es2)
                /\ (List.length es2 < List.length es)%nat.
Proof.
  induction 1 as [|v u es Hv Hget Hclimb IH]; intros a b Hin; [contradiction|].
  destruct Hin as [E|Hin].
  - inversion E. subst. exists es. split; [now constructor | simpl; lia].
  - destruct (IH a b Hin) as (es2 & H2 & Hlen).
    exists es2. split; [assumption | simpl; lia].
Qed.

Lemma climbs_heads_NoDup p s v es : climbs p s v es -> NoDup (map snd es).
Proof.
  induction 1 as [|v u es Hv Hget Hclimb IH]; simpl; constructor; auto.
  intros Hin. apply in_map_iff in Hin. destruct Hin as ([a b] & Hb & Hin).
  simpl in Hb. subst b.
  destruct (climbs_suffix p s u es Hclimb a v Hin) as (es2 & H2 & Hlen).
  assert (H1 : climbs p s v ((u, v) :: es)) by now constructor.
  pose proof (climbs_unique p s v _ H1 _ H2) as E. inversion E. subst. lia.
Qed.

(** ** The engine keeps the flow within the capacities *)

Lemma augment_within_capacity g s t :
  within_capacity g ->
  match augment g s t with
  | Ok (inl g') => within_capacity g' /\ same_tables g' g
  | Ok (inr (_, g')) =>
      within_capacity g' /\ forall u, row (graph g') u = row (graph g) u
  | Err _ => True
  end.
Proof.
  intros Hcap.
  destruct (augment_detail g s t)
    as [(g1 & Haug & Hsame & _)
       | (pf & g2 & es & p & Haug & Hsame & Hpos & _ & Hclimb & Hedges & Hle)];
    rewrite Haug.
  - split; [|assumption]. intros u v. unfold flow_value.
    rewrite (same_tables_cell_graph _ _ u v Hsame).
    destruct Hsame as (_ & _ & Hc). rewrite Hc. apply Hcap.
  - split.
    + intros u v. unfold flow_value.
      rewrite push_along_cell, push_along_graph.
      pose proof (occ_nonneg u v es) as H0.
      pose proof (occ_nonneg v u es) as H0'.
      pose proof (occ_le_1 u v es (climbs_heads_NoDup _ _ _ _ Hclimb)) as H1.
      pose proof (Hcap u v) as Huv. unfold flow_value in Huv.
      rewrite (same_tables_cell_graph _ _ u v Hsame).
      destruct Hsame as (_ & _ & Hc). rewrite Hc.
      assert (Hcase : occ u v es = 0 \/ occ u v es = 1) by lia.
      destruct Hcase as [E0|E1].
      * rewrite E0. nia.
      * assert (Hin : In (u, v) es) by (apply occ_pos_in; lia).
        specialize (Hle _ Hin). unfold residual in Hle. simpl in Hle.
        rewrite E1. nia.
    + intros u. rewrite push_along_graph. destruct Hsame as (_ & Hr & _). apply Hr.
Qed.

Lemma ford_fulkerson_within_capacity g s t value g' :
  within_capacity g ->
  ford_fulkerson_max_flow g s t = Ok (value, g') ->
  within_capacity g' /\ forall u, row (graph g') u = row (graph g) u.
Proof.
  intros Hcap Hrun. unfold ford_fulkerson_max_flow in Hrun.
  apply (ff_loop_preserves
           (fun g' => within_capacity g'
                      /\ forall u, row (graph g') u = row (graph g) u)
           s t) with (fuel := ff_fuel g s) (g := g) (acc := 0) (value := value);
    [| | split; [exact Hcap | reflexivity] | exact Hrun].
  - intros g0 g1 [H0 Hrows] Haug.
    pose proof (augment_within_capacity g0 s t H0) as Hnext.
    rewrite Haug in Hnext. destruct Hnext as [H1 (_ & Hr & _)].
    split; [exact H1|]. intros u. now rewrite Hr.
  - intros g0 pf g3 [H0 Hrows] Haug.
    pose proof (augment_within_capacity g0 s t H0) as Hnext.
    rewrite Haug in Hnext. destruct Hnext as [H1 Hr].
    split; [exact H1|]. intros u. now rewrite Hr.
Qed.

(** X3.  If the flow on every ordered pair is at most the capacity of the
    pair when [ford_fulkerson_max_flow] is called, the same holds when it
    returns, and every row of the capacity table is what it was. *)
Theorem engine_keeps_flow_within_capacity :
  forall g s t,
    within_capacity g ->
    exists value g',
      ford_fulkerson_max_flow g s t = Ok (value, g')
      /\ within_capacity g'
      /\ forall u, row (graph g') u = row (graph g) u.
Proof.
  intros g s t Hcap.
  destruct (ford_fulkerson_max_flow_total g s t) as (value & g' & Hrun & _).
  exists value, g'. split; [exact Hrun|].
  eapply ford_fulkerson_within_capacity; eauto.
Qed.

(** ** The engine conserves flow *)

Lemma sum_map_add {A} (f h : A -> Z) l :
  sum (map (fun v => f v + h v) l) = sum (map f l) + sum (map h l).
Proof.
  induction l as [|x l IH]; simpl; lia.
Qed.

Lemma sum_map_scale {A} (c : Z) (f : A -> Z) l :
  sum (map (fun v => c * f v) l) = c * sum (map f l).
Proof.
  induction l as [|x l IH]; simpl; lia.
Qed.

Lemma sum_indicator k nodes :
  NoDup nodes -> In k nodes ->
  sum (map (fun v => if v =? k then 1 else 0) nodes) = 1.
Proof.
  intros Hnd Hin.
  rewrite (sum_point (fun _ => 0) k 1 nodes Hnd Hin), sum_map_zero. lia.
Qed.

Lemma sum_occ_heads n es nodes :
  NoDup nodes -> (forall e, In e es -> In (snd e) nodes) ->
  sum (map (fun v => occ n v es) nodes) = leaving n es.
Proof.
  intros Hnd. induction es as [|e es IH]; intros Hin.
  - unfold occ, leaving. simpl. apply sum_map_zero.
  - rewrite (map_ext _ (fun v => (if fst e =? n then 1 else 0)
                                 * (if v =? snd e then 1 else 0)
                                 + occ n v es)).
    + rewrite sum_map_add, sum_map_scale, sum_indicator, IH; auto.
      * unfold leaving. simpl. lia.
      * intros e' He'. apply Hin. now right.
      * apply Hin. now left.
    + intros v. rewrite occ_cons, (Z.eqb_sym v).
      destruct (fst e =? n), (snd e =? v); cbn [andb]; lia.
Qed.

Lemma sum_occ_tails n es nodes :
  NoDup nodes -> (forall e, In e es -> In (fst e) nodes) ->
  sum (map (fun v => occ v n es) nodes) = entering n es.
Proof.
  intros Hnd. induction es as [|e es IH]; intros Hin.
  - unfold occ, entering. simpl. apply sum_map_zero.
  - rewrite (map_ext _ (fun v => (if snd e =? n then 1 else 0)
                                 * (if v =? fst e then 1 else 0)
                                 + occ v n es)).
    + rewrite sum_map_add, sum_map_scale, sum_indicator, IH; auto.
      * unfold entering. simpl. lia.
      * intros e' He'. apply Hin. now right.
      * apply Hin. now left.
    + intros v. rewrite occ_cons, (Z.eqb_sym v).
      destruct (fst e =? v), (snd e =? n); cbn [andb]; lia.
Qed.

(** Along the parent pointers from [v] to the source, every node is
    entered as often as it is left, up to the two ends. *)
Lemma climbs_balance p s v es n :
  climbs p s v es ->
  entering n es - leaving n es
  = (if n =? v then 1 else 0) - (if n =? s then 1 else 0).
Proof.
  induction 1 as [|v u es Hv Hget Hclimb IH].
  - unfold entering, leaving. simpl. lia.
  - unfold entering, leaving in *. simpl.
    rewrite (Z.eqb_sym v n), (Z.eqb_sym u n). lia.
Qed.

Lemma climbs_start_in p s v es nodes :
  In s nodes -> (forall x y, get p x = Some y -> In x nodes) ->
  climbs p s v es -> In v nodes.
Proof.
  intros Hs Hkeys H. destruct H; eauto.
Qed.

Lemma climbs_nodes p s v es nodes :
  In s nodes -> (forall x y, get p x = Some y -> In x nodes) ->
  climbs p s v es ->
  forall e, In e es -> In (fst e) nodes /\ In (snd e) nodes.
Proof.
  intros Hs Hkeys. induction 1 as [|v u es Hv Hget Hclimb IH];
    intros e Hin; [contradiction|].
  destruct Hin as [<-|Hin]; [|auto]. simpl. split.
  - eapply climbs_start_in; eauto.
  - eauto.
Qed.

Lemma net_out_same_tables g g0 nodes n :
  same_tables g g0 -> net_out g nodes n = net_out g0 nodes n.
Proof.
  intros (_ & _ & Hc). unfold net_out, flow_value.
  apply f_equal, map_ext. intros v. apply Hc.
Qed.

Lemma covers_same_rows nodes g g0 s :
  (forall u, row (graph g) u = row (graph g0) u) ->
  covers nodes g0 s -> covers nodes g s.
Proof.
  intros Hr (Hnd & Hs & Hkeys). repeat split; auto.
  intros u v Hv. rewrite Hr in Hv. eauto.
Qed.

Lemma augment_net_out g s t nodes n :
  covers nodes g s ->
  match augment g s t with
  | Ok (inl g') => net_out g' nodes n = net_out g nodes n /\ covers nodes g' s
  | Ok (inr (pf, g')) =>
      net_out g' nodes n
      = net_out g nodes n + (if n =? s then pf else 0) - (if n =? t then pf else 0)
      /\ covers nodes g' s
  | Err _ => True
  end.
Proof.
  intros Hcov.
  destruct (augment_detail g s t)
    as [(g1 & Haug & Hsame & _)
       | (pf & g2 & es & p & Haug & Hsame & Hpos & Hne & Hclimb & Hedges & Hle)];
    rewrite Haug.
  - split; [now apply net_out_same_tables|].
    eapply covers_same_rows; [|exact Hcov]. destruct Hsame as (_ & Hr & _). exact Hr.
  - split.
    + destruct Hcov as (Hnd & Hs & Hkeys).
      assert (Hin : forall e, In e es -> In (fst e) nodes /\ In (snd e) nodes).
      { apply (climbs_nodes p s t es nodes Hs); auto.
        intros x y Hget. destruct (Hedges _ _ Hget) as (_ & Hk & _). eauto. }
      rewrite <- (net_out_same_tables g2 g nodes n Hsame).
      unfold net_out, flow_value.
      rewrite (map_ext _ (fun v => cell (flow g2) n v
                                   + (pf * occ n v es + - pf * occ v n es)))
        by (intros v; rewrite push_along_cell; lia).
      rewrite sum_map_add, sum_map_add, !sum_map_scale.
      rewrite sum_occ_heads, sum_occ_tails; auto; try (intros e He; apply Hin; exact He).
      pose proof (climbs_balance p s t es n Hclimb) as Hbal.
      change (map (fun v : Z => cell (flow g2) n v) nodes)
        with (map (cell (flow g2) n) nodes).
      destruct (n =? s), (n =? t); nia.
    + eapply covers_same_rows; [|exact Hcov].
      intros u. rewrite push_along_graph. destruct Hsame as (_ & Hr & _). apply Hr.
Qed.

Lemma ff_loop_net_out s t nodes n fuel :
  forall g acc value g',
    covers nodes g s ->
    ff_loop fuel g s t acc = Ok (value, g') ->
    net_out g' nodes n
    = net_out g nodes n
      + (if n =? s then value - acc else 0) - (if n =? t then value - acc else 0).
Proof.
  induction fuel as [|fuel IH]; intros g acc value g' Hcov Hloop;
    simpl in Hloop; [discriminate|].
  pose proof (augment_net_out g s t nodes n Hcov) as Hstep.
  destruct (augment g s t) as [[g1|[pf g3]]|e] eqn:Haug; simpl in Hloop.
  - inversion Hloop. subst. destruct Hstep as [E _]. rewrite E.
    destruct (n =? s), (n =? t); lia.
  - destruct Hstep as [E Hcov3].
    rewrite (IH _ _ _ _ Hcov3 Hloop), E.
    destruct (n =? s), (n =? t); lia.
  - discriminate.
Qed.

(** X4.  Let [nodes] list, without repetition, the source and every key of
    a capacity row.  When [ford_fulkerson_max_flow] returns, the net flow
    out of a node, summed over [nodes], has grown by the returned value at
    the source, dropped by it at the sink, and is unchanged at every other
    node. *)
Theorem engine_conserves_flow :
  forall g s t nodes,
    covers nodes g s ->
    exists value g',
      ford_fulkerson_max_flow g s t = Ok (value, g')
      /\ forall n,
           net_out g' nodes n
           = net_out g nodes n
             + (if n =? s then value else 0) - (if n =? t then value else 0).
Proof.
  intros g s t nodes Hcov.
  destruct (ford_fulkerson_max_flow_total g s t) as (value & g' & Hrun & _).
  exists value, g'. split; [exact Hrun|]. intros n.
  unfold ford_fulkerson_max_flow in Hrun.
  rewrite (ff_loop_net_out s t nodes n _ _ _ _ _ Hcov Hrun).
  now rewrite Z.sub_0_r.
Qed.

(** ** The graph built from an edge list, pair by pair *)

Lemma fold_add_edge_cell edges u v :
  forall g,
    cell (graph (fold_left
                   (fun g e => add_edge g (e_from e) (e_to e) (e_capacity e))
                   edges g)) u v
    = cell (graph g) u v
      + sum (map e_capacity
                 (filter (fun e => (e_from e =? u) && (e_to e =? v)) edges)).
Proof.
  induction edges as [|e edges IH]; intros g; simpl; [lia|].
  rewrite IH. unfold add_edge. simpl. rewrite cell_store.
  rewrite (Z.eqb_sym u), (Z.eqb_sym v).
  destruct ((e_from e =? u) && (e_to e =? v)) eqn:E; simpl; [|lia].
  apply andb_true_iff in E. destruct E as [E1 E2].
  apply Z.eqb_eq in E1, E2. subst. lia.
Qed.

Lemma fold_add_edge_flow edges :
  forall g,
    flow (fold_left (fun g e => add_edge g (e_from e) (e_to e) (e_capacity e))
                    edges g) = flow g.
Proof.
  induction edges as [|e edges IH]; intros g; simpl; auto.
  now rewrite IH.
Qed.

Lemma fold_add_edge_V edges :
  forall g,
    V (fold_left (fun g e => add_edge g (e_from e) (e_to e) (e_capacity e))
                 edges g) = V g.
Proof.
  induction edges as [|e edges IH]; intros g; simpl; auto.
  now rewrite IH.
Qed.

Lemma keys_row_store m a b x u v :
  In v (keys (row (store m a b x) u)) ->
  In v (keys (row m u)) \/ (u = a /\ v = b).
Proof.
  destruct (Z.eq_dec u a) as [->|Hne].
  - rewrite row_store_same.
    destruct (keys_set (row m a) b x) as [->|[_ ->]]; auto.
    intros H. apply in_app_or in H. destruct H as [H|[<-|[]]]; auto.
  - rewrite row_store_other by assumption. auto.
Qed.

Lemma fold_add_edge_keys edges u v :
  forall g,
    In v (keys (row (graph (fold_left
                              (fun g e => add_edge g (e_from e) (e_to e) (e_capacity e))
                              edges g)) u)) ->
    In v (keys (row (graph g) u))
    \/ exists e, In e edges /\ e_from e = u /\ e_to e = v.
Proof.
  induction edges as [|e edges IH]; intros g H; simpl in H; auto.
  apply IH in H. destruct H as [H|(e' & He' & Hft)].
  - unfold add_edge in H. simpl in H. apply keys_row_store in H.
    destruct H as [H|[-> ->]]; auto.
    right. exists e. split; [now left | auto].
  - right. exists e'. split; [now right | auto].
Qed.

Lemma build_graph_within_capacity nodes edges :
  (forall e, In e edges -> 0 <= e_capacity e) ->
  within_capacity (build_graph nodes edges).
Proof.
  intros Hcap u v. unfold flow_value, build_graph.
  rewrite fold_add_edge_flow, fold_add_edge_cell. simpl.
  change (cell [] u v) with 0.
  assert (H : 0 <= sum (map e_capacity
                (filter (fun e => (e_from e =? u) && (e_to e =? v)) edges))).
  { induction edges as [|e edges IH]; simpl; [lia|].
    assert (Hrest : forall e', In e' edges -> 0 <= e_capacity e')
      by (intros e' H; apply Hcap; now right).
    specialize (IH Hrest). specialize (Hcap e (or_introl eq_refl)).
    destruct ((e_from e =? u) && (e_to e =? v)); simpl; lia. }
  lia.
Qed.

Lemma build_graph_covers nodes edges s :
  (forall e, In e edges -> 0 <= e_to e < nodes) ->
  0 <= s < nodes ->
  covers (range nodes) (build_graph nodes edges) s.
Proof.
  intros Hto Hs. split; [apply range_NoDup|]. split; [now apply in_range|].
  intros u v Hv. unfold build_graph in Hv. apply fold_add_edge_keys in Hv.
  destruct Hv as [[]|(e & He & _ & <-)]. apply in_range. auto.
Qed.

Lemma chain_edges_cases (P : Edge -> Prop) :
  P (mkEdge 0 1 10) -> P (mkEdge 1 2 5) -> P (mkEdge 2 3 15) ->
  forall e, In e chain_edges -> P e.
Proof.
  intros H1 H2 H3 e [<-|[<-|[<-|[]]]]; assumption.
Defined.

Lemma engine_keeps_flow_within_capacity_witness :
  within_capacity chain
  /\ exists value g',
       ford_fulkerson_max_flow chain 0 3 = Ok (value, g')
       /\ within_capacity g'
       /\ forall u, row (graph g') u = row (graph chain) u.
Proof.
  assert (H : within_capacity chain).
  { apply build_graph_within_capacity.
    apply chain_edges_cases; simpl; lia. }
  split; [exact H|].
  apply (engine_keeps_flow_within_capacity chain 0 3 H).
Defined.

Lemma engine_conserves_flow_witness :
  covers (range 4) chain 0
  /\ exists value g',
       ford_fulkerson_max_flow chain 0 3 = Ok (value, g')
       /\ forall n,
            net_out g' (range 4) n
            = net_out chain (range 4) n
              + (if n =? 0 then value else 0) - (if n =? 3 then value else 0).
Proof.
  assert (H : covers (range 4) chain 0).
  { apply build_graph_covers; [|lia].
    apply chain_edges_cases; simpl; lia. }
  split; [exact H|].
  apply (engine_conserves_flow chain 0 3 (range 4) H).
Defined.

(** X5.  The graph built by [add_edge] from an edge list holds, on every
    ordered pair, the sum of the capacities of the edges of the list on
    that pair (0 when there is none, also on the reverse of an edge), and
    its flow table is empty. *)
Theorem build_graph_accumulates_capacities :
  forall nodes edges u v,
    cell (graph (build_graph nodes edges)) u v
    = sum (map e_capacity
               (filter (fun e => (e_from e =? u) && (e_to e =? v)) edges))
    /\ flow (build_graph nodes edges) = []
    /\ V (build_graph nodes edges) = nodes.
Proof.
  intros nodes edges u v. unfold build_graph.
  rewrite fold_add_edge_cell, fold_add_edge_flow, fold_add_edge_V. simpl.
  change (cell [] u v) with 0. split; [lia|]. split; reflexivity.
Qed.

(** ** The returned value against the cuts *)

Lemma sum_cons x l : sum (x :: l) = x + sum l.
Proof. reflexivity. Qed.

Lemma dsum_ext (h h' : Z -> Z -> Z) nodes :
  (forall u v, h u v = h' u v) -> dsum h nodes = dsum h' nodes.
Proof.
  intros H. unfold dsum. f_equal. apply map_ext. intros u.
  f_equal. apply map_ext. intros v. apply H.
Qed.

Lemma dsum_add (h h' : Z -> Z -> Z) nodes :
  dsum (fun u v => h u v + h' u v) nodes = dsum h nodes + dsum h' nodes.
Proof.
  unfold dsum. rewrite <- sum_map_add. f_equal. apply map_ext. intros u.
  apply sum_map_add.
Qed.

Lemma dsum_le (h h' : Z -> Z -> Z) nodes :
  (forall u v, h u v <= h' u v) -> dsum h nodes <= dsum h' nodes.
Proof.
  intros H. unfold dsum. apply sum_map_le. intros u.
  apply sum_map_le. intros v. apply H.
Qed.

Lemma dsum_lists_swap (h : Z -> Z -> Z) l1 l2 :
  sum (map (fun u => sum (map (fun v => h u v) l2)) l1)
  = sum (map (fun v => sum (map (fun u => h u v) l1)) l2).
Proof.
  induction l1 as [|x l1 IH]; simpl.
  - symmetry. apply sum_map_zero.
  - rewrite IH, <- sum_map_add. reflexivity.
Qed.

Lemma dsum_antisymmetric_zero (h : Z -> Z -> Z) nodes :
  (forall u v, h v u = - h u v) -> dsum h nodes = 0.
Proof.
  intros H.
  assert (E : dsum h nodes = - dsum h nodes).
  { unfold dsum at 1. rewrite dsum_lists_swap.
    rewrite (map_ext _ (fun v => -1 * sum (map (fun u => h v u) nodes))).
    - rewrite sum_map_scale. unfold dsum. lia.
    - intros v. rewrite <- sum_map_scale. f_equal. apply map_ext.
      intros u. rewrite (H v u). lia. }
  lia.
Qed.

Lemma sum_pick (F : Z -> Z) k nodes :
  NoDup nodes -> In k nodes ->
  sum (map (fun v => if v =? k then F v else 0) nodes) = F k.
Proof.
  intros Hnd Hin.
  rewrite (map_ext _ (fun v => if v =? k then F k else 0)).
  - rewrite (sum_point (fun _ => 0) k (F k) nodes Hnd Hin), sum_map_zero. lia.
  - intros v. destruct (Z.eqb_spec v k) as [->|_]; reflexivity.
Qed.

Lemma dsum_pick (F : Z -> Z -> Z) a b nodes :
  NoDup nodes -> In a nodes -> In b nodes ->
  dsum (fun u v => if (u =? a) && (v =? b) then F u v else 0) nodes = F a b.
Proof.
  intros Hnd Ha Hb. unfold dsum.
  rewrite (map_ext _ (fun u => if u =? a then F u b else 0)).
  - apply (sum_pick (fun u => F u b) a nodes Hnd Ha).
  - intros u. destruct (u =? a); cbn [andb].
    + apply (sum_pick (fun v => F u v) b nodes Hnd Hb).
    + apply sum_map_zero.
Qed.

(** On a graph built from edges between nodes of [range nodes], the
    capacities that cross from a side to its complement add up to the
    capacity of the cut. *)
Lemma built_cut_capacity nodes edges side :
  (forall e, In e edges -> 0 <= e_from e < nodes /\ 0 <= e_to e < nodes) ->
  dsum (fun u v => on_side side u * (1 - on_side side v)
                   * cell (graph (build_graph nodes edges)) u v)
       (range nodes)
  = cut_capacity edges side.
Proof.
  intros Hrange. unfold cut_capacity. rewrite sum_filter.
  rewrite (dsum_ext _ (fun u v =>
             on_side side u * (1 - on_side side v)
             * sum (map (fun e => if (e_from e =? u) && (e_to e =? v)
                                  then e_capacity e else 0) edges))).
  2: { intros u v. unfold build_graph. rewrite fold_add_edge_cell, sum_filter.
       change (cell (graph (new_graph nodes)) u v) with 0. now rewrite Z.add_0_l. }
  induction edges as [|e edges IH].
  - simpl. rewrite (dsum_ext _ (fun _ _ => 0)) by (intros; lia).
    unfold dsum. rewrite (map_ext _ (fun _ => 0)) by (intros; apply sum_map_zero).
    apply sum_map_zero.
  - rewrite (dsum_ext _ (fun u v =>
               (if (u =? e_from e) && (v =? e_to e)
                then on_side side u * (1 - on_side side v) * e_capacity e else 0)
               + on_side side u * (1 - on_side side v)
                 * sum (map (fun e0 => if (e_from e0 =? u) && (e_to e0 =? v)
                                       then e_capacity e0 else 0) edges))).
    + rewrite dsum_add, IH by (intros e' He'; apply Hrange; now right).
      rewrite map_cons, sum_cons.
      destruct (Hrange e (or_introl eq_refl)) as [Hf Ht].
      rewrite dsum_pick;
        [| apply range_NoDup | now apply in_range | now apply in_range].
      unfold on_side.
      destruct (mem (e_from e) side), (mem (e_to e) side); cbn [andb negb]; lia.
    + intros u v. rewrite map_cons, sum_cons, (Z.eqb_sym u), (Z.eqb_sym v).
      destruct ((e_from e =? u) && (e_to e =? v)); ring.
Qed.

Lemma on_side_bounds side u : 0 <= on_side side u <= 1.
Proof. unfold on_side. destruct (mem u side); lia. Qed.

(** A flow that is antisymmetric, within the capacities and conserved
    away from the two ends carries across every cut at most the capacity
    of the cut. *)
Lemma net_flow_across_cut g nodes s t side value :
  antisymmetric g -> within_capacity g ->
  NoDup nodes -> In s nodes ->
  (forall n, net_out g nodes n
             = (if n =? s then value else 0) - (if n =? t then value else 0)) ->
  In s side -> ~ In t side ->
  value <= dsum (fun u v => on_side side u * (1 - on_side side v)
                            * cell (graph g) u v) nodes.
Proof.
  intros Hanti Hcap Hnd Hs Hnet Hin Hout.
  assert (Hvalue : value = dsum (fun u v => on_side side u * flow_value g u v) nodes).
  { unfold dsum.
    rewrite (map_ext _ (fun u => if u =? s then value else 0)).
    - symmetry. apply (sum_pick (fun _ => value) s nodes Hnd Hs).
    - intros u. rewrite sum_map_scale.
      change (on_side side u * net_out g nodes u = (if u =? s then value else 0)).
      rewrite Hnet.
      unfold on_side. destruct (Z.eqb_spec u s) as [->|Hus].
      + rewrite (proj2 (mem_in _ _) Hin).
        destruct (Z.eqb_spec s t) as [E|_]; [subst; contradiction | lia].
      + destruct (Z.eqb_spec u t) as [->|_].
        * rewrite (proj2 (mem_not_in _ _) Hout). lia.
        * destruct (mem u side); lia. }
  rewrite Hvalue.
  rewrite (dsum_ext _ (fun u v =>
             on_side side u * on_side side v * flow_value g u v
             + on_side side u * (1 - on_side side v) * flow_value g u v))
    by (intros; lia).
  rewrite dsum_add, dsum_antisymmetric_zero.
  - rewrite Z.add_0_l. apply dsum_le. intros u v.
    pose proof (on_side_bounds side u). pose proof (on_side_bounds side v).
    apply Z.mul_le_mono_nonneg_l; [nia | apply Hcap].
  - intros u v. rewrite (Hanti u v). ring.
Qed.

Lemma ford_fulkerson_cut_bound nodes edges s t side value g' :
  (forall e, In e edges ->
             0 <= e_capacity e
             /\ 0 <= e_from e < nodes /\ 0 <= e_to e < nodes) ->
  0 <= s < nodes ->
  In s side -> ~ In t side ->
  ford_fulkerson_max_flow (build_graph nodes edges) s t = Ok (value, g') ->
  value <= cut_capacity edges side.
Proof.
  intros Hedges Hs Hin Hout Hrun.
  set (g := build_graph nodes edges) in *.
  assert (Hzero : forall u v, flow_value g u v = 0).
  { intros u v. unfold flow_value, g, build_graph.
    now rewrite fold_add_edge_flow. }
  assert (Hcap : within_capacity g)
    by (apply build_graph_within_capacity; intros e He; apply (Hedges e He)).
  assert (Hcov : covers (range nodes) g s)
    by (apply build_graph_covers; [intros e He; apply (Hedges e He) | exact Hs]).
  destruct (ford_fulkerson_within_capacity g s t value g' Hcap Hrun) as [Hcap' Hrows].
  pose proof (ford_fulkerson_antisymmetric g s t value g'
                (zero_flow_antisymmetric g Hzero) Hrun) as Hanti'.
  rewrite <- (built_cut_capacity nodes edges side)
    by (intros e He; apply (Hedges e He)).
  fold g.
  rewrite (dsum_ext _ (fun u v => on_side side u * (1 - on_side side v)
                                  * cell (graph g') u v))
    by (intros u v; unfold cell; now rewrite Hrows).
  pose proof Hcov as (Hnd & Hsn & _).
  apply (net_flow_across_cut g' (range nodes) s t side value); auto.
  intros n. unfold ford_fulkerson_max_flow in Hrun.
  rewrite (ff_loop_net_out s t (range nodes) n _ _ _ _ _ Hcov Hrun).
  assert (H0 : net_out g (range nodes) n = 0).
  { unfold net_out. rewrite (map_ext _ (fun _ => 0)) by (intros v; apply Hzero).
    apply sum_map_zero. }
  rewrite H0, Z.sub_0_r. lia.
Qed.

(** X6.  For a graph built from edges with non-negative capacities between
    nodes of [range(nodes)] and a source in that range, the value
    [ford_fulkerson_max_flow] returns is at most the capacity of every cut
    that has the source on its side and the sink on the other. *)
Theorem engine_value_at_most_every_cut :
  forall nodes edges s t side,
    (forall e, In e edges ->
               0 <= e_capacity e
               /\ 0 <= e_from e < nodes /\ 0 <= e_to e < nodes) ->
    0 <= s < nodes ->
    In s side -> ~ In t side ->
    exists value g',
      ford_fulkerson_max_flow (build_graph nodes edges) s t = Ok (value, g')
      /\ value <= cut_capacity edges side.
Proof.
  intros nodes edges s t side Hedges Hs Hin Hout.
  destruct (ford_fulkerson_max_flow_total (build_graph nodes edges) s t)
    as (value & g' & Hrun & _).
  exists value, g'. split; [exact Hrun|].
  eapply ford_fulkerson_cut_bound; eauto.
Qed.

Lemma engine_value_at_most_every_cut_witness :
  (forall e, In e chain_edges ->
             0 <= e_capacity e /\ 0 <= e_from e < 4 /\ 0 <= e_to e < 4)
  /\ exists value g',
       ford_fulkerson_max_flow (build_graph 4 chain_edges) 0 3 = Ok (value, g')
       /\ value <= cut_capacity chain_edges [0; 1].
Proof.
  assert (H : forall e, In e chain_edges ->
                0 <= e_capacity e /\ 0 <= e_from e < 4 /\ 0 <= e_to e < 4)
    by (apply chain_edges_cases; simpl; lia).
  split; [exact H|].
  apply (engine_value_at_most_every_cut 4 chain_edges 0 3 [0; 1] H).
  - lia.
  - simpl. auto.
  - simpl. intros [E|[E|[]]]; discriminate.
Defined.

(** ** Reading and writing single pairs *)

(** X7.  After [set_flow(u, v, x)], [get_flow] returns [x] on the pair
    [(u, v)] and what it returned before on every other pair, the reverse
    pair [(v, u)] included; the capacities are untouched; and a call of
    [get_flow] changes no value a later [get_flow] returns. *)
Theorem set_flow_get_flow :
  forall g u v x a b c d,
    fst (get_flow (set_flow g u v x) a b)
    = (if (a =? u) && (b =? v) then x else fst (get_flow g a b))
    /\ graph (set_flow g u v x) = graph g
    /\ fst (get_flow (snd (get_flow g a b)) c d) = fst (get_flow g c d).
Proof.
  intros g u v x a b c d. unfold get_flow, set_flow. simpl.
  split; [apply cell_store|]. split; [reflexivity | apply cell_touch].
Qed.

Lemma keys_row_touch m u v :
  keys (row (touch m u v) u)
  = keys (row m u) ++ (if mem v (keys (row m u)) then [] else [v]).
Proof.
  unfold touch. rewrite row_store_same.
  destruct (mem v (keys (row m u))) eqn:E.
  - apply mem_in in E. destruct (keys_get _ _ E) as [x Hx].
    rewrite app_nil_r. eapply keys_set_present; eauto.
  - apply mem_not_in in E. apply get_none_keys in E.
    rewrite set_absent by assumption. unfold keys. now rewrite map_app.
Qed.

(** X8.  [can_send_flow(u, v, x)] answers [True] exactly when [x] is at
    most the residual capacity of [(u, v)].  It changes no capacity and no
    flow value, but when [v] was no key of [self.graph[u]] it becomes its
    last key (with capacity 0), so that the search will look at the pair
    from then on. *)
Theorem can_send_flow_answer_and_effect :
  forall g u v x,
    (fst (can_send_flow g u v x) = true <-> x <= residual g u v)
    /\ (forall a b, residual (snd (can_send_flow g u v x)) a b = residual g a b)
    /\ keys (row (graph (snd (can_send_flow g u v x))) u)
       = keys (row (graph g) u)
         ++ (if mem v (keys (row (graph g) u)) then [] else [v]).
Proof.
  intros g u v x. unfold can_send_flow. simpl. split; [|split].
  - rewrite Z.leb_le. unfold residual. lia.
  - intros a b. unfold residual. simpl. now rewrite !cell_touch.
  - apply keys_row_touch.
Qed.

(** ** Sources without usable edges *)

Lemma source_slack_zero g s :
  (forall v, In v (keys (row (graph g) s)) -> residual g s v <= 0) ->
  source_slack g s = 0.
Proof.
  intros H. unfold source_slack.
  induction (keys (row (graph g) s)) as [|v vs IH]; [reflexivity|].
  rewrite map_cons, sum_cons, IH by (intros w Hw; apply H; now right).
  specialize (H v (or_introl eq_refl)). lia.
Qed.

(** X9.  When no key of the source's capacity row has positive residual
    capacity (no edge at all, a source without outgoing edges, or only
    saturated ones), [ford_fulkerson_max_flow] returns 0 and the flow on
    every ordered pair is what it was. *)
Theorem no_usable_source_edge_gives_zero :
  forall g s t,
    (forall v, In v (keys (row (graph g) s)) -> residual g s v <= 0) ->
    exists g',
      ford_fulkerson_max_flow g s t = Ok (0, g')
      /\ forall u v, flow_value g' u v = flow_value g u v.
Proof.
  intros g s t Hrow. pose proof (source_slack_zero g s Hrow) as Hzero.
  unfold ford_fulkerson_max_flow, ff_fuel. rewrite Hzero. cbn [Z.to_nat ff_loop].
  destruct (augment_spec g s t)
    as [(g1 & Haug & Hsame) | (pf & g2 & es & _ & _ & Hpos & _ & Hslack)].
  - rewrite Haug. cbn [bind]. exists g1. split; [reflexivity|].
    destruct Hsame as (_ & _ & Hc). exact Hc.
  - pose proof (source_slack_nonneg (push_along g2 es pf) s). lia.
Qed.

Lemma no_usable_source_edge_gives_zero_witness :
  (forall v, In v (keys (row (graph chain) 3)) -> residual chain 3 v <= 0)
  /\ exists g',
       ford_fulkerson_max_flow chain 3 0 = Ok (0, g')
       /\ forall u v, flow_value g' u v = flow_value chain u v.
Proof.
  assert (H : forall v, In v (keys (row (graph chain) 3)) -> residual chain 3 v <= 0)
    by (intros v []).
  split; [exact H|].
  apply (no_usable_source_edge_gives_zero chain 3 0 H).
Defined.

(** ** The table built from the supplied flows *)

Lemma well_formed_intro m :
  NoDup (keys m) -> (forall u r, In (u, r) m -> NoDup (keys r)) ->
  well_formed m = true.
Proof.
  intros Hnd Hrows. unfold well_formed.
  rewrite andb_true_iff, distinct_NoDup, forallb_forall. split; auto.
  intros [u r] Hin. apply distinct_NoDup. simpl. eauto.
Qed.

Lemma in_set {A} (d : dict A) k a k' a' :
  In (k', a') (set d k a) -> In (k', a') d \/ (k' = k /\ a' = a).
Proof.
  induction d as [|[k0 a0] d IH]; simpl.
  - intros [E|[]]. inversion E. auto.
  - destruct (Z.eqb_spec k k0) as [->|Hne]; simpl.
    + intros [E|H]; [inversion E; auto | auto].
    + intros [E|H]; [auto | destruct (IH H) as [H'|H']; auto].
Qed.

Lemma store_well_formed m u v x :
  well_formed m = true -> well_formed (store m u v x) = true.
Proof.
  intros Hwf. destruct (well_formed_NoDup m Hwf) as [Hnd Hrows].
  apply well_formed_intro.
  - now apply NoDup_keys_set.
  - intros u' r Hin. unfold store in Hin. apply in_set in Hin.
    destruct Hin as [Hin|[_ ->]]; [eauto|].
    apply NoDup_keys_set. now apply well_formed_row.
Qed.

Lemma fold_store_well_formed flows_ :
  forall m,
    well_formed m = true ->
    well_formed (fold_left (fun m f => let '(u, v, x) := f in store m u v x)
                           flows_ m) = true.
Proof.
  induction flows_ as [|[[u v] x] flows_ IH]; intros m Hwf; simpl; auto.
  apply IH. now apply store_well_formed.
Qed.

Lemma fold_store_keys flows_ a b :
  forall m,
    In b (keys (row (fold_left (fun m f => let '(u, v, x) := f in store m u v x)
                               flows_ m) a)) ->
    In b (keys (row m a)) \/ exists x, In (a, b, x) flows_.
Proof.
  induction flows_ as [|[[u v] x] flows_ IH]; intros m H; simpl in H; auto.
  apply IH in H. destruct H as [H|[x' H]].
  - apply keys_row_store in H. destruct H as [H|[-> ->]]; auto.
    right. exists x. now left.
  - right. exists x'. now right.
Qed.

Lemma heads_in_range_intro vertices m :
  well_formed m = true ->
  (forall u v, In v (keys (row m u)) -> 0 <= v < vertices) ->
  heads_in_range vertices m = true.
Proof.
  intros Hwf Hkeys. destruct (well_formed_NoDup m Hwf) as [Hnd _].
  unfold heads_in_range. apply forallb_forall. intros e He.
  unfold entries in He. apply in_flat_map in He.
  destruct He as ([u r] & Hur & He). simpl in He.
  apply in_map_iff in He. destruct He as ([v x] & <- & Hvx).
  unfold entry_head. simpl.
  assert (Hv : In v (keys (row m u))).
  { unfold row, get_default. rewrite (in_get m u r Hnd Hur).
    unfold keys. apply in_map_iff. now exists (v, x). }
  specialize (Hkeys u v Hv). lia.
Qed.

(** X10.  The table the handler builds from the supplied flows has no
    repeated key at either level; it reads 0 on every pair when nothing is
    supplied; and a further supplied flow on [(u, v)] replaces whatever
    was supplied for that pair before and leaves every other pair as it
    was. *)
Theorem build_user_flow_last_entry_wins :
  forall flows_ u v x a b,
    well_formed (build_user_flow flows_) = true
    /\ cell (build_user_flow []) a b = 0
    /\ cell (build_user_flow (flows_ ++ [(u, v, x)])) a b
       = (if (a =? u) && (b =? v) then x else cell (build_user_flow flows_) a b).
Proof.
  intros flows_ u v x a b. split; [|split].
  - unfold build_user_flow. now apply fold_store_well_formed.
  - reflexivity.
  - unfold build_user_flow. rewrite fold_left_app. simpl. apply cell_store.
Qed.

(** ** The verifier on the empty assignment *)

(** X12.  For the empty flow mapping [verify_maximum_flow] reports the
    user's value 0 and the reference maximum, and reports the assignment
    valid exactly when that maximum is 0. *)
Theorem verify_empty_user_flow :
  forall self s t,
    exists m g',
      ford_fulkerson_max_flow (test_graph_flow_only self) s t = Ok (m, g')
      /\ verify_maximum_flow self s t [] = Ok (0 =? m, 0, m).
Proof.
  intros self s t.
  destruct (verify_maximum_flow_spec self s t []) as (m & g' & Hrun & Hver).
  exists m, g'. split; [exact Hrun|]. rewrite Hver.
  rewrite (conservation_loop_balanced (V self) s t []) by auto.
  assert (H : forallb (balanced (V self) s t []) (range (V self)) = true).
  { apply forallb_forall. intros node _. unfold balanced.
    assert (Hin : inflow [] node = 0) by reflexivity.
    assert (Hout : outflow (V self) [] node = 0).
    { unfold outflow. rewrite (map_ext _ (fun _ => 0)) by reflexivity.
      apply sum_map_zero. }
    rewrite Hin, Hout, Z.eqb_refl. apply orb_true_r. }
  rewrite H. reflexivity.
Qed.

(** ** The request layer: levels *)

Lemma find_level_cases n :
  (1 <= n <= 5 /\ exists level, find_level n = Some level
                                /\ l_id level = n /\ In level LEVELS)
  \/ ((n < 1 \/ 5 < n) /\ find_level n = None).
Proof.
  unfold find_level.
  destruct (find (fun l => l_id l =? n) LEVELS) as [level|] eqn:E.
  - left. apply find_some in E. destruct E as [Hin Hid].
    apply Z.eqb_eq in Hid. split; [|eauto].
    unfold LEVELS in Hin. simpl in Hin.
    destruct Hin as [<-|[<-|[<-|[<-|[<-|[]]]]]]; simpl in Hid; lia.
  - right. split; [|reflexivity].
    assert (H : forall level, In level LEVELS -> l_id level <> n).
    { intros level Hin. apply Z.eqb_neq. apply (find_none _ _ E _ Hin). }
    destruct (Z_lt_le_dec n 1) as [|H1]; [now left|].
    destruct (Z_lt_le_dec 5 n) as [|H5]; [now right|]. exfalso.
    assert (Hn : n = 1 \/ n = 2 \/ n = 3 \/ n = 4 \/ n = 5) by lia.
    destruct Hn as [->|[->|[->|[->| ->]]]];
      [ apply (H (nth 0 LEVELS (mkLevel 0 0 [] 0 0)))
      | apply (H (nth 1 LEVELS (mkLevel 0 0 [] 0 0)))
      | apply (H (nth 2 LEVELS (mkLevel 0 0 [] 0 0)))
      | apply (H (nth 3 LEVELS (mkLevel 0 0 [] 0 0)))
      | apply (H (nth 4 LEVELS (mkLevel 0 0 [] 0 0))) ];
      simpl; auto 10.
Qed.

(** X13.  [get_level] answers, for an id from 1 to 5, with a level of
    [LEVELS] that carries this id, and for every other id with the error
    404. *)
Theorem get_level_by_id :
  forall n,
    (1 <= n <= 5
     /\ exists level, get_level n = LevelFound level
                      /\ l_id level = n /\ In level LEVELS)
    \/ ((n < 1 \/ 5 < n) /\ get_level n = LevelError 404 "Level not found").
Proof.
  intros n. unfold get_level.
  destruct (find_level_cases n) as [(Hn & level & -> & Hid & Hin) | (Hn & ->)].
  - left. split; [exact Hn|]. exists level. auto.
  - right. auto.
Qed.

(** ** The built-in levels *)

Lemma min_cutb_spec nodes edges s t c :
  min_cutb nodes edges s t c = true -> spec_is_min_cut nodes edges s t c.
Proof.
  unfold min_cutb, spec_is_min_cut.
  rewrite andb_true_iff, existsb_exists, forallb_forall.
  intros [(side & Hin & Hc) Hall]. split.
  - exists side. split; [exact Hin | now apply Z.eqb_eq].
  - intros side' Hin'. apply Z.leb_le. now apply Hall.
Qed.

(** X15.  On each of the five levels of [LEVELS], the value
    [ford_fulkerson_max_flow] returns is the capacity of a minimum cut
    separating the level's source from its sink. *)
Theorem built_in_levels_reach_min_cut :
  Forall
    (fun level =>
       exists value g',
         ford_fulkerson_max_flow
           (build_graph (l_nodes level) (l_edges level))
           (l_source level) (l_sink level) = Ok (value, g')
         /\ spec_is_min_cut (l_nodes level) (l_edges level)
                            (l_source level) (l_sink level) value)
    LEVELS.
Proof.
  unfold LEVELS.
  repeat (constructor;
          [eexists; eexists; split;
           [vm_compute; reflexivity
           | apply min_cutb_spec; vm_compute; reflexivity] |]).
  constructor.
Qed.

(** ** The order of the edges *)

Lemma permuted_edges_same_capacities nodes edges1 edges2 u v :
  Permutation edges1 edges2 ->
  cell (graph (build_graph nodes edges1)) u v
  = cell (graph (build_graph nodes edges2)) u v.
Proof.
  intros Hperm. unfold build_graph. rewrite !fold_add_edge_cell.
  f_equal. rewrite !sum_filter.
  generalize (fun e => if (e_from e =? u) && (e_to e =? v)
                       then e_capacity e else 0) as f. intros f.
  induction Hperm; simpl; lia.
Qed.

(** X16.  The value returned depends on the order in which the edges were
    added: there are two edge lists that are permutations of each other,
    and so give the same capacity on every pair, on which
    [ford_fulkerson_max_flow] returns different values for the same source
    and sink. *)
Theorem value_depends_on_insertion_order :
  exists nodes edges1 edges2 s t value1 value2 g1 g2,
    Permutation edges1 edges2
    /\ (forall u v,
          cell (graph (build_graph nodes edges1)) u v
          = cell (graph (build_graph nodes edges2)) u v)
    /\ ford_fulkerson_max_flow (build_graph nodes edges1) s t = Ok (value1, g1)
    /\ ford_fulkerson_max_flow (build_graph nodes edges2) s t = Ok (value2, g2)
    /\ value1 <> value2.
Proof.
  assert (Hperm : Permutation detour_edges detour_edges_reordered).
  { unfold detour_edges, detour_edges_reordered.
    apply perm_skip.
    apply Permutation_trans
      with (l' := [mkEdge 1 3 1; mkEdge 1 2 1; mkEdge 2 5 1; mkEdge 3 5 1;
                   mkEdge 0 4 1; mkEdge 4 2 1]).
    - apply Permutation_sym.
      apply (Permutation_middle [mkEdge 1 2 1; mkEdge 2 5 1]
                                [mkEdge 3 5 1; mkEdge 0 4 1; mkEdge 4 2 1]
                                (mkEdge 1 3 1)).
    - apply perm_skip. apply perm_swap. }
  exists 6, detour_edges, detour_edges_reordered, 0, 5, 1, 2.
  eexists. eexists. split; [exact Hperm|]. split; [|split; [|split]].
  - intros u v. now apply permuted_edges_same_capacities.
  - vm_compute. reflexivity.
  - vm_compute. reflexivity.
  - discriminate.
Qed.

(** ** Maximum flow when every edge has a reverse entry *)

Lemma bfs_path_exists_closed g source sink g' p :
  bfs_path_exists g source sink [] = Ok (false, g', p) ->
  exists vis, search_closed g source sink vis.
Proof.
  intros Hbfs. unfold bfs_path_exists in Hbfs.
  destruct (bfs_loop (bfs_fuel g) sink (mkBfs g [source] [source] []))
    as [[found' st]|e] eqn:Hloop; simpl in Hbfs; [|discriminate].
  inversion Hbfs. subst found' g' p.
  destruct (bfs_loop_found_false g source sink _ _ _
              (bfs_inv_init g source) (bfs_front_init g source sink) Hloop)
    as ((Hsink & Hclosed) & Hq & Hinv).
  exists (visited st). split; [apply (inv_source _ _ _ Hinv)|].
  split; [exact Hsink|].
  intros w Hw. destruct (Hclosed w Hw) as [Hin|Hc]; auto.
  rewrite Hq in Hin. contradiction.
Qed.

Lemma augment_stop g s t g1 :
  augment g s t = Ok (inl g1) ->
  exists p, bfs_path_exists g s t [] = Ok (false, g1, p).
Proof.
  unfold augment.
  destruct (bfs_path_exists g s t []) as [[[found g1'] p]|e]; cbn [bind];
    [|discriminate].
  destruct found.
  - destruct (path_min (path_fuel p) g1' p s t Inf) as [[[|pf] g2]|e];
      cbn [bind]; try discriminate.
    destruct (path_push (path_fuel p) g2 p s t pf); cbn [bind]; discriminate.
  - intros H. inversion H. subst. eauto.
Qed.

Lemma search_closed_same_tables g g0 s t vis :
  same_tables g g0 -> search_closed g0 s t vis -> search_closed g s t vis.
Proof.
  intros Hsame (Hs & Ht & Hclosed). repeat split; auto.
  intros w Hw v Hv Hres. apply (Hclosed w Hw v).
  - destruct Hsame as (_ & Hr & _). now rewrite <- Hr.
  - now rewrite <- (same_tables_residual _ _ _ _ Hsame).
Qed.

Lemma ford_fulkerson_search_closed g s t value g' :
  ford_fulkerson_max_flow g s t = Ok (value, g') ->
  exists vis, search_closed g' s t vis.
Proof.
  intros Hrun. unfold ford_fulkerson_max_flow in Hrun.
  eapply (ff_loop_final (fun g' => exists vis, search_closed g' s t vis) s t);
    [|exact Hrun].
  intros g0 g1 Haug.
  destruct (augment_stop g0 s t g1 Haug) as [p Hbfs].
  destruct (bfs_path_exists_closed g0 s t g1 p Hbfs) as [vis Hvis].
  exists vis. eapply search_closed_same_tables; [|exact Hvis].
  destruct (bfs_path_exists_spec g0 s t) as (f & g1' & p' & Hbfs' & Hsame & _).
  rewrite Hbfs in Hbfs'. inversion Hbfs'. subst. exact Hsame.
Qed.

Lemma cell_absent m u v : ~ In v (keys (row m u)) -> cell m u v = 0.
Proof.
  intros H. unfold cell, get_default.
  apply get_none_keys in H. now rewrite H.
Qed.

Lemma augment_flow_on_keys g s t :
  flow_on_keys g ->
  match augment g s t with
  | Ok (inl g') => flow_on_keys g'
  | Ok (inr (_, g')) => flow_on_keys g'
  | Err _ => True
  end.
Proof.
  intros Hz.
  destruct (augment_detail g s t)
    as [(g1 & Haug & Hsame & _)
       | (pf & g2 & es & p & Haug & Hsame & Hpos & _ & Hclimb & Hedges & Hle)];
    rewrite Haug.
  - intros u v Huv Hvu. destruct Hsame as (_ & Hr & Hc).
    unfold flow_value. rewrite Hc. rewrite Hr in Huv, Hvu. now apply Hz.
  - intros u v Huv Hvu. rewrite push_along_graph in Huv, Hvu.
    destruct Hsame as (_ & Hr & Hc). rewrite Hr in Huv, Hvu.
    unfold flow_value. rewrite push_along_cell, Hc.
    assert (Hocc : forall a b, ~ In b (keys (row (graph g) a)) -> occ a b es = 0).
    { intros a b Hab. pose proof (occ_nonneg a b es) as H0.
      destruct (Z.eq_dec (occ a b es) 0) as [E|Hne]; [exact E|]. exfalso.
      assert (Hin : In (a, b) es) by (apply occ_pos_in; lia).
      apply Hab. apply (Hedges b a). eapply climbs_edges; eauto. }
    rewrite (Hocc u v Huv), (Hocc v u Hvu).
    pose proof (Hz u v Huv Hvu) as E. unfold flow_value in E. lia.
Qed.

Lemma ford_fulkerson_flow_on_keys g s t value g' :
  flow_on_keys g ->
  ford_fulkerson_max_flow g s t = Ok (value, g') ->
  flow_on_keys g'.
Proof.
  intros Hz Hrun. unfold ford_fulkerson_max_flow in Hrun.
  eapply (ff_loop_preserves flow_on_keys s t); [| |exact Hz|exact Hrun].
  - intros g0 g1 H0 Haug.
    pose proof (augment_flow_on_keys g0 s t H0) as Hnext.
    now rewrite Haug in Hnext.
  - intros g0 pf g3 H0 Haug.
    pose proof (augment_flow_on_keys g0 s t H0) as Hnext.
    now rewrite Haug in Hnext.
Qed.

(** The value carried by a conserved antisymmetric flow is what crosses
    any cut. *)
Lemma net_flow_is_crossing_flow g nodes s t side value :
  antisymmetric g ->
  NoDup nodes -> In s nodes ->
  (forall n, net_out g nodes n
             = (if n =? s then value else 0) - (if n =? t then value else 0)) ->
  In s side -> ~ In t side ->
  value = dsum (fun u v => on_side side u * (1 - on_side side v)
                           * flow_value g u v) nodes.
Proof.
  intros Hanti Hnd Hs Hnet Hin Hout.
  assert (Hvalue : value = dsum (fun u v => on_side side u * flow_value g u v) nodes).
  { unfold dsum.
    rewrite (map_ext _ (fun u => if u =? s then value else 0)).
    - symmetry. apply (sum_pick (fun _ => value) s nodes Hnd Hs).
    - intros u. rewrite sum_map_scale.
      change (on_side side u * net_out g nodes u = (if u =? s then value else 0)).
      rewrite Hnet.
      unfold on_side. destruct (Z.eqb_spec u s) as [->|Hus].
      + rewrite (proj2 (mem_in _ _) Hin).
        destruct (Z.eqb_spec s t) as [E|_]; [subst; contradiction | lia].
      + destruct (Z.eqb_spec u t) as [->|_].
        * rewrite (proj2 (mem_not_in _ _) Hout). lia.
        * destruct (mem u side); lia. }
  rewrite Hvalue at 1.
  rewrite (dsum_ext _ (fun u v =>
             on_side side u * on_side side v * flow_value g u v
             + on_side side u * (1 - on_side side v) * flow_value g u v))
    by (intros; lia).
  rewrite dsum_add, dsum_antisymmetric_zero; [lia|].
  intros u v. rewrite (Hanti u v). ring.
Qed.

(** When the search has nothing left to follow, every pair that crosses
    from the nodes it visited to the others carries exactly its
    capacity. *)
Lemma crossing_pairs_saturated g s t vis u v :
  symmetric_keys g -> within_capacity g -> flow_on_keys g ->
  search_closed g s t vis ->
  on_side vis u * (1 - on_side vis v) * flow_value g u v
  = on_side vis u * (1 - on_side vis v) * cell (graph g) u v.
Proof.
  intros Hsym Hcap Hz (_ & _ & Hclosed). unfold on_side.
  destruct (mem u vis) eqn:Eu; [|lia].
  destruct (mem v vis) eqn:Ev; [lia|].
  apply mem_in in Eu. apply mem_not_in in Ev.
  assert (E : flow_value g u v = cell (graph g) u v); [|rewrite E; lia].
  destruct (in_dec Z.eq_dec v (keys (row (graph g) u))) as [Hkey|Hkey].
  - pose proof (Hcap u v) as Hle.
    destruct (Z_lt_le_dec 0 (residual g u v)) as [Hpos|Hnonpos].
    + exfalso. apply Ev. apply (Hclosed u Eu v Hkey Hpos).
    + unfold residual, flow_value in *. lia.
  - rewrite (cell_absent _ _ _ Hkey). apply Hz; auto.
Qed.

Lemma in_subsets_filter (P : Z -> bool) l : In (filter P l) (subsets l).
Proof.
  induction l as [|x l IH]; simpl; [now left|].
  apply in_or_app. destruct (P x).
  - left. apply in_map. exact IH.
  - right. exact IH.
Qed.

Lemma mem_filter (P : Z -> bool) l u : mem u (filter P l) = mem u l && P u.
Proof.
  destruct (mem u (filter P l)) eqn:E.
  - apply mem_in in E. apply filter_In in E. destruct E as [Hin HP].
    rewrite (proj2 (mem_in _ _) Hin), HP. reflexivity.
  - apply mem_not_in in E. destruct (mem u l) eqn:El; [|reflexivity].
    destruct (P u) eqn:EP; [|reflexivity].
    exfalso. apply E. apply filter_In. split; [now apply mem_in | exact EP].
Qed.

Lemma dsum_ext_in (h h' : Z -> Z -> Z) nodes :
  (forall u v, In u nodes -> In v nodes -> h u v = h' u v) ->
  dsum h nodes = dsum h' nodes.
Proof.
  intros H. unfold dsum. f_equal. apply map_ext_in. intros u Hu.
  f_equal. apply map_ext_in. intros v Hv. now apply H.
Qed.

Lemma fold_add_edge_keys_grow edges u v :
  forall g,
    In v (keys (row (graph g) u)) ->
    In v (keys (row (graph (fold_left
                              (fun g e => add_edge g (e_from e) (e_to e) (e_capacity e))
                              edges g)) u)).
Proof.
  induction edges as [|e edges IH]; intros g H; simpl; auto.
  apply IH. unfold add_edge. simpl.
  destruct (Z.eq_dec u (e_from e)) as [->|Hne].
  - rewrite row_store_same.
    destruct (keys_set (row (graph g) (e_from e)) (e_to e)
                (cell (graph g) (e_from e) (e_to e) + e_capacity e))
      as [->|[_ ->]]; auto.
    apply in_or_app. now left.
  - now rewrite row_store_other.
Qed.

Lemma fold_add_edge_keys_edge edges :
  forall g e,
    In e edges ->
    In (e_to e)
       (keys (row (graph (fold_left
                           (fun g e => add_edge g (e_from e) (e_to e) (e_capacity e))
                           edges g)) (e_from e))).
Proof.
  induction edges as [|e0 edges IH]; intros g e Hin; [contradiction|].
  simpl. destruct Hin as [->|Hin]; [|now apply IH].
  apply fold_add_edge_keys_grow. unfold add_edge. simpl.
  rewrite row_store_same. unfold keys.
  apply in_map_iff. exists (e_to e, cell (graph g) (e_from e) (e_to e) + e_capacity e).
  split; [reflexivity|]. apply get_in. apply get_set_same.
Qed.

Lemma build_graph_symmetric_keys nodes edges :
  reverse_edges edges -> symmetric_keys (build_graph nodes edges).
Proof.
  intros Hrev u v Hv. unfold build_graph in *.
  apply fold_add_edge_keys in Hv.
  destruct Hv as [[]|(e & He & <- & <-)].
  destruct (Hrev e He) as (e' & He' & <- & <-).
  now apply fold_add_edge_keys_edge.
Qed.

Lemma ford_fulkerson_reaches_cut nodes edges s t value g' :
  (forall e, In e edges ->
             0 <= e_capacity e
             /\ 0 <= e_from e < nodes /\ 0 <= e_to e < nodes) ->
  reverse_edges edges ->
  0 <= s < nodes -> s <> t ->
  ford_fulkerson_max_flow (build_graph nodes edges) s t = Ok (value, g') ->
  exists side, In side (cuts nodes s t) /\ cut_capacity edges side = value.
Proof.
  intros Hedges Hrev Hs Hst Hrun.
  set (g := build_graph nodes edges) in *.
  assert (Hzero : forall u v, flow_value g u v = 0).
  { intros u v. unfold flow_value, g, build_graph.
    now rewrite fold_add_edge_flow. }
  assert (Hcap : within_capacity g)
    by (apply build_graph_within_capacity; intros e He; apply (Hedges e He)).
  assert (Hcov : covers (range nodes) g s)
    by (apply build_graph_covers; [intros e He; apply (Hedges e He) | exact Hs]).
  destruct (ford_fulkerson_within_capacity g s t value g' Hcap Hrun) as [Hcap' Hrows].
  pose proof (ford_fulkerson_antisymmetric g s t value g'
                (zero_flow_antisymmetric g Hzero) Hrun) as Hanti'.
  assert (Hz' : flow_on_keys g').
  { apply (ford_fulkerson_flow_on_keys g s t value g'); [|exact Hrun].
    intros u v _ _. apply Hzero. }
  assert (Hsym' : symmetric_keys g').
  { intros u v Hv. rewrite Hrows in *.
    now apply (build_graph_symmetric_keys nodes edges Hrev). }
  destruct (ford_fulkerson_search_closed g s t value g' Hrun) as [vis Hvis].
  pose proof Hvis as (Hsv & Htv & _).
  assert (Htv' : ~ In t vis) by (intros H; apply Hst; symmetry; auto).
  pose proof Hcov as (Hnd & Hsn & _).
  set (side := filter (fun u => mem u vis) (range nodes)).
  exists side. split.
  - unfold cuts. apply filter_In. split; [apply in_subsets_filter|].
    unfold side. rewrite !mem_filter.
    rewrite (proj2 (mem_in _ _) Hsn), (proj2 (mem_in _ _) Hsv),
            (proj2 (mem_not_in _ _) Htv').
    now rewrite andb_false_r.
  - rewrite <- (built_cut_capacity nodes edges side)
      by (intros e He; apply (Hedges e He)).
    fold g.
    rewrite (dsum_ext_in _ (fun u v => on_side vis u * (1 - on_side vis v)
                                       * flow_value g' u v)).
    + symmetry.
      apply (net_flow_is_crossing_flow g' (range nodes) s t vis value); auto.
      intros n. unfold ford_fulkerson_max_flow in Hrun.
      rewrite (ff_loop_net_out s t (range nodes) n _ _ _ _ _ Hcov Hrun).
      assert (H0 : net_out g (range nodes) n = 0).
      { unfold net_out. rewrite (map_ext _ (fun _ => 0)) by (intros v; apply Hzero).
        apply sum_map_zero. }
      rewrite H0, Z.sub_0_r. lia.
    + intros u v Hu Hv.
      rewrite (crossing_pairs_saturated g' s t vis u v Hsym' Hcap' Hz' Hvis).
      unfold on_side, side. rewrite !mem_filter.
      rewrite (proj2 (mem_in _ _) Hu), (proj2 (mem_in _ _) Hv). simpl.
      unfold cell. now rewrite Hrows.
Qed.

(** X17.  For a graph built from edges with non-negative capacities between
    nodes of [range(nodes)] in which every edge comes with an edge on the
    reverse pair (its capacity may be 0), and a source in that range
    different from the sink, [ford_fulkerson_max_flow] returns the capacity
    of a minimum cut separating source from sink. *)
Theorem engine_reaches_min_cut_with_reverse_edges :
  forall nodes edges s t,
    (forall e, In e edges ->
               0 <= e_capacity e
               /\ 0 <= e_from e < nodes /\ 0 <= e_to e < nodes) ->
    reverse_edges edges ->
    0 <= s < nodes -> s <> t ->
    exists value g',
      ford_fulkerson_max_flow (build_graph nodes edges) s t = Ok (value, g')
      /\ spec_is_min_cut nodes edges s t value.
Proof.
  intros nodes edges s t Hedges Hrev Hs Hst.
  destruct (ford_fulkerson_max_flow_total (build_graph nodes edges) s t)
    as (value & g' & Hrun & _).
  exists value, g'. split; [exact Hrun|]. split.
  - eapply ford_fulkerson_reaches_cut; eauto.
  - intros side Hin. unfold cuts in Hin. apply filter_In in Hin.
    destruct Hin as [_ Hside]. apply andb_true_iff in Hside.
    destruct Hside as [Hsin Htout].
    apply mem_in in Hsin. apply negb_true_iff in Htout. apply mem_not_in in Htout.
    eapply ford_fulkerson_cut_bound; eauto.
Qed.

Lemma chain_both_ways_cases (P : Edge -> Prop) :
  P (mkEdge 0 1 10) -> P (mkEdge 1 0 0) -> P (mkEdge 1 2 5) ->
  P (mkEdge 2 1 0) -> P (mkEdge 2 3 15) -> P (mkEdge 3 2 0) ->
  forall e, In e chain_both_ways -> P e.
Proof.
  intros H1 H2 H3 H4 H5 H6 e [<-|[<-|[<-|[<-|[<-|[<-|[]]]]]]]; assumption.
Defined.

Lemma chain_both_ways_reverse : reverse_edges chain_both_ways.
Proof.
  unfold reverse_edges.
  apply (chain_both_ways_cases
           (fun e => exists e', In e' chain_both_ways
                                /\ e_from e' = e_to e /\ e_to e' = e_from e));
    [ exists (mkEdge 1 0 0) | exists (mkEdge 0 1 10) | exists (mkEdge 2 1 0)
    | exists (mkEdge 1 2 5) | exists (mkEdge 3 2 0) | exists (mkEdge 2 3 15) ];
    simpl; intuition.
Defined.

Lemma engine_reaches_min_cut_with_reverse_edges_witness :
  (forall e, In e chain_both_ways ->
             0 <= e_capacity e /\ 0 <= e_from e < 4 /\ 0 <= e_to e < 4)
  /\ reverse_edges chain_both_ways
  /\ exists value g',
       ford_fulkerson_max_flow (build_graph 4 chain_both_ways) 0 3 = Ok (value, g')
       /\ spec_is_min_cut 4 chain_both_ways 0 3 value.
Proof.
  assert (H : forall e, In e chain_both_ways ->
                0 <= e_capacity e /\ 0 <= e_from e < 4 /\ 0 <= e_to e < 4)
    by (apply chain_both_ways_cases; simpl; lia).
  split; [exact H|]. split; [exact chain_both_ways_reverse|].
  apply (engine_reaches_min_cut_with_reverse_edges 4 chain_both_ways 0 3 H
           chain_both_ways_reverse); [lia | discriminate].
Defined.

(** ** The copy the reference answer is computed on *)

Lemma copy_row src u rest :
  forall done tg,
    NoDup (keys (done ++ rest)) ->
    row (graph tg) u = done ->
    (forall v x, In (v, x) rest -> cell src u v = x) ->
    row (graph (fold_left (fun tg' v => add_edge tg' u v (cell src u v))
                          (keys rest) tg)) u = done ++ rest
    /\ (forall u', u' <> u ->
          row (graph (fold_left (fun tg' v => add_edge tg' u v (cell src u v))
                                (keys rest) tg)) u' = row (graph tg) u')
    /\ flow (fold_left (fun tg' v => add_edge tg' u v (cell src u v))
                       (keys rest) tg) = flow tg.
Proof.
  induction rest as [|[v x] rest IH]; intros done tg Hnd Hrow Hcells.
  - simpl. rewrite app_nil_r. auto.
  - simpl.
    assert (Hv : ~ In v (keys done)).
    { unfold keys in *. rewrite map_app in Hnd. simpl in Hnd.
      apply NoDup_remove_2 in Hnd. intros H. apply Hnd.
      apply in_or_app. now left. }
    assert (Hstep : row (graph (add_edge tg u v (cell src u v))) u
                    = done ++ [(v, x)]).
    { unfold add_edge. simpl. rewrite row_store_same, Hrow.
      rewrite (Hcells v x (or_introl eq_refl)).
      unfold cell. rewrite Hrow.
      pose proof (proj2 (get_none_keys done v) Hv) as Hnone.
      unfold get_default. rewrite Hnone. rewrite set_absent by assumption.
      reflexivity. }
    destruct (IH (done ++ [(v, x)]) (add_edge tg u v (cell src u v)))
      as (H1 & H2 & H3).
    + now rewrite <- app_assoc.
    + exact Hstep.
    + intros v' x' Hin. apply Hcells. now right.
    + rewrite <- app_assoc in H1. split; [exact H1|]. split.
      * intros u' Hne. rewrite (H2 u' Hne). unfold add_edge. simpl.
        now apply row_store_other.
      * rewrite H3. reflexivity.
Qed.

Lemma copy_rows src us :
  forall tg,
    NoDup us ->
    (forall u, In u us -> NoDup (keys (row src u))) ->
    (forall u, In u us -> row (graph tg) u = []) ->
    forall u,
      row (graph (fold_left
                    (fun tg u => fold_left
                                   (fun tg' v => add_edge tg' u v (cell src u v))
                                   (keys (row src u)) tg)
                    us tg)) u
      = if mem u us then row src u else row (graph tg) u.
Proof.
  induction us as [|u0 us IH]; intros tg Hnd Hrows Hempty u; [reflexivity|].
  inversion Hnd as [|? ? Hu0 Hus]. subst. simpl.
  destruct (copy_row src u0 (row src u0) [] tg) as (H1 & H2 & _).
  - simpl. apply Hrows. now left.
  - apply Hempty. now left.
  - intros v x Hin. unfold cell, get_default.
    rewrite (in_get (row src u0) v x); auto. apply Hrows. now left.
  - rewrite IH; auto.
    + destruct (Z.eqb_spec u u0) as [->|Hne]; simpl.
      * rewrite (proj2 (mem_not_in _ _) Hu0). exact H1.
      * destruct (mem u us); [reflexivity | now apply H2].
    + intros u' Hu'. apply Hrows. now right.
    + intros u' Hu'. rewrite H2; [apply Hempty; now right|].
      intros ->. contradiction.
Qed.

(** X18.  When the capacity table is a well-formed dictionary of
    dictionaries, the graph [verify_maximum_flow] runs the engine on has,
    for every node, the same capacity row as the original, keys in the
    same order; its flow table is empty whatever [self.flow] holds, and
    its node count is [self.V]. *)
Theorem test_graph_flow_only_is_a_copy :
  forall self,
    well_formed (graph self) = true ->
    (forall u, row (graph (test_graph_flow_only self)) u = row (graph self) u)
    /\ flow (test_graph_flow_only self) = []
    /\ V (test_graph_flow_only self) = V self.
Proof.
  intros self Hwf. destruct (well_formed_NoDup _ Hwf) as [Hnd Hrows].
  split; [|split].
  - intros u. unfold test_graph_flow_only, copy_structure.
    rewrite copy_rows; auto.
    + destruct (mem u (keys (graph self))) eqn:E; [reflexivity|].
      apply mem_not_in in E. apply get_none_keys in E.
      unfold row, get_default. now rewrite E.
    + intros u' _. now apply well_formed_row.
  - apply copy_structure_flow.
  - unfold test_graph_flow_only, copy_structure.
    assert (H : forall us tg,
              V (fold_left
                   (fun tg u => fold_left
                                  (fun tg' v => add_edge tg' u v (cell (graph self) u v))
                                  (keys (row (graph self) u)) tg) us tg) = V tg).
    { induction us as [|u us IH]; intros tg; simpl; auto.
      rewrite IH. generalize (keys (row (graph self) u)) as vs.
      intros vs. revert tg. induction vs as [|v vs IHv]; intros tg; simpl; auto.
      now rewrite IHv. }
    rewrite H. reflexivity.
Qed.

Lemma test_graph_flow_only_is_a_copy_witness :
  well_formed (graph chain) = true
  /\ (forall u, row (graph (test_graph_flow_only chain)) u = row (graph chain) u)
  /\ flow (test_graph_flow_only chain) = []
  /\ V (test_graph_flow_only chain) = V chain.
Proof.
  split; [reflexivity|].
  apply (test_graph_flow_only_is_a_copy chain). reflexivity.
Defined.

(** ** What the search hands back, and what one pass does with it *)

(** X19.  [bfs_path_exists] called with an empty [parent] returns, and the
    graph object has the same node count, capacity rows and flow values
    as before.  When the answer is [True], following [parent] from the
    sink reaches the source after at least one and at most [len(parent)]
    steps, never meets a node twice, and every step goes back along an
    edge [(u, v)] with [v] a key of [self.graph[u]] and positive residual
    capacity. *)
Theorem bfs_path_exists_parent_path :
  forall g s t,
    exists found g' p,
      bfs_path_exists g s t [] = Ok (found, g', p)
      /\ same_tables g' g
      /\ if found
         then exists es,
                climbs p s t es /\ es <> []
                /\ (List.length es <= List.length p)%nat
                /\ NoDup (map snd es)
                /\ forall e, In e es ->
                     In (snd e) (keys (row (graph g) (fst e)))
                     /\ 0 < residual g (fst e) (snd e)
         else True.
Proof.
  intros g s t.
  destruct (bfs_path_exists_spec g s t)
    as (found & g' & p & Hbfs & Hsame & Hedges & Hfound).
  exists found, g', p. split; [exact Hbfs|]. split; [exact Hsame|].
  destruct found; [|exact I].
  destruct (Hfound eq_refl) as (Hne & es & Hclimb & Hlen).
  exists es. split; [exact Hclimb|]. split.
  - destruct (climbs_last p s t es Hclimb Hne) as (es' & x & -> & _).
    destruct es'; discriminate.
  - split; [exact Hlen|]. split; [eapply climbs_heads_NoDup; eauto|].
    intros [a b] Hin. simpl.
    destruct (Hedges b a (climbs_edges p s t es Hclimb a b Hin)) as (_ & H1 & H2).
    auto.
Qed.

Lemma min_along_fin_attained g es :
  forall a pf,
    min_along g es (Fin a) = Fin pf ->
    pf = a \/ exists e, In e es /\ pf = residual g (fst e) (snd e).
Proof.
  induction es as [|e es IH]; intros a pf H.
  - simpl in H. inversion H. now left.
  - simpl in H. apply IH in H. destruct H as [H|(e' & He' & H)].
    + destruct (Z.min_spec a (residual g (fst e) (snd e))) as [[_ E]|[_ E]];
        rewrite E in H; [now left|]. right. exists e. split; [now left | exact H].
    + right. exists e'. split; [now right | exact H].
Qed.

Lemma min_along_inf_attained g es pf :
  min_along g es Inf = Fin pf ->
  exists e, In e es /\ pf = residual g (fst e) (snd e).
Proof.
  destruct es as [|e es]; [discriminate|]. simpl. intros H.
  apply min_along_fin_attained in H. destruct H as [H|(e' & He' & H)].
  - exists e. split; [now left | exact H].
  - exists e'. split; [now right | exact H].
Qed.

(** X20.  One pass of the loop of [ford_fulkerson_max_flow] never fails.
    Either the search fails and the pass changes no capacity row and no
    flow value, or it pushes along the path the parent pointers describe
    an amount that is strictly positive and is the smallest residual
    capacity on the path: the flow grows by that amount on every edge of
    the path, drops by it on the reverse of every edge, and is unchanged
    on every other pair; the capacity rows are unchanged. *)
Theorem augment_pushes_the_bottleneck :
  forall g s t,
    match augment g s t with
    | Ok (inl g') => same_tables g' g
    | Ok (inr (pf, g')) =>
        exists p es,
          climbs p s t es
          /\ 0 < pf
          /\ (forall e, In e es -> pf <= residual g (fst e) (snd e))
          /\ (exists e, In e es /\ pf = residual g (fst e) (snd e))
          /\ (forall a b, flow_value g' a b
                          = flow_value g a b + pf * occ a b es - pf * occ b a es)
          /\ (forall a b, occ a b es <= 1)
          /\ (forall u, row (graph g') u = row (graph g) u)
    | Err _ => False
    end.
Proof.
  intros g s t.
  destruct (augment_full g s t)
    as [(g1 & Haug & Hsame & _)
       | (pf & g2 & es & p & Haug & Hsame & Hpos & _ & Hclimb & _ & Hle & Hmin)];
    rewrite Haug; [exact Hsame|].
  exists p, es. split; [exact Hclimb|]. split; [exact Hpos|].
  split; [exact Hle|]. split; [now apply min_along_inf_attained|].
  destruct Hsame as (_ & Hr & Hc). split; [|split].
  - intros a b. unfold flow_value. now rewrite push_along_cell, Hc.
  - intros a b. apply occ_le_1. eapply climbs_heads_NoDup; eauto.
  - intros u. rewrite push_along_graph. apply Hr.
Qed.

(* ================================================================= *)
(** * The verifier on every supplied table *)

(** ** What the conservation loop of the code sums *)

Lemma range_lookup_sum_within (r : dict Z) n :
  NoDup (keys r) ->
  sum (map (fun v => get_default r v 0) (range n))
  = sum (map snd (filter (fun kv => (0 <=? fst kv) && (fst kv <? n)) r)).
Proof.
  induction r as [|[k x] r IH]; intros Hnd.
  - simpl. unfold get_default. simpl. induction (range n); simpl; lia.
  - simpl in Hnd. inversion Hnd as [|? ? Hk Hr]. subst.
    rewrite (map_ext _ (fun v => if v =? k then x else get_default r v 0)).
    + cbn [filter fst].
      destruct ((0 <=? k) && (k <? n)) eqn:E.
      * apply andb_true_iff in E. destruct E as [E1 E2].
        apply Z.leb_le in E1. apply Z.ltb_lt in E2.
        rewrite sum_point;
          [| apply range_NoDup | apply in_range; lia].
        rewrite (IH Hr). rewrite map_cons, sum_cons. cbn [snd].
        unfold get_default. apply get_none_keys in Hk. rewrite Hk. lia.
      * rewrite sum_point_absent; [now apply IH|].
        intros Hin. apply in_range in Hin.
        apply andb_false_iff in E.
        destruct E as [E|E]; [apply Z.leb_gt in E | apply Z.ltb_ge in E]; lia.
    + intros v. unfold get_default. simpl. now destruct (v =? k).
Qed.

Lemma outflow_within_spec vertices m node :
  well_formed m = true ->
  outflow vertices m node = spec_outflow_within vertices m node.
Proof.
  intros Hwf. destruct (well_formed_NoDup m Hwf) as [Hnd Hrows].
  unfold outflow. rewrite range_lookup_sum_within by now apply well_formed_row.
  unfold spec_outflow_within, entries.
  rewrite (sum_filter entry_value), sum_flat_map.
  unfold row.
  rewrite <- (lookup_sum m node
                (fun r => sum (map snd
                                   (filter (fun kv => (0 <=? fst kv) && (fst kv <? vertices))
                                           r)))
                [] Hnd eq_refl).
  f_equal. apply map_ext. intros [u r]. simpl. rewrite map_map.
  unfold entry_tail, entry_head, entry_value. simpl.
  destruct (u =? node); simpl.
  - induction r as [|[v x] r IH]; simpl; auto.
    destruct ((0 <=? v) && (v <? vertices)); simpl; lia.
  - symmetry. apply sum_map_zero.
Qed.

Lemma conservation_loop_within vertices s t m :
  well_formed m = true ->
  (conservation_loop vertices s t (range vertices) m = true
   <-> conserved_within vertices s t m).
Proof.
  intros Hwf.
  rewrite (conservation_loop_balanced vertices s t m) by auto.
  rewrite forallb_forall. unfold conserved_within, balanced. split.
  - intros H node Hnode Hs Ht. specialize (H node (proj2 (in_range _ _) Hnode)).
    apply Z.eqb_neq in Hs, Ht. rewrite Hs, Ht in H. simpl in H.
    apply Z.eqb_eq in H.
    now rewrite <- inflow_spec, <- (outflow_within_spec vertices) by assumption.
  - intros H node Hnode. apply in_range in Hnode.
    destruct (Z.eqb_spec node s); simpl; auto.
    destruct (Z.eqb_spec node t); simpl; auto.
    apply Z.eqb_eq.
    rewrite inflow_spec, (outflow_within_spec vertices) by assumption. auto.
Qed.

(** When every supplied entry ends at a node of the graph, the outflow
    the code sums is the whole outflow. *)
Lemma spec_outflow_within_all vertices m node :
  heads_in_range vertices m = true ->
  spec_outflow_within vertices m node = spec_outflow m node.
Proof.
  unfold heads_in_range, spec_outflow_within, spec_outflow.
  rewrite forallb_forall. intros H. f_equal. f_equal.
  induction (entries m) as [|e es IH]; simpl; auto.
  rewrite (H e (or_introl eq_refl)), andb_true_r.
  rewrite IH; auto. intros e' He'. apply H. now right.
Qed.

Lemma conserved_within_all vertices s t m :
  heads_in_range vertices m = true ->
  (conserved_within vertices s t m <-> spec_conserved vertices s t m).
Proof.
  intros Hrange. unfold conserved_within, spec_conserved.
  split; intros H node Hnode Hs Ht; specialize (H node Hnode Hs Ht).
  - now rewrite <- (spec_outflow_within_all vertices).
  - now rewrite (spec_outflow_within_all vertices).
Qed.

Lemma verify_maximum_flow_valid_iff self s t uf :
  well_formed uf = true ->
  exists is_valid value m g',
    ford_fulkerson_max_flow (test_graph_flow_only self) s t = Ok (m, g')
    /\ verify_maximum_flow self s t uf = Ok (is_valid, value, m)
    /\ (is_valid = true
        <-> conserved_within (V self) s t uf /\ spec_user_flow_value s uf = m).
Proof.
  intros Hwf.
  destruct (verify_maximum_flow_spec self s t uf) as (m & g' & Hrun & Hver).
  pose proof (conservation_loop_within (V self) s t uf Hwf) as Hcons.
  rewrite <- (source_outflow_spec s uf Hwf).
  destruct (conservation_loop (V self) s t (range (V self)) uf).
  - exists (source_outflow s uf =? m), (source_outflow s uf), m, g'.
    split; [assumption|]. split; [assumption|].
    rewrite Z.eqb_eq. split; [intros H; split; [now apply Hcons | assumption]
                             | intros [_ H]; assumption].
  - exists false, 0, m, g'. split; [assumption|]. split; [assumption|].
    split; [discriminate|]. intros [H _]. apply Hcons in H. discriminate.
Qed.

(** ** The graph the reference maximum is computed on *)

Lemma test_graph_flow_only_rows self :
  well_formed (graph self) = true ->
  forall u, row (graph (test_graph_flow_only self)) u = row (graph self) u.
Proof.
  intros Hwf u. destruct (well_formed_NoDup _ Hwf) as [Hnd Hrows].
  unfold test_graph_flow_only, copy_structure.
  rewrite copy_rows; auto.
  - destruct (mem u (keys (graph self))) eqn:E; [reflexivity|].
    apply mem_not_in in E. apply get_none_keys in E.
    unfold row, get_default. now rewrite E.
  - intros u' _. now apply well_formed_row.
Qed.

Lemma copy_structure_V src target : V (copy_structure src target) = V target.
Proof.
  unfold copy_structure. generalize (keys src) as us. intros us.
  revert target. induction us as [|u us IH]; intros target; simpl; auto.
  rewrite IH. generalize (keys (row src u)) as vs. intros vs.
  revert target. induction vs as [|v vs IHv]; intros target; simpl; auto.
  now rewrite IHv.
Qed.

Lemma test_graph_flow_only_V self : V (test_graph_flow_only self) = V self.
Proof.
  unfold test_graph_flow_only. now rewrite copy_structure_V.
Qed.

(** ** The verifier: validity *)

(** Validity without conservation, at the stray flow on the chain: the
    table has no repeated key, five units enter node 1 and twelve leave
    it, so conservation fails at a node other than source and sink, and
    [verify_maximum_flow] reports the assignment valid. *)
Lemma stray_flow_valid_without_conservation :
  well_formed stray_flow = true
  /\ verify_maximum_flow chain 0 3 stray_flow = Ok (true, 5, 5)
  /\ ~ spec_conserved (V chain) 0 3 stray_flow.
Proof.
  split; [reflexivity|]. split; [vm_compute; reflexivity|].
  intros H. assert (H1 : spec_inflow stray_flow 1 = spec_outflow stray_flow 1).
  { apply H; [vm_compute; split; [discriminate | reflexivity] | lia | lia]. }
  vm_compute in H1. discriminate.
Qed.

(** C3, as the code has it.  For a capacity table and a supplied flow
    mapping that are dictionaries of dictionaries (no key twice),
    [verify_maximum_flow] returns [is_valid = True] if and only if, at
    every node of [[0, V)] other than source and sink, the supplied values
    entering the node add up to the supplied values leaving it towards
    nodes of [[0, V)], and the sum of the positive supplied entries leaving
    the source equals the maximum computed by the engine on
    [test_graph_flow_only], which has the capacity rows of [self], the node
    count of [self] and an empty flow table.  The capacities occur in the
    condition only through that maximum.  When every supplied entry ends at
    a node of [[0, V)], the condition on the nodes is conservation. *)
Theorem verifier_valid_iff_checked_conservation_and_maximal :
  forall self s t uf,
    well_formed uf = true ->
    well_formed (graph self) = true ->
    exists is_valid value m g',
      (forall u, row (graph (test_graph_flow_only self)) u = row (graph self) u)
      /\ V (test_graph_flow_only self) = V self
      /\ flow (test_graph_flow_only self) = []
      /\ ford_fulkerson_max_flow (test_graph_flow_only self) s t = Ok (m, g')
      /\ verify_maximum_flow self s t uf = Ok (is_valid, value, m)
      /\ (is_valid = true
          <-> conserved_within (V self) s t uf /\ spec_user_flow_value s uf = m)
      /\ (heads_in_range (V self) uf = true ->
          (is_valid = true
           <-> spec_conserved (V self) s t uf /\ spec_user_flow_value s uf = m)).
Proof.
  intros self s t uf Hwf Hg.
  destruct (verify_maximum_flow_valid_iff self s t uf Hwf)
    as (is_valid & value & m & g' & Hrun & Hver & Hiff).
  exists is_valid, value, m, g'.
  split; [now apply test_graph_flow_only_rows|].
  split; [apply test_graph_flow_only_V|].
  split; [apply copy_structure_flow|].
  split; [exact Hrun|]. split; [exact Hver|]. split; [exact Hiff|].
  intros Hrange. rewrite <- (conserved_within_all (V self) s t uf Hrange).
  exact Hiff.
Qed.

Lemma verifier_valid_iff_checked_conservation_and_maximal_witness :
  well_formed overloaded_flow = true
  /\ well_formed (graph diamond) = true
  /\ exists is_valid value m g',
       (forall u, row (graph (test_graph_flow_only diamond)) u
                  = row (graph diamond) u)
       /\ V (test_graph_flow_only diamond) = V diamond
       /\ flow (test_graph_flow_only diamond) = []
       /\ ford_fulkerson_max_flow (test_graph_flow_only diamond) 0 3 = Ok (m, g')
       /\ verify_maximum_flow diamond 0 3 overloaded_flow = Ok (is_valid, value, m)
       /\ (is_valid = true
           <-> conserved_within (V diamond) 0 3 overloaded_flow
               /\ spec_user_flow_value 0 overloaded_flow = m)
       /\ (heads_in_range (V diamond) overloaded_flow = true ->
           (is_valid = true
            <-> spec_conserved (V diamond) 0 3 overloaded_flow
                /\ spec_user_flow_value 0 overloaded_flow = m)).
Proof.
  split; [reflexivity|]. split; [reflexivity|].
  apply (verifier_valid_iff_checked_conservation_and_maximal
           diamond 0 3 overloaded_flow); reflexivity.
Defined.

(** ** The verifier: the reference maximum *)

(** C4.  For a fixed graph object whose capacity table is a dictionary of
    dictionaries (no key twice), and fixed source and sink, the third
    component returned by [verify_maximum_flow] is the same for any two
    supplied flow mappings: it is the value the engine returns on
    [test_graph_flow_only], a fresh graph that has, for every node, the
    capacity row of [self], the node count of [self], and an empty flow
    table. *)
Theorem reference_maximum_ignores_user_flow :
  forall self s t uf1 uf2,
    well_formed (graph self) = true ->
    exists m g',
      (forall u, row (graph (test_graph_flow_only self)) u = row (graph self) u)
      /\ V (test_graph_flow_only self) = V self
      /\ flow (test_graph_flow_only self) = []
      /\ ford_fulkerson_max_flow (test_graph_flow_only self) s t = Ok (m, g')
      /\ (exists is_valid value,
             verify_maximum_flow self s t uf1 = Ok (is_valid, value, m))
      /\ (exists is_valid value,
             verify_maximum_flow self s t uf2 = Ok (is_valid, value, m)).
Proof.
  intros self s t uf1 uf2 Hg.
  destruct (verify_maximum_flow_spec self s t uf1) as (m & g' & Hrun & Hver1).
  destruct (verify_maximum_flow_spec self s t uf2) as (m2 & g2 & Hrun2 & Hver2).
  rewrite Hrun in Hrun2. inversion Hrun2. subst m2 g2.
  exists m, g'.
  split; [now apply test_graph_flow_only_rows|].
  split; [apply test_graph_flow_only_V|].
  split; [apply copy_structure_flow|]. split; [assumption|].
  split.
  - rewrite Hver1. destruct (conservation_loop _ _ _ _ uf1); eauto.
  - rewrite Hver2. destruct (conservation_loop _ _ _ _ uf2); eauto.
Qed.

Lemma reference_maximum_ignores_user_flow_witness :
  well_formed (graph chain) = true
  /\ exists m g',
       (forall u, row (graph (test_graph_flow_only chain)) u = row (graph chain) u)
       /\ V (test_graph_flow_only chain) = V chain
       /\ flow (test_graph_flow_only chain) = []
       /\ ford_fulkerson_max_flow (test_graph_flow_only chain) 0 3 = Ok (m, g')
       /\ (exists is_valid value,
              verify_maximum_flow chain 0 3 chain_flow_3 = Ok (is_valid, value, m))
       /\ (exists is_valid value,
              verify_maximum_flow chain 0 3 stray_flow = Ok (is_valid, value, m)).
Proof.
  split; [reflexivity|].
  apply (reference_maximum_ignores_user_flow chain 0 3 chain_flow_3 stray_flow).
  reflexivity.
Defined.

(** ** The verifier: conservation violations *)

(** A violation that is not reported, at the stray flow on the chain:
    node 1 is a node of the chain other than source and sink, the supplied
    inflow 5 differs from the supplied outflow 12 there, and
    [verify_maximum_flow] returns [True] and the user's value 5. *)
Lemma stray_flow_violation_not_reported :
  well_formed stray_flow = true
  /\ 0 <= 1 < V chain /\ 1 <> 0 /\ 1 <> 3
  /\ spec_inflow stray_flow 1 <> spec_outflow stray_flow 1
  /\ verify_maximum_flow chain 0 3 stray_flow = Ok (true, 5, 5)
  /\ forall m, verify_maximum_flow chain 0 3 stray_flow <> Ok (false, 0, m).
Proof.
  split; [reflexivity|].
  split; [vm_compute; split; [discriminate | reflexivity]|].
  split; [lia|]. split; [lia|].
  split; [vm_compute; discriminate|].
  assert (H : verify_maximum_flow chain 0 3 stray_flow = Ok (true, 5, 5))
    by (vm_compute; reflexivity).
  split; [exact H|]. intros m. rewrite H. discriminate.
Qed.

(** C5, as the code has it.  For a capacity table and a supplied flow
    mapping that are dictionaries of dictionaries (no key twice): when, at
    some node of [[0, V)] other than source and sink, the supplied values
    entering the node do not add up to the supplied values leaving it
    towards nodes of [[0, V)], [verify_maximum_flow] returns [False], 0 as
    the user's value whatever the supplied entries leaving the source, and
    the maximum computed by the engine on [test_graph_flow_only], which
    has the capacity rows of [self], the node count of [self] and an empty
    flow table. *)
Theorem checked_conservation_violation_reports_zero :
  forall self s t uf node,
    well_formed uf = true ->
    well_formed (graph self) = true ->
    0 <= node < V self -> node <> s -> node <> t ->
    spec_inflow uf node <> spec_outflow_within (V self) uf node ->
    exists m g',
      (forall u, row (graph (test_graph_flow_only self)) u = row (graph self) u)
      /\ V (test_graph_flow_only self) = V self
      /\ flow (test_graph_flow_only self) = []
      /\ ford_fulkerson_max_flow (test_graph_flow_only self) s t = Ok (m, g')
      /\ verify_maximum_flow self s t uf = Ok (false, 0, m).
Proof.
  intros self s t uf node Hwf Hg Hnode Hs Ht Hdiff.
  destruct (verify_maximum_flow_spec self s t uf) as (m & g' & Hrun & Hver).
  exists m, g'.
  split; [now apply test_graph_flow_only_rows|].
  split; [apply test_graph_flow_only_V|].
  split; [apply copy_structure_flow|].
  split; [assumption|]. rewrite Hver.
  destruct (conservation_loop (V self) s t (range (V self)) uf) eqn:E; auto.
  apply (conservation_loop_within (V self) s t uf Hwf) in E.
  exfalso. apply Hdiff. now apply E.
Qed.

Lemma checked_conservation_violation_reports_zero_witness :
  well_formed leaking_flow = true
  /\ well_formed (graph chain) = true
  /\ spec_inflow leaking_flow 1 <> spec_outflow_within (V chain) leaking_flow 1
  /\ exists m g',
       (forall u, row (graph (test_graph_flow_only chain)) u = row (graph chain) u)
       /\ V (test_graph_flow_only chain) = V chain
       /\ flow (test_graph_flow_only chain) = []
       /\ ford_fulkerson_max_flow (test_graph_flow_only chain) 0 3 = Ok (m, g')
       /\ verify_maximum_flow chain 0 3 leaking_flow = Ok (false, 0, m).
Proof.
  split; [reflexivity|]. split; [reflexivity|].
  split; [vm_compute; discriminate|].
  apply (checked_conservation_violation_reports_zero chain 0 3 leaking_flow 1);
    try reflexivity; try (vm_compute; intuition discriminate).
Defined.

(* ================================================================= *)
(** * The handler of /api/verify *)

(** ** Level data that carries every key *)

Lemma add_json_edges_complete edges :
  forall g,
    add_json_edges g (map json_of_edge edges)
    = Done (fold_left (fun g e => add_edge g (e_from e) (e_to e) (e_capacity e))
                      edges g).
Proof.
  induction edges as [|e edges IH]; intros g; [reflexivity|].
  cbn [map add_json_edges json_of_edge j_from j_to j_capacity fold_left].
  apply IH.
Qed.



Lemma verify_level_complete py_int level user_flows uf :
  convert_flows py_int user_flows [] = Done uf ->
  verify_level py_int (json_of_level level) user_flows
  = match verify_maximum_flow (build_graph (l_nodes level) (l_edges level))
            (l_source level) (l_sink level) uf with
    | Ok (is_valid, value, m) => Verdict is_valid value m
    | Err e => Failure (RaisedByEngine e)
    end.
Proof.
  intros Hconv. unfold verify_level, json_of_level.
  cbn [j_nodes j_edges j_source j_sink].
  rewrite add_json_edges_complete, Hconv. reflexivity.
Qed.



Lemma verify_maximum_flow_returns self s t uf :
  exists is_valid value m,
    verify_maximum_flow self s t uf = Ok (is_valid, value, m).
Proof.
  destruct (verify_maximum_flow_spec self s t uf) as (m & g' & _ & Hver).
  rewrite Hver. destruct (conservation_loop _ _ _ _ _); eauto.
Qed.

(** ** The request layer: no edge is rejected *)

(** The malformed request: a custom level whose level data carries every
    key, whose one edge lies outside the node range and has a negative
    capacity; the handler answers with a verdict, no input error. *)
Lemma malformed_edge_not_rejected :
  existsb (malformed_edge (l_nodes malformed_level)) (l_edges malformed_level)
  = true
  /\ rejected (verify_flow decimal malformed_request) = false
  /\ verify_flow decimal malformed_request = Verdict true 0 0.
Proof. vm_compute. auto. Qed.

(** C7, as the code has it.  [add_edge] adds the capacity to the pair for
    any endpoints and any capacity.  A request for a custom level whose
    level data carries the keys the handler reads, with supplied flows
    whose keys convert without an error into the table [uf], is answered
    with the verdict [verify_maximum_flow] returns on the graph built from
    all the edges of the level, whatever their endpoints and capacities. *)
Theorem custom_level_edges_never_rejected :
  forall py_int level user_flows uf,
    convert_flows py_int user_flows [] = Done uf ->
    (forall g u v c, cell (graph (add_edge g u v c)) u v = cell (graph g) u v + c)
    /\ exists is_valid value m,
         verify_maximum_flow (build_graph (l_nodes level) (l_edges level))
           (l_source level) (l_sink level) uf
         = Ok (is_valid, value, m)
         /\ verify_flow py_int
              (mkRequest Custom user_flows (Some (json_of_level level)))
            = Verdict is_valid value m.
Proof.
  intros py_int level user_flows uf Hconv. split.
  - intros g u v c. unfold add_edge. simpl. rewrite cell_store.
    now rewrite !Z.eqb_refl.
  - destruct (verify_maximum_flow_returns
                (build_graph (l_nodes level) (l_edges level))
                (l_source level) (l_sink level) uf)
      as (is_valid & value & m & Hver).
    exists is_valid, value, m. split; [exact Hver|].
    unfold verify_flow. cbn [level_id level_data flows].
    rewrite (verify_level_complete py_int level user_flows uf Hconv).
    now rewrite Hver.
Qed.

Lemma custom_level_edges_never_rejected_witness :
  convert_flows decimal [("0-1"%string, 1)] [] = Done (build_user_flow [(0, 1, 1)])
  /\ (forall g u v c, cell (graph (add_edge g u v c)) u v = cell (graph g) u v + c)
  /\ exists is_valid value m,
       verify_maximum_flow
         (build_graph (l_nodes malformed_level) (l_edges malformed_level))
         (l_source malformed_level) (l_sink malformed_level)
         (build_user_flow [(0, 1, 1)])
       = Ok (is_valid, value, m)
       /\ verify_flow decimal
            (mkRequest Custom [("0-1"%string, 1)]
                       (Some (json_of_level malformed_level)))
          = Verdict is_valid value m.
Proof.
  split; [reflexivity|].
  apply (custom_level_edges_never_rejected decimal malformed_level
           [("0-1"%string, 1)] (build_user_flow [(0, 1, 1)])).
  reflexivity.
Defined.

(** ** The handler on custom levels *)



(** ** The answers of the handler *)


(** ** Requests the handler fails on *)



(** A flow key whose parts are no numerals makes the handler fail on a
    built-in level. *)
Example verify_flow_key_not_numeric :
  str_split "-" "a-b" = ["a"%string; "b"%string]
  /\ decimal "a" = None
  /\ verify_flow decimal (mkRequest (Numbered 1) [("a-b"%string, 1)] None)
     = Failure RaisedValueError.
Proof. vm_compute. auto. Qed.

(** ** The table of the supplied flows *)

(** X22.  When every supplied flow has a key that splits at its one ["-"]
    into two parts that [int] reads, the table the handler passes to the
    verifier is the one obtained by storing the values under the pairs
    read, in the order supplied. *)
Theorem convert_flows_builds_user_flow :
  forall py_int user_flows triples,
    Forall2 (reads_as py_int) user_flows triples ->
    convert_flows py_int user_flows [] = Done (build_user_flow triples).
Proof.
  intros py_int user_flows triples H. unfold build_user_flow.
  generalize (@nil (Z * dict Z)) as m.
  induction H as [|[flow_id flow_value] [[u v] x] rest triples' Hr _ IH];
    intros m; [reflexivity|].
  destruct Hr as (part0 & part1 & Hsplit & H0 & H1 & Hx).
  cbn [fst snd] in *. unfold entry_tail, entry_head, entry_value in *.
  cbn [fst snd] in *. subst x.
  cbn [convert_flows fold_left]. rewrite Hsplit, H0, H1. apply IH.
Qed.

Lemma convert_flows_builds_user_flow_witness :
  Forall2 (reads_as decimal)
          [("0-1"%string, 5); ("1-2"%string, 3)] [(0, 1, 5); (1, 2, 3)]
  /\ convert_flows decimal [("0-1"%string, 5); ("1-2"%string, 3)] []
     = Done (build_user_flow [(0, 1, 5); (1, 2, 3)]).
Proof.
  assert (H : Forall2 (reads_as decimal)
                      [("0-1"%string, 5); ("1-2"%string, 3)]
                      [(0, 1, 5); (1, 2, 3)]).
  { constructor; [|constructor; [|constructor]].
    - exists "0"%string, "1"%string. repeat split; reflexivity.
    - exists "1"%string, "2"%string. repeat split; reflexivity. }
  split; [exact H|].
  apply (convert_flows_builds_user_flow decimal _ _ H).
Defined.
